(** * HWMX: determinant by LU decomposition with partial pivoting

    A shallow embedding of [src/src/determinant.cpp] (namespace
    [LinearAlgebra]): the [Matrix] class, the engine
    [DeterminantCalculator::calculateDeterminant] and the readers
    [MatrixReader::readFromFile] and [MatrixReader::readFromUserInput].

    - [long double] is the x87 80-bit extended format (64-bit significand,
      round to nearest even), given by the parametric IEEE 754 specification
      of the Standard Library.
    - [size_t] is a 64-bit unsigned integer: [N] with its wrap-around.
    - A [std::unique_ptr<long double[]>] is an optional location in a store
      of buffers; [Matrix] objects live in a store of objects, so that
      [this != &other] and the ownership of buffers can be expressed.
    - Indexing a buffer out of range is undefined behaviour: the model
      returns [None]. *)

From Stdlib Require Import ZArith NArith Lia.
From Stdlib Require Import Floats.SpecFloat.
From stdpp Require Import base option list gmap strings.
From Stdlib Require Import DecimalString.

Local Open Scope N_scope.

(** ** The scalar type [long double] *)

Module LD.

Definition prec : Z := 64.
Definition emax : Z := 16384.

Definition long_double : Type := spec_float.

(** Conversion of an integer, as [static_cast<long double>(int)]. *)
Definition of_Z (z : Z) : long_double := binary_normalize prec emax z 0 false.

(** The literals [0.0L] and [1.0L]. *)
Definition zero : long_double := S754_zero false.
Definition one : long_double := of_Z 1.

(** The literal [1e-15L]: the long double nearest to 10^-15, which is the
    correctly rounded quotient of the two exact values 1 and 10^15. *)
Definition eps : long_double := SFdiv prec emax (of_Z 1) (of_Z (10 ^ 15)).

Definition fabsl (x : long_double) : long_double := SFabs x.
Definition lt (x y : long_double) : bool := SFltb x y.
Definition gt (x y : long_double) : bool := SFltb y x.
Definition eqb (x y : long_double) : bool := SFeqb x y.
Definition mul (x y : long_double) : long_double := SFmul prec emax x y.
Definition div (x y : long_double) : long_double := SFdiv prec emax x y.
Definition sub (x y : long_double) : long_double := SFsub prec emax x y.
Definition opp (x : long_double) : long_double := SFopp x.

Definition is_nan (x : long_double) : bool :=
  match x with S754_nan => true | _ => false end.


End LD.

Abbreviation long_double := LD.long_double.

(** ** [size_t] arithmetic *)

Definition SIZE_WIDTH : N := 64.
Definition size_modulus : N := 2 ^ SIZE_WIDTH.

Definition size_mul (a b : N) : N := (a * b) mod size_modulus.
Definition size_add (a b : N) : N := (a + b) mod size_modulus.

(** ** Loops

    [for_loop count i body s] runs [body i], [body (i+1)], ... [count] times:
    the loop [for (size_t x = lo; x < hi; ++x)] is
    [for_loop (N.to_nat (hi - lo)) lo]. *)

Fixpoint for_loop {S : Type} (count : nat) (i : N)
    (body : N -> S -> option S) (s : S) : option S :=
  match count with
  | O => Some s
  | Datatypes.S c =>
      match body i s with
      | Some s' => for_loop c (N.succ i) body s'
      | None => None
      end
  end.

Definition for_range {S : Type} (lo hi : N) (body : N -> S -> option S) (s : S)
    : option S :=
  for_loop (N.to_nat (hi - lo)) lo body s.

(** ** Matrix storage: the buffer behind [data] *)

Module Buffer.

(** [Matrix::index]: [i * size + j] in [size_t]. *)
Definition index (size i j : N) : N := size_add (size_mul i size) j.

(** [operator()(i, j)] used as an rvalue: [data[index(i, j)]]. *)
Definition get (size : N) (buf : list long_double) (i j : N)
    : option long_double :=
  buf !! N.to_nat (index size i j).

(** [operator()(i, j) = v]. *)
Definition set (size : N) (buf : list long_double) (i j : N) (v : long_double)
    : option (list long_double) :=
  let ix := N.to_nat (index size i j) in
  if decide (ix < length buf)%nat then Some (<[ix := v]> buf) else None.

(** The body of the loop of [Matrix::swapRows]:
    [std::swap] of the elements [(i, k)] and [(j, k)]. *)
Definition swap_elems (size i j k : N) (buf : list long_double)
    : option (list long_double) :=
  a ← get size buf i k;
  b ← get size buf j k;
  buf1 ← set size buf i k b;
  set size buf1 j k a.

(** [Matrix::swapRows]. *)
Definition swapRows (size : N) (buf : list long_double) (i j : N)
    : option (list long_double) :=
  if N.eqb i j then Some buf
  else for_range 0 size (swap_elems size i j) buf.

End Buffer.

(** ** The determinant engine on a buffer *)

Module Engine.

Import Buffer.

(** The scratch state of one call: the matrix buffer, the permutation
    record [pivot], the running product [det] and [sign]. *)
Record lu_state := LuState {
  mat : list long_double;
  pivot : list N;
  det : long_double;
  sign : Z
}.

(** The pivot [i -> i] array built before the main loop. *)
Definition init_pivot (n : N) : list N := map N.of_nat (seq 0 (N.to_nat n)).

(** One iteration of the pivot search, on [(max_val, pivot_row)]. *)
Definition find_pivot_body (n k : N) (buf : list long_double) (i : N)
    (acc : long_double * N) : option (long_double * N) :=
  x ← get n buf i k;
  let val := LD.fabsl x in
  if LD.gt val (fst acc) then Some (val, i) else Some acc.

(** The pivot search of column [k]: returns [(max_val, pivot_row)]. *)
Definition find_pivot (n k : N) (buf : list long_double)
    : option (long_double * N) :=
  x ← get n buf k k;
  for_range (k + 1) n (find_pivot_body n k buf) (LD.fabsl x, k).

(** [std::swap(pivot[k], pivot[pivot_row])]. *)
Definition swap_pivot (k p : N) (piv : list N) : option (list N) :=
  a ← piv !! N.to_nat k;
  b ← piv !! N.to_nat p;
  Some (<[N.to_nat p := a]> (<[N.to_nat k := b]> piv)).

(** [matrix(i, j) -= factor * matrix(k, j)]. *)
Definition elim_col (n k i : N) (factor : long_double) (j : N)
    (buf : list long_double) : option (list long_double) :=
  x ← get n buf i j;
  y ← get n buf k j;
  set n buf i j (LD.sub x (LD.mul factor y)).

(** The elimination of row [i] by the pivot row [k]. *)
Definition elim_row (n k : N) (pivot_val : long_double) (i : N)
    (buf : list long_double) : option (list long_double) :=
  x ← get n buf i k;
  let factor := LD.div x pivot_val in
  buf1 ← set n buf i k factor;
  for_range (k + 1) n (elim_col n k i factor) buf1.

(** The pivot search and the row swap of column [k]. *)
Definition pivot_step (n k : N) (st : lu_state) : option lu_state :=
  '(_, pivot_row) ← find_pivot n k (mat st);
  if N.eqb pivot_row k then Some st
  else
    buf ← swapRows n (mat st) k pivot_row;
    piv ← swap_pivot k pivot_row (pivot st);
    Some (LuState buf piv (det st) (- sign st)%Z).

(** What one iteration of the main loop does: it leaves the function with
    a value, or goes on to the next column. *)
Inductive outcome :=
| Return (r : long_double) (st : lu_state)
| Continue (st : lu_state).

Definition lu_step (n k : N) (st : lu_state) : option outcome :=
  st1 ← pivot_step n k st;
  pivot_val ← get n (mat st1) k k;
  if LD.lt (LD.fabsl pivot_val) LD.eps then Some (Return LD.zero st1)
  else
    buf ← for_range (k + 1) n (elim_row n k pivot_val) (mat st1);
    Some (Continue (LuState buf (pivot st1) (LD.mul (det st1) pivot_val) (sign st1))).

(** [count] iterations of the main loop from column [k]. *)
Fixpoint lu_loop (count : nat) (n k : N) (st : lu_state) : option outcome :=
  match count with
  | O => Some (Continue st)
  | S c =>
      match lu_step n k st with
      | Some (Continue st') => lu_loop c n (N.succ k) st'
      | r => r
      end
  end.

(** The body of [calculateDeterminant] for a matrix of dimension [n] held
    in [buf]: the value returned and the buffer left behind. *)
Definition calculateDeterminant (n : N) (buf : list long_double)
    : option (long_double * list long_double) :=
  if N.eqb n 0 then Some (LD.one, buf)
  else if N.eqb n 1 then x ← get n buf 0 0; Some (x, buf)
  else
    match lu_loop (N.to_nat n) n 0 (LuState buf (init_pivot n) LD.one 1%Z) with
    | Some (Return r st) => Some (r, mat st)
    | Some (Continue st) => Some (LD.mul (det st) (LD.of_Z (sign st)), mat st)
    | None => None
    end.

End Engine.

(** ** The class [Matrix]: objects and owned buffers *)

Module Matrix.

(** The members of a [Matrix]: [data] is a [unique_ptr], null ([None]) or
    the location of the owned buffer. *)
Record t := Mk {
  data : option positive;
  size : N
}.

(** Objects by address, buffers by location. *)
Record store := Store {
  objs : gmap positive t;
  bufs : gmap positive (list long_double)
}.

(** [std::make_unique<long double[]>(len)]: a new array of [len] elements,
    value-initialized, at a location not in use. *)
Definition make_unique (len : N) (σ : store) : positive * store :=
  let l := fresh (dom (bufs σ)) in
  (l, Store (objs σ) (<[l := replicate (N.to_nat len) LD.zero]> (bufs σ))).

(** What a [unique_ptr] does with the buffer it gives up. *)
Definition release (p : option positive) (σ : store) : store :=
  match p with
  | Some l => Store (objs σ) (delete l (bufs σ))
  | None => σ
  end.

(** The elements reachable through [data]: none through a null pointer. *)
Definition buffer_of (σ : store) (m : t) : option (list long_double) :=
  match data m with
  | Some l => bufs σ !! l
  | None => Some []
  end.

Definition update_buffer (σ : store) (m : t) (buf : list long_double) : store :=
  match data m with
  | Some l => Store (objs σ) (<[l := buf]> (bufs σ))
  | None => σ
  end.

Definition set_obj (a : positive) (m : t) (σ : store) : store :=
  Store (<[a := m]> (objs σ)) (bufs σ).

(** [std::copy(src.get(), src.get() + count, dst.get())]. *)
Definition std_copy (src : option positive) (count : N) (dst : positive)
    (σ : store) : option store :=
  sb ← match src with Some l => bufs σ !! l | None => Some [] end;
  db ← bufs σ !! dst;
  let c := N.to_nat count in
  if decide (c <= length sb /\ c <= length db)%nat
  then Some (Store (objs σ) (<[dst := take c sb ++ drop c db]> (bufs σ)))
  else None.

(** A constructor initializes an object at an address that holds none. *)
Definition is_new (this : positive) (σ : store) : bool :=
  bool_decide (objs σ !! this = None).

(** [Matrix::Matrix(size_t n)]. *)
Definition ctor (this : positive) (n : N) (σ : store) : option store :=
  if is_new this σ then
    let '(l, σ1) := make_unique (size_mul n n) σ in
    Some (set_obj this (Mk (Some l) n) σ1)
  else None.

(** [Matrix::Matrix(const Matrix& other)]. *)
Definition copy_ctor (this other : positive) (σ : store) : option store :=
  if is_new this σ then
    o ← objs σ !! other;
    let '(l, σ1) := make_unique (size_mul (size o) (size o)) σ in
    σ2 ← std_copy (data o) (size_mul (size o) (size o)) l σ1;
    Some (set_obj this (Mk (Some l) (size o)) σ2)
  else None.

(** [Matrix::Matrix(Matrix&& other)]. *)
Definition move_ctor (this other : positive) (σ : store) : option store :=
  if is_new this σ then
    o ← objs σ !! other;
    Some (set_obj other (Mk None 0) (set_obj this (Mk (data o) (size o)) σ))
  else None.

(** [Matrix::operator=(const Matrix& other)]. *)
Definition copy_assign (this other : positive) (σ : store) : option store :=
  m ← objs σ !! this;
  o ← objs σ !! other;
  if decide (this = other) then Some σ
  else
    let '(l, σ1) := make_unique (size_mul (size o) (size o)) σ in
    let σ2 := release (data m) σ1 in
    σ3 ← std_copy (data o) (size_mul (size o) (size o)) l σ2;
    Some (set_obj this (Mk (Some l) (size o)) σ3).

(** [Matrix::operator=(Matrix&& other)]. *)
Definition move_assign (this other : positive) (σ : store) : option store :=
  m ← objs σ !! this;
  o ← objs σ !! other;
  if decide (this = other) then Some σ
  else
    let σ1 := release (data m) σ in
    Some (set_obj other (Mk None 0) (set_obj this (Mk (data o) (size o)) σ1)).

(** [Matrix::~Matrix()]. *)
Definition dtor (this : positive) (σ : store) : option store :=
  m ← objs σ !! this;
  Some (Store (delete this (objs σ)) (bufs (release (data m) σ))).

(** [operator()(i, j)], read and written. *)
Definition get (this : positive) (i j : N) (σ : store) : option long_double :=
  m ← objs σ !! this;
  buf ← buffer_of σ m;
  Buffer.get (size m) buf i j.

Definition set (this : positive) (i j : N) (v : long_double) (σ : store)
    : option store :=
  m ← objs σ !! this;
  buf ← buffer_of σ m;
  buf' ← Buffer.set (size m) buf i j v;
  Some (update_buffer σ m buf').

(** [Matrix::getSize]. *)
Definition getSize (this : positive) (σ : store) : option N :=
  size <$> objs σ !! this.

(** [Matrix::swapRows]. *)
Definition swapRows (this : positive) (i j : N) (σ : store) : option store :=
  m ← objs σ !! this;
  buf ← buffer_of σ m;
  buf' ← Buffer.swapRows (size m) buf i j;
  Some (update_buffer σ m buf').

(** [Matrix::copy]: the copy is constructed at [ret]. *)
Definition copy (ret this : positive) (σ : store) : option store :=
  copy_ctor ret this σ.

End Matrix.

(** ** [DeterminantCalculator::calculateDeterminant(Matrix& matrix)] *)

Module DeterminantCalculator.

Import Matrix.

Definition calculateDeterminant (matrix : positive) (σ : store)
    : option (long_double * store) :=
  m ← objs σ !! matrix;
  buf ← buffer_of σ m;
  '(r, buf') ← Engine.calculateDeterminant (size m) buf;
  Some (r, update_buffer σ m buf').

End DeterminantCalculator.

(** ** [MatrixReader::readFromFile] *)

Module MatrixReader.

(** A line of the file, as [operator>>] sees it: numbers, and text that is
    not a number, at which every later extraction of the line fails. *)
Inductive token :=
| Num (v : long_double)
| Junk.

(** What a call does: it returns, throws [std::runtime_error] with a
    message, or has no defined behaviour. *)
Inductive result (A : Type) :=
| Ok (a : A)
| Throw (msg : string)
| Undefined.

Arguments Ok {A} a.
Arguments Throw {A} msg.
Arguments Undefined {A}.

(** [while (first_line >> value) ++size;] *)
Fixpoint count_values (line : list token) : N :=
  match line with
  | Num _ :: rest => N.succ (count_values rest)
  | _ => 0
  end.

(** The loop over [j] for row [i]: [count] values are extracted from
    what is left of the line. *)
Fixpoint read_row (count : nat) (size i j : N) (line : list token)
    (buf : list long_double) : result (list long_double) :=
  match count with
  | O => Ok buf
  | S c =>
      match line with
      | Num v :: rest =>
          match Buffer.set size buf i j v with
          | Some buf' => read_row c size i (N.succ j) rest buf'
          | None => Undefined
          end
      | _ => Throw "Invalid matrix format: not enough columns"
      end
  end.

(** The loop over [i]: one [getline] for each row. *)
Fixpoint read_rows (count : nat) (size i : N) (lines : list (list token))
    (buf : list long_double) : result (list long_double) :=
  match count with
  | O => Ok buf
  | S c =>
      match lines with
      | line :: rest =>
          match read_row (N.to_nat size) size i 0 line buf with
          | Ok buf' => read_rows c size (N.succ i) rest buf'
          | e => e
          end
      | [] => Throw "Invalid matrix format: not enough rows"
      end
  end.

(** [readFromFile]: [file] is [None] when the file cannot be opened, and
    the lines of the file otherwise. The matrix is returned as its
    dimension and its elements. *)
Definition readFromFile (filename : string) (file : option (list (list token)))
    : result (N * list long_double) :=
  match file with
  | None => Throw (String.append "Cannot open file: " filename)
  | Some lines =>
      let size := count_values (hd [] lines) in
      let matrix := replicate (N.to_nat (size_mul size size)) LD.zero in
      match read_rows (N.to_nat size) size 0 lines matrix with
      | Ok buf => Ok (size, buf)
      | Throw msg => Throw msg
      | Undefined => Undefined
      end
  end.

End MatrixReader.

(** ** [MatrixReader::readFromUserInput] *)

Module UserInput.

Import MatrixReader.

(** [std::to_string] of a [size_t]. *)
Definition to_string (n : N) : string := NilZero.string_of_uint (N.to_uint n).

(** What [std::endl] writes. *)
Definition endl : string := String (Ascii.ascii_of_nat 10) EmptyString.

(** The loop over [j] for row [i]: [count] values are extracted from what
    is left of the line, which is returned with the buffer. *)
Fixpoint read_values (count : nat) (size i j : N) (line : list token)
    (buf : list long_double) : result (list long_double * list token) :=
  match count with
  | O => Ok (buf, line)
  | S c =>
      match line with
      | Num v :: rest =>
          match Buffer.set size buf i j v with
          | Some buf' => read_values c size i (N.succ j) rest buf'
          | None => Undefined
          end
      | _ => Throw (String.append "Invalid input: not enough numbers in row "
                      (to_string (size_add i 1)))
      end
  end.

(** One row: the values, then [if (iss >> extra) throw]. *)
Definition read_row (size i : N) (line : list token) (buf : list long_double)
    : result (list long_double) :=
  match read_values (N.to_nat size) size i 0 line buf with
  | Ok (buf', Num _ :: _) =>
      Throw (String.append "Invalid input: too many numbers in row "
               (to_string (size_add i 1)))
  | Ok (buf', _) => Ok buf'
  | Throw msg => Throw msg
  | Undefined => Undefined
  end.

(** The loop over [i]: a prompt, one [getline] (which leaves the line empty
    at the end of the input) and the row. [out] is what was written to
    [std::cout]. *)
Fixpoint read_rows (count : nat) (size i : N) (lines : list (list token))
    (buf : list long_double) (out : list string)
    : list string * result (list long_double) :=
  match count with
  | O => (out, Ok buf)
  | S c =>
      let out1 :=
        out ++ [String.append "Row " (String.append (to_string (size_add i 1)) ": ")] in
      match read_row size i (hd [] lines) buf with
      | Ok buf' => read_rows c size (N.succ i) (tl lines) buf' out1
      | Throw msg => (out1, Throw msg)
      | Undefined => (out1, Undefined)
      end
  end.

(** [readFromUserInput]: [size] is what [std::cin >> size] leaves in [size]
    (0 when the extraction fails), [lines] are the lines that [getline]
    reads after [std::cin.ignore()]. The result is what was written to
    [std::cout] and the matrix, as its dimension and its elements. *)
Definition readFromUserInput (size : N) (lines : list (list token))
    : list string * result (N * list long_double) :=
  let out := ["Enter matrix size N: "] in
  if N.eqb size 0 then (out, Ok (0, []))
  else
    let matrix := replicate (N.to_nat (size_mul size size)) LD.zero in
    let out1 :=
      out ++ [String.append "Enter "
                (String.append (to_string size)
                   (String.append "x"
                      (String.append (to_string size)
                         (String.append " matrix elements row by row:" endl))))] in
    match read_rows (N.to_nat size) size 0 lines matrix out1 with
    | (o, Ok buf) => (o, Ok (size, buf))
    | (o, Throw msg) => (o, Throw msg)
    | (o, Undefined) => (o, Undefined)
    end.

End UserInput.

(** * Vocabulary of the properties *)

(** ** Well-formed buffers *)

(** The dimension [n] is such that [n * n] does not wrap around. *)
Definition fits (n : N) : Prop := n * n < size_modulus.

(** The buffer of a matrix of dimension [n]. *)
Definition wf_buf (n : N) (buf : list long_double) : Prop :=
  fits n /\ length buf = N.to_nat (n * n).

(** ** States and runs of the engine *)

Module EngineSpec.

Import Buffer Engine.

(** The scratch state of a call on a matrix of dimension [n]. *)
Definition wf_state (n : N) (st : lu_state) : Prop :=
  wf_buf n (mat st) /\ length (pivot st) = N.to_nat n.

Definition outcome_state (o : outcome) : lu_state :=
  match o with Return _ st => st | Continue st => st end.

Definition outcome_mat (o : outcome) : list long_double :=
  match o with Return _ st => mat st | Continue st => mat st end.

Definition init_state (n : N) (buf : list long_double) : lu_state :=
  LuState buf (init_pivot n) LD.one 1%Z.

Definition result_of (o : outcome) : long_double * list long_double :=
  match o with
  | Return r st => (r, mat st)
  | Continue st => (LD.mul (det st) (LD.of_Z (sign st)), mat st)
  end.

(** The row in which row [r] is found after rows [i] and [j] are exchanged. *)
Definition swapped (i j r : N) : N :=
  if N.eqb r i then j else if N.eqb r j then i else r.

(** What the scan of column [k] knows after rows [k .. i-1]. *)
Definition scanned (n k : N) (buf : list long_double) (i : N)
    (acc : long_double * N) : Prop :=
  let '(mv, p) := acc in
  k <= p < i /\
  exists x, get n buf p k = Some x /\ mv = LD.fabsl x /\
    (forall r y, k <= r < i -> get n buf r k = Some y ->
       LD.gt (LD.fabsl y) (LD.fabsl x) = false) /\
    (forall r y, k <= r < p -> get n buf r k = Some y ->
       LD.gt (LD.fabsl x) (LD.fabsl y) = true \/ LD.is_nan y = true).

(** In column [k], from row [k] on, one row is strictly above all others. *)
Definition strict_pivot (n k : N) (buf : list long_double) : Prop :=
  exists p x, k <= p < n /\ get n buf p k = Some x /\
    forall r y, k <= r < n -> r <> p -> get n buf r k = Some y ->
      LD.gt (LD.fabsl x) (LD.fabsl y) = true.

(** The pivot search meets no tie in the [count] columns from [k]. *)
Fixpoint no_ties_from (count : nat) (n k : N) (st : lu_state) : Prop :=
  match count with
  | O => True
  | S c =>
      strict_pivot n k (mat st) /\
      match lu_step n k st with
      | Some (Continue st') => no_ties_from c n (N.succ k) st'
      | _ => True
      end
  end.

Definition no_ties (n : N) (buf : list long_double) : Prop :=
  no_ties_from (N.to_nat n) n 0 (init_state n buf).

(** [b'] is [b] with rows [i] and [j] exchanged. *)
Definition rows_swapped (n i j : N) (b b' : list long_double) : Prop :=
  forall r c, r < n -> c < n -> get n b' r c = get n b (swapped i j r) c.

(** The element [(r, c)] after the elimination of column [k]. *)
Definition eliminated (n k : N) (pv : long_double) (b : list long_double) (r c : N)
    : option long_double :=
  if N.leb r k || N.ltb c k then get n b r c
  else
    x ← get n b r k;
    if N.eqb c k then Some (LD.div x pv)
    else
      y ← get n b r c;
      z ← get n b k c;
      Some (LD.sub y (LD.mul (LD.div x pv) z)).

(** Two scratch states that differ by [sign] only (and by the permutation
    record, which nothing reads). *)
Definition opposite (st st' : lu_state) : Prop :=
  mat st' = mat st /\ det st' = det st /\ sign st' = (- sign st)%Z /\
  (sign st = 1 \/ sign st = -1)%Z.

Definition opposite_outcome (o o' : outcome) : Prop :=
  match o, o' with
  | Return r st, Return r' st' => r = LD.zero /\ r' = LD.zero /\ mat st' = mat st
  | Continue st, Continue st' => opposite st st'
  | _, _ => False
  end.

(** The two runs at column [k]: same [det], same [sign], and matrices
    that differ by the exchange of two rows not yet eliminated. *)
Definition sim (n k : N) (st st' : lu_state) : Prop :=
  wf_state n st /\ wf_state n st' /\
  det st' = det st /\ sign st' = sign st /\ (sign st = 1 \/ sign st = -1)%Z /\
  exists i j, k <= i < n /\ k <= j < n /\ i <> j /\
    rows_swapped n i j (mat st) (mat st').

(** The two runs return [0.0], or go on with opposite signs. *)
Definition negated_outcome (o o' : outcome) : Prop :=
  match o, o' with
  | Return r _, Return r' _ => r = LD.zero /\ r' = LD.zero
  | Continue st, Continue st' =>
      det st' = det st /\ sign st' = (- sign st)%Z /\ (sign st = 1 \/ sign st = -1)%Z
  | _, _ => False
  end.

(** Row [p] holds the first greatest magnitude of column [k] among the
    rows from [k] on: no row of the range is strictly above it, and every
    earlier row of the range is strictly below it. A NaN compares with
    nothing: the scan passes over one that is below row [k], and keeps the
    one of row [k]. *)
Definition first_maximum (n k : N) (buf : list long_double) (p : N) : Prop :=
  k <= p < n /\
  exists x, get n buf p k = Some x /\
    (forall r y, k <= r < n -> get n buf r k = Some y ->
       LD.gt (LD.fabsl y) (LD.fabsl x) = false) /\
    (forall r y, k <= r < p -> get n buf r k = Some y ->
       LD.gt (LD.fabsl x) (LD.fabsl y) = true \/ (k < r /\ LD.is_nan y = true)).

End EngineSpec.

(** ** What the main loop did, column by column *)

Module Log.

Import Buffer Engine.






End Log.

(** ** The order on magnitudes *)

Module LDOrder.

(** Magnitudes are compared by class (zero, finite, infinite), then by
    exponent, then by significand; NaN has no rank. *)
Definition rank (x : long_double) : option (Z * Z * Z) :=
  match x with
  | S754_nan => None
  | S754_zero _ => Some (0, 0, 0)%Z
  | S754_finite _ m e => Some (1, e, Zpos m)%Z
  | S754_infinity _ => Some (2, 0, 0)%Z
  end.

Definition lex3 (a b : Z * Z * Z) : Prop :=
  let '(a1, a2, a3) := a in
  let '(b1, b2, b3) := b in
  (a1 < b1 \/ (a1 = b1 /\ (a2 < b2 \/ (a2 = b2 /\ a3 < b3))))%Z.

End LDOrder.

(** ** The invariant of the store *)

Module StoreSpec.

Import Matrix.

(** The buffer owned by [m] is allocated and has [size * size] elements
    ([size_t] product); a null [data] goes with [size == 0]. *)
Definition buffer_ok (σ : store) (m : t) : Prop :=
  match data m with
  | Some l => exists buf, bufs σ !! l = Some buf /\
                N.of_nat (length buf) = size_mul (size m) (size m)
  | None => size m = 0
  end.

(** No buffer has two owners. *)
Definition unique_owner (σ : store) : Prop :=
  forall a b ma mb l,
    objs σ !! a = Some ma -> objs σ !! b = Some mb ->
    data ma = Some l -> data mb = Some l -> a = b.

Definition invariant (σ : store) : Prop :=
  (forall a m, objs σ !! a = Some m -> buffer_ok σ m) /\ unique_owner σ.



End StoreSpec.

(** ** Sample matrices *)

(** The long double of an integer literal. *)
Definition lit (z : Z) : long_double := LD.of_Z z.

Module Samples.

Import Engine EngineSpec Matrix MatrixReader.

Definition m22 : list long_double := map lit [1; 2; 3; 4]%Z.

Definition st22 : lu_state :=
  Eval vm_compute in
    match lu_loop 2 2 0 (init_state 2 m22) with
    | Some (Continue st) => st
    | _ => init_state 2 m22
    end.

Definition m22_singular : list long_double := map lit [1; 2; 2; 4]%Z.

Definition empty_store : store := Store ∅ ∅.

(** A store with one matrix, [[1, 2], [3, 4]], at address 1. *)
Definition M22 : t := Mk (Some 1%positive) 2.

Definition store22 : store :=
  Store {[ 1%positive := M22 ]} {[ 1%positive := m22 ]}.

Definition nums (l : list Z) : list token := map (fun z => Num (lit z)) l.

End Samples.

(** ** Vocabulary of the further properties *)

Module MoreSpec.

Import Buffer Engine EngineSpec Matrix MatrixReader.

Definition is_zero (x : long_double) : bool :=
  match x with S754_zero _ => true | _ => false end.

(** The diagonal elements [(k, k)], [(k+1, k+1)], ... of a buffer. *)
Fixpoint diag_from (count : nat) (n k : N) (buf : list long_double)
    : list long_double :=
  match count with
  | O => []
  | S c =>
      match Buffer.get n buf k k with
      | Some d => d :: diag_from c n (N.succ k) buf
      | None => []
      end
  end.

(** Every element below the diagonal satisfies [L], every element above
    it [U], and every diagonal element [Q]. *)
Definition triangular_shape (L U Q : long_double -> Prop) (n : N)
    (buf : list long_double) : Prop :=
  forall r c x, r < n -> c < n -> Buffer.get n buf r c = Some x ->
    if N.eqb r c then Q x else if N.ltb c r then L x else U x.

(** A zero or a finite number. *)
Definition finite_or_zero (d : long_double) : Prop :=
  match d with S754_zero _ | S754_finite _ _ _ => True | _ => False end.

(** Neither a zero nor a NaN. *)
Definition number (d : long_double) : Prop :=
  match d with S754_finite _ _ _ | S754_infinity _ => True | _ => False end.

(** A pivot the main loop accepts: not a NaN and not below the threshold. *)
Definition accepted (d : long_double) : Prop :=
  LD.is_nan d = false /\ LD.lt (LD.fabsl d) LD.eps = false.

(** Every buffer of the store has an owner. *)
Definition no_leak (σ : store) : Prop :=
  forall l b, bufs σ !! l = Some b ->
    exists a m, objs σ !! a = Some m /\ data m = Some l.

(** A line that holds the values [vs] and then nothing that extracts as a
    number. *)
Definition exact_row (vs : list long_double) (line : list token) : Prop :=
  exists rest, line = map Num vs ++ rest /\
    match rest with Num _ :: _ => False | _ => True end.

(** A line that starts with the values [vs]. *)
Definition row_prefix (vs : list long_double) (line : list token) : Prop :=
  exists rest, line = map Num vs ++ rest.

(** The object at [a] and the elements it reaches are the same in [σ']
    as in [σ]. *)
Definition same_matrix (a : positive) (σ σ' : store) : Prop :=
  objs σ' !! a = objs σ !! a /\
  forall m, objs σ !! a = Some m -> buffer_of σ' m = buffer_of σ m.

(** [this] has the size and the elements that [other] had, and [other]
    is left with no element and the size 0. *)
Definition handed_over (this other : positive) (σ σ' : store) : Prop :=
  getSize this σ' = getSize other σ /\
  (forall i j, Matrix.get this i j σ' = Matrix.get other i j σ) /\
  getSize other σ' = Some 0 /\
  (forall i j, Matrix.get other i j σ' = None).

(** A store with two matrices: [[1, 2], [3, 4]] at address 1 and [[5]] at
    address 2. *)
Definition M11 : t := Mk (Some 2%positive) 1.

Definition store_two : store :=
  Store {[ 1%positive := Samples.M22; 2%positive := M11 ]}
        {[ 1%positive := Samples.m22; 2%positive := [lit 5] ]}.

(** The prompt of row [i] (counted from 0). *)
Definition row_prompt (i : N) : string :=
  String.append "Row " (String.append (UserInput.to_string (i + 1)) ": ").

(** What [readFromUserInput] writes to [std::cout] when it reads all the
    rows of a matrix of dimension [n]. *)
Definition prompts (n : N) : list string :=
  ["Enter matrix size N: ";
   String.append "Enter "
     (String.append (UserInput.to_string n)
        (String.append "x"
           (String.append (UserInput.to_string n)
              (String.append " matrix elements row by row:" UserInput.endl))))]
  ++ map (fun i => row_prompt (N.of_nat i)) (seq 0 (N.to_nat n)).

(** A line from which fewer than [n] values can be extracted. *)
Definition short_row (n : N) (line : list token) : Prop := count_values line < n.

(** A line from which more than [n] values can be extracted. *)
Definition long_row (n : N) (line : list token) : Prop := n < count_values line.

(** [rows] is a square matrix of dimension [n], row by row. *)
Definition square (n : N) (rows : list (list long_double)) : Prop :=
  length rows = N.to_nat n /\ Forall (fun r => length r = N.to_nat n) rows.

(** A store with one matrix, the 2x2 identity, at address 1. *)
Definition identity22 : list long_double := map lit [1; 0; 0; 1]%Z.

Definition store_identity : store :=
  Store {[ 1%positive := Mk (Some 1%positive) 2 ]} {[ 1%positive := identity22 ]}.

End MoreSpec.

(** * Properties *)

(** ** Running the engine *)

Example det_scenario_3 :
  fst <$> Engine.calculateDeterminant 3 (map lit [2; 0; 0; 0; 3; 0; 0; 0; 4]%Z)
  = Some (lit 24).
Proof. vm_compute. reflexivity. Qed.

(** ** Loop rules *)

Section ForLoop.

Context {S : Type}.
Implicit Types (body : N -> S -> option S) (P : N -> S -> Prop).

Lemma for_loop_total body P count i s :
  P i s ->
  (forall j t, i <= j < i + N.of_nat count -> P j t ->
     exists t', body j t = Some t' /\ P (N.succ j) t') ->
  exists s', for_loop count i body s = Some s' /\ P (i + N.of_nat count) s'.
Proof.
  revert i s. induction count as [|c IH]; intros i s Hs Hbody; simpl.
  - exists s. split; [reflexivity|]. now replace (i + N.of_nat 0) with i by lia.
  - destruct (Hbody i s) as (t & -> & Ht); [lia|assumption|].
    destruct (IH (N.succ i) t Ht) as (s' & -> & Hs').
    + intros j u Hj. apply Hbody. lia.
    + exists s'. split; [reflexivity|].
      now replace (i + N.of_nat (Datatypes.S c)) with (N.succ i + N.of_nat c) by lia.
Qed.

Lemma for_loop_sound body P count i s s' :
  for_loop count i body s = Some s' ->
  P i s ->
  (forall j t t', i <= j < i + N.of_nat count -> P j t ->
     body j t = Some t' -> P (N.succ j) t') ->
  P (i + N.of_nat count) s'.
Proof.
  revert i s. induction count as [|c IH]; intros i s Hrun Hs Hbody; simpl in Hrun.
  - injection Hrun as <-. now replace (i + N.of_nat 0) with i by lia.
  - destruct (body i s) as [t|] eqn:Hb; [|discriminate].
    replace (i + N.of_nat (Datatypes.S c)) with (N.succ i + N.of_nat c) by lia.
    apply (IH (N.succ i) t Hrun).
    + apply (Hbody i s t); [lia|assumption..].
    + intros j u u' Hj. apply Hbody. lia.
Qed.

Lemma for_range_total body P lo hi s :
  lo <= hi -> P lo s ->
  (forall j t, lo <= j < hi -> P j t ->
     exists t', body j t = Some t' /\ P (N.succ j) t') ->
  exists s', for_range lo hi body s = Some s' /\ P hi s'.
Proof.
  intros Hle Hs Hbody. unfold for_range.
  destruct (for_loop_total body P (N.to_nat (hi - lo)) lo s Hs) as (s' & Hrun & Hs').
  - intros j t Hj. apply Hbody. lia.
  - exists s'. split; [assumption|].
    assert (E : hi = lo + N.of_nat (N.to_nat (hi - lo))) by lia.
    rewrite E. exact Hs'.
Qed.

Lemma for_range_sound body P lo hi s s' :
  lo <= hi -> for_range lo hi body s = Some s' -> P lo s ->
  (forall j t t', lo <= j < hi -> P j t -> body j t = Some t' -> P (N.succ j) t') ->
  P hi s'.
Proof.
  intros Hle Hrun Hs Hbody. unfold for_range in Hrun.
  assert (E : hi = lo + N.of_nat (N.to_nat (hi - lo))) by lia.
  rewrite E. apply (for_loop_sound body P _ lo s s' Hrun Hs).
  intros j t t' Hj. apply Hbody. lia.
Qed.

Lemma for_range_empty body lo hi s : hi <= lo -> for_range lo hi body s = Some s.
Proof.
  intros H. unfold for_range. now replace (N.to_nat (hi - lo)) with 0%nat by lia.
Qed.

Lemma for_loop_ext body body' count i s :
  (forall j t, i <= j < i + N.of_nat count -> body j t = body' j t) ->
  for_loop count i body s = for_loop count i body' s.
Proof.
  revert i s. induction count as [|c IH]; intros i s H; simpl; [reflexivity|].
  rewrite <- (H i s) by lia. destruct (body i s); [|reflexivity].
  apply IH. intros j t Hj. apply H. lia.
Qed.

End ForLoop.

(** ** Well-formed buffers *)

Module BufferFacts.

Import Buffer.

Lemma size_mul_fits n : fits n -> size_mul n n = n * n.
Proof. intros H. unfold size_mul. now apply N.mod_small. Qed.

Lemma index_in_range n i j :
  fits n -> i < n -> j < n -> index n i j = i * n + j /\ i * n + j < n * n.
Proof.
  intros Hf Hi Hj. unfold fits in Hf.
  assert (i * n + j < n * n).
  { pose proof (N.mul_le_mono_r (i + 1) n n ltac:(lia)). lia. }
  assert (i * n <= i * n + j) by lia.
  unfold index, size_add, size_mul.
  rewrite (N.mod_small (i * n)) by lia.
  rewrite N.mod_small by lia. split; [reflexivity|assumption].
Qed.

Lemma index_inj n i j i' j' :
  fits n -> i < n -> j < n -> i' < n -> j' < n ->
  index n i j = index n i' j' -> i = i' /\ j = j'.
Proof.
  intros Hf Hi Hj Hi' Hj' H.
  destruct (index_in_range n i j Hf Hi Hj) as [E _].
  destruct (index_in_range n i' j' Hf Hi' Hj') as [E' _].
  rewrite E, E' in H.
  destruct (N.lt_trichotomy i i') as [L|[L|L]].
  - pose proof (N.mul_le_mono_r (i + 1) i' n ltac:(lia)). lia.
  - subst i'. lia.
  - pose proof (N.mul_le_mono_r (i' + 1) i n ltac:(lia)). lia.
Qed.

Lemma get_total n buf i j :
  wf_buf n buf -> i < n -> j < n -> exists x, get n buf i j = Some x.
Proof.
  intros [Hf Hl] Hi Hj. destruct (index_in_range n i j Hf Hi Hj) as [E Hlt].
  unfold get. apply lookup_lt_is_Some_2. rewrite E. lia.
Qed.

Lemma set_length n buf i j v buf' :
  set n buf i j v = Some buf' -> length buf' = length buf.
Proof.
  unfold set. case_decide; [|discriminate]. intros [= <-]. apply length_insert.
Qed.

Lemma set_total n buf i j v :
  wf_buf n buf -> i < n -> j < n ->
  exists buf', set n buf i j v = Some buf' /\ wf_buf n buf'.
Proof.
  intros [Hf Hl] Hi Hj. destruct (index_in_range n i j Hf Hi Hj) as [E Hlt].
  unfold set. rewrite decide_True by (rewrite E; lia).
  eexists. split; [reflexivity|]. split; [assumption|]. now rewrite length_insert.
Qed.

Lemma swap_elems_length n i j k buf buf' :
  swap_elems n i j k buf = Some buf' -> length buf' = length buf.
Proof.
  unfold swap_elems. intros H.
  destruct (get n buf i k); [|discriminate]. destruct (get n buf j k); [|discriminate].
  simpl in H. destruct (set n buf i k l0) as [b1|] eqn:E1; [|discriminate]. simpl in H.
  apply set_length in E1, H. congruence.
Qed.

Lemma swap_elems_total n i j k buf :
  wf_buf n buf -> i < n -> j < n -> k < n ->
  exists buf', swap_elems n i j k buf = Some buf' /\ wf_buf n buf'.
Proof.
  intros Hw Hi Hj Hk. unfold swap_elems.
  destruct (get_total n buf i k Hw Hi Hk) as [a ->].
  destruct (get_total n buf j k Hw Hj Hk) as [b ->]. simpl.
  destruct (set_total n buf i k b Hw Hi Hk) as (b1 & -> & Hw1). simpl.
  apply set_total; assumption.
Qed.

Lemma swapRows_length n buf i j buf' :
  swapRows n buf i j = Some buf' -> length buf' = length buf.
Proof.
  unfold swapRows. destruct (N.eqb i j); [now intros [= <-]|]. intros H.
  apply (for_range_sound (swap_elems n i j) (fun _ b => length b = length buf)
           0 n buf buf'); [lia|assumption|reflexivity|].
  intros k t t' _ Ht Hb. apply swap_elems_length in Hb. congruence.
Qed.

Lemma swapRows_total n buf i j :
  wf_buf n buf -> i < n -> j < n ->
  exists buf', swapRows n buf i j = Some buf' /\ wf_buf n buf'.
Proof.
  intros Hw Hi Hj. unfold swapRows. destruct (N.eqb i j).
  - exists buf. split; [reflexivity|assumption].
  - apply (for_range_total (swap_elems n i j) (fun _ b => wf_buf n b));
      [lia|assumption|].
    intros k t Hk Ht. apply swap_elems_total; [assumption..|lia].
Qed.

End BufferFacts.

(** ** The engine is defined on every well-formed buffer *)

Module EngineFacts.

Import Buffer BufferFacts Engine EngineSpec.

Lemma init_pivot_length n : length (init_pivot n) = N.to_nat n.
Proof. unfold init_pivot. now rewrite length_map, length_seq. Qed.

Lemma find_pivot_body_range n k buf i acc acc' :
  find_pivot_body n k buf i acc = Some acc' ->
  snd acc' = i \/ acc' = acc.
Proof.
  unfold find_pivot_body. destruct (get n buf i k); [simpl|discriminate].
  destruct (LD.gt _ _); intros [= <-]; auto.
Qed.

Lemma find_pivot_total n k buf :
  wf_buf n buf -> k < n ->
  exists mv p, find_pivot n k buf = Some (mv, p) /\ k <= p < n.
Proof.
  intros Hw Hk. unfold find_pivot.
  destruct (get_total n buf k k Hw Hk Hk) as [x ->]. simpl.
  destruct (for_range_total (find_pivot_body n k buf)
              (fun i acc => k <= snd acc < i) (k + 1) n (LD.fabsl x, k))
    as ([mv p] & Hrun & Hp); [lia|simpl; lia| |].
  - intros i acc Hi Hacc. unfold find_pivot_body.
    destruct (get_total n buf i k Hw) as [y ->]; [lia..|]. simpl.
    destruct (LD.gt _ _); eexists; (split; [reflexivity|simpl; lia]).
  - exists mv, p. split; [assumption|]. simpl in Hp. lia.
Qed.

Lemma swap_pivot_total k p piv n :
  length piv = N.to_nat n -> k < n -> p < n ->
  exists piv', swap_pivot k p piv = Some piv' /\ length piv' = N.to_nat n.
Proof.
  intros Hl Hk Hp. unfold swap_pivot.
  destruct (lookup_lt_is_Some_2 piv (N.to_nat k)) as [a ->]; [lia|].
  destruct (lookup_lt_is_Some_2 piv (N.to_nat p)) as [b ->]; [lia|]. simpl.
  eexists. split; [reflexivity|]. now rewrite !length_insert.
Qed.

Lemma elim_col_total n k i factor j buf :
  wf_buf n buf -> k < n -> i < n -> j < n ->
  exists buf', elim_col n k i factor j buf = Some buf' /\ wf_buf n buf'.
Proof.
  intros Hw Hk Hi Hj. unfold elim_col.
  destruct (get_total n buf i j Hw Hi Hj) as [x ->].
  destruct (get_total n buf k j Hw Hk Hj) as [y ->]. simpl.
  now apply set_total.
Qed.

Lemma elim_row_total n k pivot_val i buf :
  wf_buf n buf -> k < n -> i < n ->
  exists buf', elim_row n k pivot_val i buf = Some buf' /\ wf_buf n buf'.
Proof.
  intros Hw Hk Hi. unfold elim_row.
  destruct (get_total n buf i k Hw Hi Hk) as [x ->]. simpl.
  destruct (set_total n buf i k (LD.div x pivot_val) Hw Hi Hk) as (b1 & -> & Hw1).
  simpl.
  apply (for_range_total (elim_col n k i (LD.div x pivot_val))
           (fun _ b => wf_buf n b)); [lia|assumption|].
  intros j t Hj Ht. apply elim_col_total; [assumption..|lia].
Qed.

Lemma pivot_step_total n k st :
  wf_state n st -> k < n ->
  exists st', pivot_step n k st = Some st' /\ wf_state n st'.
Proof.
  intros [Hw Hp] Hk. unfold pivot_step.
  destruct (find_pivot_total n k (mat st) Hw Hk) as (mv & p & -> & Hr). simpl.
  destruct (N.eqb p k).
  - exists st. split; [reflexivity|]. split; assumption.
  - destruct (swapRows_total n (mat st) k p Hw) as (b & -> & Hb); [lia..|].
    destruct (swap_pivot_total k p (pivot st) n Hp) as (pv & -> & Hpv); [lia..|].
    simpl. eexists. split; [reflexivity|]. split; assumption.
Qed.

Lemma lu_step_total n k st :
  wf_state n st -> k < n ->
  exists o, lu_step n k st = Some o /\ wf_state n (outcome_state o).
Proof.
  intros Hst Hk. unfold lu_step.
  destruct (pivot_step_total n k st Hst Hk) as (st1 & -> & [Hw1 Hp1]). simpl.
  destruct (get_total n (mat st1) k k Hw1 Hk Hk) as [pv ->]. simpl.
  destruct (LD.lt _ _).
  - eexists. split; [reflexivity|]. split; assumption.
  - destruct (for_range_total (elim_row n k pv) (fun _ b => wf_buf n b)
                (k + 1) n (mat st1)) as (b & -> & Hb); [lia|assumption| |].
    + intros i t Hi Ht. apply elim_row_total; [assumption..|lia].
    + simpl. eexists. split; [reflexivity|]. split; assumption.
Qed.

Lemma lu_loop_total count n k st :
  wf_state n st -> k + N.of_nat count <= n ->
  exists o, lu_loop count n k st = Some o /\ wf_state n (outcome_state o).
Proof.
  revert k st. induction count as [|c IH]; intros k st Hst Hk; simpl.
  - exists (Continue st). split; [reflexivity|assumption].
  - destruct (lu_step_total n k st Hst) as ([r st'|st'] & -> & Hst'); [lia| |].
    + eexists. split; [reflexivity|assumption].
    + apply IH; [assumption|lia].
Qed.

(** [calculateDeterminant] returns on every well-formed buffer, and leaves
    a well-formed buffer behind. *)
Lemma calculateDeterminant_total n buf :
  wf_buf n buf ->
  exists r buf', calculateDeterminant n buf = Some (r, buf') /\ wf_buf n buf'.
Proof.
  intros Hw. unfold calculateDeterminant.
  destruct (N.eqb_spec n 0) as [->|H0]; [now exists LD.one, buf|].
  destruct (N.eqb_spec n 1) as [->|H1].
  - destruct (get_total 1 buf 0 0 Hw) as [x ->]; [lia..|]. now exists x, buf.
  - destruct (lu_loop_total (N.to_nat n) n 0 (LuState buf (init_pivot n) LD.one 1%Z))
      as ([r st|st] & -> & [Hw' _]); [|lia| |].
    + split; [assumption|apply init_pivot_length].
    + now exists r, (mat st).
    + now eexists _, (mat st).
Qed.

End EngineFacts.

(** ** The order on magnitudes *)

Module LDFacts.

Import LDOrder.

Lemma abs_lt_rank x y :
  LD.lt (LD.fabsl x) (LD.fabsl y) = true <->
  match rank x, rank y with
  | Some rx, Some ry => lex3 rx ry
  | _, _ => False
  end.
Proof.
  unfold LD.lt, LD.fabsl.
  destruct x as [sx|sx| |sx mx ex], y as [sy|sy| |sy my ey];
    unfold SFltb; simpl;
    try (split; [discriminate|lia]); try (split; [lia|reflexivity]); try tauto.
  rewrite Pos.compare_cont_spec. simpl.
  destruct (Z.compare_spec ex ey) as [E|L|G]; simpl.
  - destruct (Pos.compare_spec mx my); simpl; split;
      try discriminate; try reflexivity; lia.
  - split; [lia|reflexivity].
  - split; [discriminate|lia].
Qed.

Lemma abs_gt_rank x y :
  LD.gt (LD.fabsl x) (LD.fabsl y) = true <->
  match rank y, rank x with
  | Some ry, Some rx => lex3 ry rx
  | _, _ => False
  end.
Proof. apply (abs_lt_rank y x). Qed.

Lemma rank_nan x : rank x = None <-> LD.is_nan x = true.
Proof. destruct x; simpl; split; congruence. Qed.

Lemma fabsl_idem x : LD.fabsl (LD.fabsl x) = LD.fabsl x.
Proof. now destruct x. Qed.

Ltac by_rank :=
  repeat match goal with
  | H : LD.gt (LD.fabsl _) (LD.fabsl _) = true |- _ => apply abs_gt_rank in H
  | H : LD.gt (LD.fabsl ?a) (LD.fabsl ?b) = false |- _ =>
      apply not_true_iff_false in H; rewrite abs_gt_rank in H
  | H : LD.is_nan _ = false |- _ =>
      apply not_true_iff_false in H; rewrite <- rank_nan in H
  | |- LD.gt (LD.fabsl _) (LD.fabsl _) = true => apply abs_gt_rank
  | |- LD.gt (LD.fabsl _) (LD.fabsl _) = false =>
      apply not_true_iff_false; rewrite abs_gt_rank
  end;
  repeat match goal with
  | H : context [rank ?x] |- _ => destruct (rank x) as [[[? ?] ?]|]
  | |- context [rank ?x] => destruct (rank x) as [[[? ?] ?]|]
  end;
  unfold lex3 in *; try tauto; try lia.

(** [>] on magnitudes is irreflexive, asymmetric and transitive, and a
    magnitude above [b] is above everything that is not above [b]. *)
Lemma gt_irrefl a : LD.gt (LD.fabsl a) (LD.fabsl a) = false.
Proof. by_rank. Qed.

Lemma gt_asym a b :
  LD.gt (LD.fabsl a) (LD.fabsl b) = true -> LD.gt (LD.fabsl b) (LD.fabsl a) = false.
Proof. intros H. by_rank. Qed.

Lemma gt_trans a b c :
  LD.gt (LD.fabsl a) (LD.fabsl b) = true -> LD.gt (LD.fabsl b) (LD.fabsl c) = true ->
  LD.gt (LD.fabsl a) (LD.fabsl c) = true.
Proof. intros H1 H2. by_rank. Qed.

Lemma gt_above a b c :
  LD.gt (LD.fabsl a) (LD.fabsl b) = true -> LD.gt (LD.fabsl c) (LD.fabsl b) = false ->
  LD.is_nan c = false -> LD.gt (LD.fabsl a) (LD.fabsl c) = true.
Proof. intros H1 H2 H3. by_rank. Qed.

Lemma gt_not_above a b c :
  LD.gt (LD.fabsl a) (LD.fabsl b) = true -> LD.gt (LD.fabsl c) (LD.fabsl b) = false ->
  LD.gt (LD.fabsl c) (LD.fabsl a) = false.
Proof. intros H1 H2. by_rank. Qed.






End LDFacts.

(** ** Reading after writing, and what [swapRows] leaves *)

Module SwapFacts.

Import Buffer BufferFacts EngineSpec.

Lemma get_set n buf i j v buf' r c :
  wf_buf n buf -> i < n -> j < n -> r < n -> c < n ->
  set n buf i j v = Some buf' ->
  get n buf' r c = if decide (r = i /\ c = j) then Some v else get n buf r c.
Proof.
  intros [Hf Hl] Hi Hj Hr Hc. unfold set, get.
  case_decide as Hlt; [|discriminate]. intros [= <-].
  case_decide as E.
  - destruct E as [-> ->]. now apply list_lookup_insert_eq.
  - apply list_lookup_insert_ne. intros E'. apply E.
    apply N2Nat.inj in E'.
    destruct (index_inj n i j r c) as [-> ->]; auto.
Qed.

Lemma swap_elems_spec n i j k buf :
  wf_buf n buf -> i < n -> j < n -> k < n -> i <> j ->
  exists buf', swap_elems n i j k buf = Some buf' /\ wf_buf n buf' /\
    forall r c, r < n -> c < n ->
      get n buf' r c = get n buf (if N.eqb c k then swapped i j r else r) c.
Proof.
  intros Hw Hi Hj Hk Hij. unfold swap_elems.
  destruct (get_total n buf i k Hw Hi Hk) as [a Ha].
  destruct (get_total n buf j k Hw Hj Hk) as [b Hb]. rewrite Ha, Hb. simpl.
  destruct (set_total n buf i k b Hw Hi Hk) as (b1 & E1 & Hw1). rewrite E1. simpl.
  destruct (set_total n b1 j k a Hw1 Hj Hk) as (b2 & E2 & Hw2). rewrite E2.
  exists b2. split; [reflexivity|]. split; [assumption|]. intros r c Hr Hc.
  rewrite (get_set n b1 j k a b2 r c Hw1 Hj Hk Hr Hc E2).
  rewrite (get_set n buf i k b b1 r c Hw Hi Hk Hr Hc E1).
  unfold swapped.
  destruct (N.eqb_spec c k) as [->|Hck].
  - destruct (N.eqb_spec r i) as [->|Hri].
    + rewrite decide_False by tauto. rewrite decide_True by tauto. now rewrite Hb.
    + destruct (N.eqb_spec r j) as [->|Hrj].
      * rewrite decide_True by tauto. now rewrite Ha.
      * rewrite !decide_False by tauto. reflexivity.
  - rewrite !decide_False by tauto. reflexivity.
Qed.

(** [swapRows] exchanges rows [i] and [j] and leaves the others. *)
Lemma swapRows_spec n buf i j :
  wf_buf n buf -> i < n -> j < n ->
  exists buf', swapRows n buf i j = Some buf' /\ wf_buf n buf' /\
    forall r c, r < n -> c < n -> get n buf' r c = get n buf (swapped i j r) c.
Proof.
  intros Hw Hi Hj. unfold swapRows. destruct (N.eqb_spec i j) as [->|Hij].
  - exists buf. split; [reflexivity|]. split; [assumption|].
    intros r c _ _. unfold swapped. now destruct (N.eqb_spec r j) as [->|].
  - destruct (for_range_total (swap_elems n i j)
      (fun k b => wf_buf n b /\ forall r c, r < n -> c < n ->
         get n b r c = get n buf (if N.ltb c k then swapped i j r else r) c)
      0 n buf) as (buf' & Hrun & Hw' & Hget); [lia| | |].
    + split; [assumption|]. intros r c _ _. now destruct c.
    + intros k t Hk [Hwt Ht].
      destruct (swap_elems_spec n i j k t Hwt Hi Hj) as (t' & E & Hwt' & Hget);
        [lia|assumption|].
      exists t'. split; [assumption|]. split; [assumption|]. intros r c Hr Hc.
      rewrite (Hget r c Hr Hc).
      assert (Hs : swapped i j r < n).
      { unfold swapped. destruct (N.eqb r i), (N.eqb r j); assumption. }
      destruct (N.eqb_spec c k) as [->|Hck].
      * rewrite (Ht _ k Hs Hc).
        replace (N.ltb k k) with false by (symmetry; apply N.ltb_irrefl).
        replace (N.ltb k (N.succ k)) with true by (symmetry; apply N.ltb_lt; lia).
        reflexivity.
      * rewrite (Ht r c Hr Hc).
        destruct (N.ltb_spec c k), (N.ltb_spec c (N.succ k)); try reflexivity; lia.
    + exists buf'. split; [assumption|]. split; [assumption|]. intros r c Hr Hc.
      rewrite (Hget r c Hr Hc).
      now replace (N.ltb c n) with true by (symmetry; apply N.ltb_lt; lia).
Qed.

End SwapFacts.

(** ** The pivot search *)

Module PivotFacts.

Import Buffer BufferFacts Engine EngineSpec EngineFacts LDOrder LDFacts.

Lemma find_pivot_spec n k buf :
  wf_buf n buf -> k < n ->
  exists mv p, find_pivot n k buf = Some (mv, p) /\ scanned n k buf n (mv, p).
Proof.
  intros Hw Hk. unfold find_pivot.
  destruct (get_total n buf k k Hw Hk Hk) as [x0 Hx0]. rewrite Hx0. simpl.
  destruct (for_range_total (find_pivot_body n k buf) (scanned n k buf)
              (k + 1) n (LD.fabsl x0, k)) as ([mv p] & Hrun & Hp); [lia| | |].
  - split; [lia|]. exists x0. split; [assumption|]. split; [reflexivity|]. split.
    + intros r y Hr Hy. assert (r = k) as -> by lia.
      rewrite Hx0 in Hy. injection Hy as <-. apply gt_irrefl.
    + intros r y Hr. lia.
  - intros i [mv p] Hi (Hp & x & Hx & -> & Hmax & Hfirst). unfold find_pivot_body.
    destruct (get_total n buf i k Hw) as [y Hy]; [lia..|]. rewrite Hy. simpl.
    destruct (LD.gt (LD.fabsl y) (LD.fabsl x)) eqn:Hgt.
    + exists (LD.fabsl y, i). split; [reflexivity|]. split; [lia|].
      exists y. split; [assumption|]. split; [reflexivity|]. split.
      * intros r z Hr Hz. destruct (N.eq_dec r i) as [->|Hne].
        -- rewrite Hy in Hz. injection Hz as <-. apply gt_irrefl.
        -- apply (gt_not_above y x z Hgt). apply (Hmax r); [lia|assumption].
      * intros r z Hr Hz. destruct (LD.is_nan z) eqn:Hnan; [now right|left].
        apply (gt_above y x z Hgt); [|assumption].
        apply (Hmax r); [lia|assumption].
    + exists (LD.fabsl x, p). split; [reflexivity|]. split; [lia|].
      exists x. split; [assumption|]. split; [reflexivity|]. split.
      * intros r z Hr Hz. destruct (N.eq_dec r i) as [->|Hne].
        -- rewrite Hy in Hz. now injection Hz as <-.
        -- apply (Hmax r); [lia|assumption].
      * assumption.
  - exists mv, p. split; assumption.
Qed.

End PivotFacts.

(** ** Properties of the engine *)

Module EngineClaims.

Import Buffer BufferFacts Engine EngineSpec EngineFacts LDOrder LDFacts SwapFacts
  PivotFacts Log Samples.

Lemma lu_loop_app a b n k st :
  lu_loop (a + b) n k st =
  match lu_loop a n k st with
  | Some (Continue st') => lu_loop b n (k + N.of_nat a) st'
  | r => r
  end.
Proof.
  revert k st. induction a as [|a IH]; intros k st; simpl.
  - now rewrite N.add_0_r.
  - destruct (lu_step n k st) as [[r st'|st']|]; [reflexivity| |reflexivity].
    rewrite IH. assert (E : N.succ k + N.of_nat a = k + N.of_nat (S a)) by lia.
    now rewrite E.
Qed.

Lemma eqb_rank x y :
  LD.eqb (LD.fabsl x) (LD.fabsl y) = true -> rank x = rank y /\ LD.is_nan x = false.
Proof.
  unfold LD.eqb, LD.fabsl, SFeqb.
  destruct x as [sx|sx| |sx mx ex], y as [sy|sy| |sy my ey]; simpl;
    try discriminate; try (intros _; split; reflexivity).
  rewrite Pos.compare_cont_spec. simpl.
  destruct (Z.compare_spec ex ey) as [->| |]; try discriminate.
  destruct (Pos.compare_spec mx my) as [->| |]; try discriminate.
  intros _. split; reflexivity.
Qed.

Lemma gt_not_eqb x y :
  LD.gt (LD.fabsl x) (LD.fabsl y) = true \/ LD.is_nan y = true ->
  LD.eqb (LD.fabsl y) (LD.fabsl x) = false.
Proof.
  intros H. apply not_true_iff_false. intros E. apply eqb_rank in E as [E N].
  destruct H as [H|H]; [|congruence].
  apply abs_gt_rank in H. rewrite E in H.
  destruct (rank x) as [[[? ?] ?]|]; unfold lex3 in H; [lia|assumption].
Qed.

(** When the scan leaves row [k], the magnitude it ends with is strictly
    above that of row [k]. *)
Lemma find_pivot_above_first n k buf mv p y :
  wf_buf n buf -> k < n -> find_pivot n k buf = Some (mv, p) -> p <> k ->
  get n buf k k = Some y ->
  exists x, mv = LD.fabsl x /\ LD.gt (LD.fabsl x) (LD.fabsl y) = true.
Proof.
  intros Hw Hk Hfind Hp Hy. unfold find_pivot in Hfind. rewrite Hy in Hfind.
  simpl in Hfind.
  pose (P := fun (_ : N) (acc : long_double * N) =>
               (snd acc = k /\ fst acc = LD.fabsl y) \/
               exists x, fst acc = LD.fabsl x /\
                 LD.gt (LD.fabsl x) (LD.fabsl y) = true).
  assert (H : P n (mv, p)).
  { apply (for_range_sound (find_pivot_body n k buf) P (k + 1) n (LD.fabsl y, k));
      [lia|assumption|left; split; reflexivity|].
    intros j [m q] t' Hj HP. unfold find_pivot_body.
    destruct (get n buf j k) as [z|]; [simpl|discriminate].
    destruct (LD.gt (LD.fabsl z) m) eqn:Hgt; intros [= <-]; [|exact HP].
    right. exists z. split; [reflexivity|].
    destruct HP as [[_ E]|(x & E & Hx)]; simpl in E; subst m; [assumption|].
    exact (gt_trans z x y Hgt Hx). }
  destruct H as [[E _]|(x & E & Hx)]; [simpl in E; contradiction|].
  exists x. split; assumption.
Qed.

Lemma gt_nan_l x y : LD.is_nan x = true -> LD.gt (LD.fabsl x) (LD.fabsl y) = false.
Proof. destruct x; try discriminate. intros _. now destruct y. Qed.

Lemma first_maximum_unique n k buf p p' :
  wf_buf n buf -> first_maximum n k buf p -> first_maximum n k buf p' -> p' = p.
Proof.
  assert (Hlt : forall a b, wf_buf n buf -> first_maximum n k buf a ->
            first_maximum n k buf b -> a < b -> False).
  { intros a b Hw (Ha & x & Hx & Hmax & Hfirst) (Hb & x' & Hx' & Hmax' & Hfirst') Hab.
    destruct (Hfirst' a x ltac:(lia) Hx) as [Hgt|[Hka Hnan]].
    - rewrite (Hmax b x' ltac:(lia) Hx') in Hgt. discriminate.
    - destruct (get_total n buf k k Hw) as [y Hy]; [lia..|].
      destruct (Hfirst k y ltac:(lia) Hy) as [Hgt|[Hkk _]]; [|lia].
      rewrite (gt_nan_l x y Hnan) in Hgt. discriminate. }
  intros Hw H H'. destruct (N.lt_trichotomy p p') as [L|[E|G]]; [|now symmetry|].
  - now destruct (Hlt p p' Hw H H' L).
  - now destruct (Hlt p' p Hw H' H G).
Qed.

Lemma rank_eqb x y :
  rank x = rank y -> LD.is_nan x = false -> LD.eqb (LD.fabsl x) (LD.fabsl y) = true.
Proof.
  unfold LD.eqb, LD.fabsl, SFeqb.
  destruct x as [sx|sx| |sx mx ex], y as [sy|sy| |sy my ey]; simpl;
    try discriminate; try reflexivity.
  intros [= -> ->] _. rewrite Z.compare_refl, Pos.compare_cont_spec, Pos.compare_refl.
  reflexivity.
Qed.

(** Magnitudes that are not NaN are totally ordered. *)
Lemma not_above_is_below x y :
  LD.is_nan x = false -> LD.is_nan y = false ->
  LD.gt (LD.fabsl y) (LD.fabsl x) = false ->
  LD.gt (LD.fabsl x) (LD.fabsl y) = true \/ LD.eqb (LD.fabsl y) (LD.fabsl x) = true.
Proof.
  intros Hx Hy H.
  destruct (LD.gt (LD.fabsl x) (LD.fabsl y)) eqn:Hgt; [now left|right].
  apply rank_eqb; [|assumption].
  apply not_true_iff_false in H, Hgt. rewrite abs_gt_rank in H, Hgt.
  apply not_true_iff_false in Hx, Hy. rewrite <- rank_nan in Hx, Hy.
  destruct (rank x) as [[[a1 a2] a3]|], (rank y) as [[[b1 b2] b3]|]; try congruence.
  unfold lex3 in *. f_equal. assert (a1 = b1 /\ a2 = b2 /\ a3 = b3) as (-> & -> & ->) by lia.
  reflexivity.
Qed.

(** The row that [find_pivot] returns is the first maximum of the column. *)
Lemma find_pivot_first_maximum n k buf :
  wf_buf n buf -> k < n ->
  exists p x,
    find_pivot n k buf = Some (LD.fabsl x, p) /\ get n buf p k = Some x /\
    first_maximum n k buf p.
Proof.
  intros Hw Hk.
  destruct (find_pivot_spec n k buf Hw Hk)
    as (mv & p & Hfind & Hr & x & Hx & -> & Hmax & Hfirst).
  exists p, x. split; [assumption|]. split; [assumption|].
  split; [lia|]. exists x. split; [assumption|]. split; [exact Hmax|].
  intros r y Hry Hy. destruct (Hfirst r y Hry Hy) as [H|Hnan]; [now left|].
  destruct (N.eq_dec r k) as [->|Hne]; [|right; split; [lia|assumption]].
  left. destruct (find_pivot_above_first n k buf (LD.fabsl x) p y Hw Hk Hfind)
    as (x' & E & Hgt); [lia|assumption|].
  now rewrite E.
Qed.

(** C3: at every column [k] that the main loop of [calculateDeterminant]
    reaches, the pivot search selects the first row among rows [k .. n-1]
    whose entry in column [k] has the greatest magnitude: no row of the
    range is strictly above the selected one, every earlier row of the range
    is strictly below it and so does not tie with it (a NaN compares with
    nothing: one below row [k] is passed over, one in row [k] is kept), and
    no other row has these properties. When the column holds no NaN, the
    selected entry is greater than or equal to every entry of the range and
    strictly greater than every earlier one. This row is the one that the
    iteration brings to the diagonal, whose entry it tests against the
    threshold and multiplies into [det], and the value that
    [calculateDeterminant] returns is the one of the run that goes on from
    there. *)
Theorem pivot_row_is_first_maximum n buf k st :
  wf_buf n buf -> 2 <= n -> k < n ->
  lu_loop (N.to_nat k) n 0 (init_state n buf) = Some (Continue st) ->
  exists p x st1,
    find_pivot n k (mat st) = Some (LD.fabsl x, p) /\
    get n (mat st) p k = Some x /\
    first_maximum n k (mat st) p /\
    (forall p', first_maximum n k (mat st) p' -> p' = p) /\
    (forall r y, k <= r < p -> get n (mat st) r k = Some y ->
       LD.eqb (LD.fabsl y) (LD.fabsl x) = false) /\
    ((forall r y, k <= r < n -> get n (mat st) r k = Some y -> LD.is_nan y = false) ->
     (forall r y, k <= r < n -> get n (mat st) r k = Some y ->
        LD.gt (LD.fabsl x) (LD.fabsl y) = true \/
        LD.eqb (LD.fabsl y) (LD.fabsl x) = true) /\
     (forall r y, k <= r < p -> get n (mat st) r k = Some y ->
        LD.gt (LD.fabsl x) (LD.fabsl y) = true)) /\
    pivot_step n k st = Some st1 /\
    get n (mat st1) k k = Some x /\
    ((p = k /\ st1 = st) \/
     (p <> k /\ swapRows n (mat st) k p = Some (mat st1) /\
      sign st1 = (- sign st)%Z)) /\
    lu_step n k st =
      (if LD.lt (LD.fabsl x) LD.eps then Some (Return LD.zero st1)
       else
         b ← for_range (k + 1) n (elim_row n k x) (mat st1);
         Some (Continue (LuState b (pivot st1) (LD.mul (det st1) x) (sign st1)))) /\
    calculateDeterminant n buf =
      match lu_step n k st with
      | Some (Continue st') =>
          result_of <$> lu_loop (N.to_nat n - S (N.to_nat k)) n (N.succ k) st'
      | Some (Return r s) => Some (r, mat s)
      | None => None
      end.
Proof.
  intros Hwb Hn Hk Hrun.
  assert (Hwf : wf_state n st).
  { destruct (lu_loop_total (N.to_nat k) n 0 (init_state n buf))
      as (o & Ho & Hwo); [split; [assumption|apply init_pivot_length]|lia|].
    rewrite Hrun in Ho. now injection Ho as <-. }
  destruct Hwf as [Hw Hp].
  destruct (find_pivot_first_maximum n k (mat st) Hw Hk) as (p & x & Hfind & Hx & Hfm).
  assert (Hfm' := Hfm). destruct Hfm' as (Hr & x' & Hx' & Hmax & Hfirst).
  rewrite Hx in Hx'. injection Hx' as <-.
  assert (Hstep : exists st1, pivot_step n k st = Some st1 /\
            get n (mat st1) k k = Some x /\
            ((p = k /\ st1 = st) \/
             (p <> k /\ swapRows n (mat st) k p = Some (mat st1) /\
              sign st1 = (- sign st)%Z))).
  { unfold pivot_step. rewrite Hfind. simpl.
    destruct (N.eqb_spec p k) as [->|Hne].
    - exists st. split; [reflexivity|]. split; [assumption|]. now left.
    - destruct (swapRows_spec n (mat st) k p Hw) as (b & Hb & Hwb' & Hget); [lia..|].
      destruct (swap_pivot_total k p (pivot st) n Hp) as (pv & Hpv & _); [lia..|].
      rewrite Hb, Hpv. simpl. eexists. split; [reflexivity|]. simpl. split.
      + rewrite (Hget k k Hk Hk). unfold swapped. now rewrite N.eqb_refl.
      + right. repeat split; assumption || reflexivity. }
  destruct Hstep as (st1 & Hpiv & Hkk & Hcase).
  exists p, x, st1.
  split; [assumption|]. split; [assumption|]. split; [assumption|].
  split; [intros p' Hp'; now apply (first_maximum_unique n k (mat st))|].
  split.
  { intros r y Hry Hy. apply gt_not_eqb.
    destruct (Hfirst r y Hry Hy) as [H|[_ H]]; [now left|now right]. }
  split.
  { intros Hnum. split.
    - intros r y Hry Hy. apply not_above_is_below.
      + exact (Hnum p x Hr Hx).
      + exact (Hnum r y Hry Hy).
      + exact (Hmax r y Hry Hy).
    - intros r y Hry Hy. destruct (Hfirst r y Hry Hy) as [H|[_ H]]; [assumption|].
      rewrite (Hnum r y ltac:(lia) Hy) in H. discriminate. }
  split; [assumption|]. split; [assumption|]. split; [assumption|].
  split.
  { unfold lu_step. rewrite Hpiv. simpl. rewrite Hkk. reflexivity. }
  unfold calculateDeterminant.
  destruct (N.eqb_spec n 0); [lia|]. destruct (N.eqb_spec n 1); [lia|].
  replace (N.to_nat n) with (N.to_nat k + S (N.to_nat n - S (N.to_nat k)))%nat at 1
    by lia.
  rewrite lu_loop_app. fold (init_state n buf). rewrite Hrun. simpl.
  rewrite N2Nat.id, N.add_0_l.
  destruct (lu_step n k st) as [[r s|st']|]; try reflexivity.
  destruct (lu_loop (N.to_nat n - S (N.to_nat k)) n (N.succ k) st') as [[]|];
    reflexivity.
Qed.

Lemma pivot_row_is_first_maximum_witness :
  exists st p x,
    lu_loop 1 2 0 (init_state 2 m22) = Some (Continue st) /\
    find_pivot 2 1 (mat st) = Some (LD.fabsl x, p) /\ p = 1 /\
    first_maximum 2 1 (mat st) p.
Proof.
  destruct (lu_loop 1 2 0 (init_state 2 m22)) as [[r s|st]|] eqn:E;
    try (vm_compute in E; discriminate).
  destruct (pivot_row_is_first_maximum 2 m22 1 st) as (p & x & st1 & Hf & _ & Hfm & _).
  - split; reflexivity.
  - discriminate.
  - reflexivity.
  - exact E.
  - exists st, p, x. split; [reflexivity|]. split; [exact Hf|]. split; [|exact Hfm].
    destruct Hfm as [Hr _]. lia.
Defined.

(** C1, as the code has it: in a matrix of dimension at least 2, when the
    main loop reaches a column [j] whose pivot value, read after the pivot
    row is in place, has a magnitude below [1e-15], that iteration returns
    [0.0] and so does [calculateDeterminant], and the matrix is left as the
    pivot step of column [j] left it: no elimination is done for column [j]
    or after. In dimension 1 there is no threshold: the element is returned
    as it is. *)
Theorem below_threshold_returns_zero n buf j st st1 pv :
  2 <= n -> N.of_nat j < n ->
  lu_loop j n 0 (init_state n buf) = Some (Continue st) ->
  pivot_step n (N.of_nat j) st = Some st1 ->
  get n (mat st1) (N.of_nat j) (N.of_nat j) = Some pv ->
  LD.lt (LD.fabsl pv) LD.eps = true ->
  lu_step n (N.of_nat j) st = Some (Return LD.zero st1) /\
  calculateDeterminant n buf = Some (LD.zero, mat st1) /\
  (forall x, calculateDeterminant 1 [x] = Some (x, [x])).
Proof.
  intros Hn Hj Hrun Hpiv Hget Hlt.
  assert (Hstep : lu_step n (N.of_nat j) st = Some (Return LD.zero st1)).
  { unfold lu_step. rewrite Hpiv. simpl. rewrite Hget. simpl. now rewrite Hlt. }
  split; [assumption|]. split; [|reflexivity]. unfold calculateDeterminant.
  destruct (N.eqb_spec n 0); [lia|]. destruct (N.eqb_spec n 1); [lia|].
  replace (N.to_nat n) with (j + S (N.to_nat n - S j))%nat by lia.
  rewrite lu_loop_app. fold (init_state n buf). rewrite Hrun. simpl.
  rewrite N.add_0_l, Hstep. reflexivity.
Qed.

Lemma below_threshold_returns_zero_witness :
  fst <$> calculateDeterminant 2 m22_singular = Some LD.zero.
Proof.
  edestruct (below_threshold_returns_zero 2 m22_singular 1) as (_ & -> & _).
  - discriminate.
  - reflexivity.
  - vm_compute. reflexivity.
  - vm_compute. reflexivity.
  - vm_compute. reflexivity.
  - vm_compute. reflexivity.
  - reflexivity.
Defined.

(** C1, as stated, fails on a 1x1 matrix: its element [2^-60] is below the
    threshold, and it is returned as it is, not as [0.0]. *)
Lemma near_singular_1x1_is_not_zero :
  let x := S754_finite false (2 ^ 63) (-123) in
  LD.lt (LD.fabsl x) LD.eps = true /\
  calculateDeterminant 1 [x] = Some (x, [x]) /\
  LD.eqb x LD.zero = false.
Proof. vm_compute. repeat split. Qed.








End EngineClaims.

(** ** The engine never changes the length of the buffer *)

Module LengthFacts.

Import Buffer BufferFacts Engine EngineSpec.

Lemma for_range_length body lo hi (buf buf' : list long_double) :
  (forall j t t', body j t = Some t' -> length t' = length t) ->
  for_range lo hi body buf = Some buf' -> length buf' = length buf.
Proof.
  intros Hbody. unfold for_range. generalize (N.to_nat (hi - lo)) as c.
  intros c. revert lo buf. induction c as [|c IH]; intros lo buf H; simpl in H.
  - now injection H as <-.
  - destruct (body lo buf) as [t|] eqn:E; [|discriminate].
    rewrite (IH _ _ H). now apply (Hbody lo).
Qed.

Lemma elim_col_length n k i factor j buf buf' :
  elim_col n k i factor j buf = Some buf' -> length buf' = length buf.
Proof.
  unfold elim_col. destruct (get n buf i j); [simpl|discriminate].
  destruct (get n buf k j); [simpl|discriminate]. apply set_length.
Qed.

Lemma elim_row_length n k pv i buf buf' :
  elim_row n k pv i buf = Some buf' -> length buf' = length buf.
Proof.
  unfold elim_row. destruct (get n buf i k) as [x|]; [simpl|discriminate].
  destruct (set n buf i k (LD.div x pv)) as [b1|] eqn:E; [simpl|discriminate].
  intros H. apply for_range_length in H.
  - rewrite H. now apply set_length in E.
  - intros j t t'. apply elim_col_length.
Qed.

Lemma pivot_step_length n k st st' :
  pivot_step n k st = Some st' -> length (mat st') = length (mat st).
Proof.
  unfold pivot_step. destruct (find_pivot n k (mat st)) as [[mv p]|]; [simpl|discriminate].
  destruct (N.eqb p k); [now intros [= <-]|].
  destruct (swapRows n (mat st) k p) as [b|] eqn:E; [simpl|discriminate].
  destruct (swap_pivot k p (pivot st)); [simpl|discriminate].
  intros [= <-]. simpl. now apply swapRows_length in E.
Qed.

Lemma lu_step_length n k st o :
  lu_step n k st = Some o -> length (outcome_mat o) = length (mat st).
Proof.
  unfold lu_step. destruct (pivot_step n k st) as [st1|] eqn:E; [simpl|discriminate].
  apply pivot_step_length in E.
  destruct (get n (mat st1) k k) as [pv|]; [simpl|discriminate].
  destruct (LD.lt _ _); [now intros [= <-]|].
  destruct (for_range _ _ _ _) as [b|] eqn:Hb; [simpl|discriminate].
  intros [= <-]. simpl. apply for_range_length in Hb; [congruence|].
  intros j t t'. apply elim_row_length.
Qed.

Lemma lu_loop_length count n k st o :
  lu_loop count n k st = Some o -> length (outcome_mat o) = length (mat st).
Proof.
  revert k st. induction count as [|c IH]; intros k st H; simpl in H.
  - now injection H as <-.
  - destruct (lu_step n k st) as [[r st1|st1]|] eqn:E; [|  |discriminate].
    + injection H as <-. now apply lu_step_length in E.
    + apply lu_step_length in E. apply IH in H. simpl in E. congruence.
Qed.

Lemma calculateDeterminant_length n buf r buf' :
  calculateDeterminant n buf = Some (r, buf') -> length buf' = length buf.
Proof.
  unfold calculateDeterminant. destruct (N.eqb n 0); [now intros [= _ <-]|].
  destruct (N.eqb n 1).
  - destruct (get n buf 0 0); [simpl|discriminate]. now intros [= _ <-].
  - destruct (lu_loop _ _ _ _) as [o|] eqn:E; [|discriminate].
    apply lu_loop_length in E. simpl in E.
    destruct o; intros [= _ <-]; assumption.
Qed.

End LengthFacts.

(** ** The invariant of the store *)

Module MatrixFacts.

Import Matrix StoreSpec.

Lemma fresh_unused (σ : store) : bufs σ !! fresh (dom (bufs σ)) = None.
Proof. apply not_elem_of_dom. apply is_fresh. Qed.

Lemma owned_allocated σ a m l :
  invariant σ -> objs σ !! a = Some m -> data m = Some l -> is_Some (bufs σ !! l).
Proof.
  intros [Hok _] Ha Hl. specialize (Hok a m Ha). unfold buffer_ok in Hok.
  rewrite Hl in Hok. destruct Hok as (buf & -> & _). eauto.
Qed.

Lemma owned_not_fresh σ a m :
  invariant σ -> objs σ !! a = Some m -> data m <> Some (fresh (dom (bufs σ))).
Proof.
  intros Hinv Ha Hl. destruct (owned_allocated σ a m _ Hinv Ha Hl) as [b Hb].
  rewrite fresh_unused in Hb. discriminate.
Qed.

Lemma buffer_ok_alloc σ m l b :
  bufs σ !! l = None -> buffer_ok σ m ->
  buffer_ok (Store (objs σ) (<[l := b]> (bufs σ))) m.
Proof.
  intros Hl. unfold buffer_ok. destruct (data m) as [l'|]; [|trivial].
  intros (buf & Hb & Hlen). exists buf. split; [|assumption]. simpl.
  rewrite lookup_insert_ne; [assumption|congruence].
Qed.

Lemma buffer_ok_objs σ o o' m :
  buffer_ok (Store o (bufs σ)) m <-> buffer_ok (Store o' (bufs σ)) m.
Proof. reflexivity. Qed.

(** A new object with a buffer that nobody owns. *)
Lemma invariant_new_object σ this m :
  invariant σ -> buffer_ok σ m ->
  (forall l b mb, data m = Some l -> objs σ !! b = Some mb -> b <> this ->
     data mb <> Some l) ->
  invariant (set_obj this m σ).
Proof.
  intros [Hok Huniq] Hm Hfree. split.
  - intros a ma. unfold set_obj. simpl. rewrite lookup_insert.
    case_decide as E; [intros [= <-]; exact Hm|]. apply Hok.
  - intros a b ma mb l. unfold set_obj. simpl. rewrite !lookup_insert.
    case_decide as Ea; case_decide as Eb; try congruence.
    + intros [= <-] Hb Hl Hl'. exfalso. apply (Hfree l b mb Hl Hb); congruence.
    + intros Ha [= <-] Hl Hl'. exfalso. apply (Hfree l a ma Hl' Ha); congruence.
    + apply Huniq.
Qed.

Lemma invariant_alloc σ l b :
  invariant σ -> bufs σ !! l = None ->
  invariant (Store (objs σ) (<[l := b]> (bufs σ))).
Proof.
  intros [Hok Huniq] Hl. split.
  - intros a m Ha. apply buffer_ok_alloc; [assumption|]. now apply (Hok a).
  - exact Huniq.
Qed.


(** The object at [this] is replaced, and buffers are changed, without
    touching what the other objects own. *)
Lemma invariant_replace σ this m' (bufs' : gmap positive (list long_double)) :
  invariant σ ->
  (forall b mb l, objs σ !! b = Some mb -> b <> this -> data mb = Some l ->
     bufs' !! l = bufs σ !! l) ->
  buffer_ok (Store (objs σ) bufs') m' ->
  (forall l b mb, data m' = Some l -> objs σ !! b = Some mb -> b <> this ->
     data mb <> Some l) ->
  invariant (Store (<[this := m']> (objs σ)) bufs').
Proof.
  intros [Hok Huniq] Hsame Hm Hfree. split.
  - intros a ma. simpl. rewrite lookup_insert.
    case_decide as E; [intros [= <-]; exact Hm|]. intros Ha.
    specialize (Hok a ma Ha). unfold buffer_ok in *. simpl.
    destruct (data ma) as [l|] eqn:Hl; [|assumption].
    rewrite (Hsame a ma l Ha); [assumption|congruence|assumption].
  - intros a b ma mb l. simpl. rewrite !lookup_insert.
    case_decide as Ea; case_decide as Eb; try congruence.
    + intros [= <-] Hb Hl Hl'. exfalso. apply (Hfree l b mb Hl Hb); congruence.
    + intros Ha [= <-] Hl Hl'. exfalso. apply (Hfree l a ma Hl' Ha); congruence.
    + apply Huniq.
Qed.

Lemma std_copy_inv src count dst σ σ' :
  std_copy src count dst σ = Some σ' ->
  exists sb db,
    match src with Some l => bufs σ !! l | None => Some [] end = Some sb /\
    bufs σ !! dst = Some db /\
    (N.to_nat count <= length sb)%nat /\ (N.to_nat count <= length db)%nat /\
    σ' = Store (objs σ)
           (<[dst := take (N.to_nat count) sb ++ drop (N.to_nat count) db]> (bufs σ)).
Proof.
  unfold std_copy.
  destruct (match src with Some l => bufs σ !! l | None => Some [] end) as [sb|];
    [simpl|discriminate].
  destruct (bufs σ !! dst) as [db|]; [simpl|discriminate].
  case_decide as H; [|discriminate]. intros [= <-].
  exists sb, db. repeat split; tauto || reflexivity.
Qed.



Lemma is_new_spec this σ : is_new this σ = true <-> objs σ !! this = None.
Proof. unfold is_new. apply bool_decide_eq_true. Qed.




Lemma bufs_release_other σ old l :
  old <> Some l -> bufs (release old σ) !! l = bufs σ !! l.
Proof.
  intros H. destruct old as [lo|]; [simpl|reflexivity].
  apply lookup_delete_ne. congruence.
Qed.

Lemma copy_assign_invariant this other σ σ' :
  invariant σ -> copy_assign this other σ = Some σ' -> invariant σ'.
Proof.
  intros Hinv. unfold copy_assign, make_unique.
  destruct (objs σ !! this) as [m|] eqn:Hm; [simpl|discriminate].
  destruct (objs σ !! other) as [o|] eqn:Ho; [simpl|discriminate].
  case_decide as E; [now intros [= <-]|].
  destruct (std_copy _ _ _ _) as [σ3|] eqn:Hc; [simpl|discriminate].
  intros [= <-]. apply std_copy_inv in Hc as (sb & db & _ & Hdb & Hsb & Hle & ->).
  set (l := fresh (dom (bufs σ))) in *.
  assert (Hfresh : data m <> Some l) by exact (owned_not_fresh σ this m Hinv Hm).
  rewrite bufs_release_other in Hdb by assumption. simpl in Hdb.
  rewrite lookup_insert_eq in Hdb. injection Hdb as <-.
  unfold set_obj. simpl.
  assert (Hobjs : forall p s, objs (release p s) = objs s) by (intros [] ?; reflexivity).
  rewrite Hobjs. simpl.
  pose proof (invariant_replace σ this (Mk (Some l) (size o))) as Hrep.
  apply Hrep; clear Hrep; [assumption| | |].
  - intros b mb lb Hb Hbt Hl. rewrite lookup_insert_ne.
    + rewrite bufs_release_other.
      * simpl. apply lookup_insert_ne. intros <-.
        now apply (owned_not_fresh σ b mb Hinv Hb).
      * intros Hml. apply Hbt. destruct Hinv as [_ Huniq].
        exact (Huniq b this mb m lb Hb Hm Hl Hml).
    + intros <-. now apply (owned_not_fresh σ b mb Hinv Hb).
  - unfold buffer_ok. simpl. eexists. rewrite lookup_insert_eq. split; [reflexivity|].
    rewrite length_replicate in Hle.
    rewrite length_app, length_take, length_drop, length_replicate. lia.
  - simpl. intros l' b mb [= <-] Hb _. now apply (owned_not_fresh σ b mb).
Qed.




(** What a call of the engine changes in the store. *)
Lemma calculateDeterminant_inv matrix σ r σ' :
  DeterminantCalculator.calculateDeterminant matrix σ = Some (r, σ') ->
  exists m buf buf',
    objs σ !! matrix = Some m /\ buffer_of σ m = Some buf /\
    Engine.calculateDeterminant (size m) buf = Some (r, buf') /\
    length buf' = length buf /\ σ' = update_buffer σ m buf'.
Proof.
  unfold DeterminantCalculator.calculateDeterminant.
  destruct (objs σ !! matrix) as [m|] eqn:Hm; [simpl|discriminate].
  destruct (buffer_of σ m) as [buf|] eqn:Hb; [simpl|discriminate].
  destruct (Engine.calculateDeterminant _ _) as [[r' buf']|] eqn:E; [simpl|discriminate].
  intros [= <- <-]. exists m, buf, buf'.
  repeat split; try reflexivity; try assumption.
  now apply LengthFacts.calculateDeterminant_length in E.
Qed.


End MatrixFacts.

(** ** Properties of [Matrix] objects *)

Module MatrixClaims.

Import Matrix StoreSpec MatrixFacts Samples.

Lemma update_buffer_same σ m buf :
  buffer_of σ m = Some buf -> update_buffer σ m buf = σ.
Proof.
  unfold buffer_of, update_buffer. destruct (data m) as [l|]; [|reflexivity].
  intros H. destruct σ as [o b]. simpl in *. now rewrite insert_id.
Qed.

Lemma buffer_of_update σ m buf buf' :
  buffer_of σ m = Some buf -> length buf' = length buf ->
  buffer_of (update_buffer σ m buf') m = Some buf'.
Proof.
  unfold buffer_of, update_buffer. destruct (data m) as [l|]; simpl.
  - intros _ _. apply lookup_insert_eq.
  - intros [= <-] H. now destruct buf'.
Qed.

(** What the constructor builds. *)
Lemma ctor_inv this n σ σ' :
  ctor this n σ = Some σ' ->
  let l := fresh (dom (bufs σ)) in
  objs σ !! this = None /\
  σ' = Store (<[this := Mk (Some l) n]> (objs σ))
         (<[l := replicate (N.to_nat (size_mul n n)) LD.zero]> (bufs σ)).
Proof.
  unfold ctor, make_unique. destruct (is_new this σ) eqn:E; [|discriminate].
  apply is_new_spec in E. now intros [= <-].
Qed.

Lemma ctor_elements this n σ σ' i j x :
  ctor this n σ = Some σ' -> get this i j σ' = Some x -> x = LD.zero.
Proof.
  intros H. apply ctor_inv in H as [_ ->]. unfold get, buffer_of. simpl.
  rewrite lookup_insert_eq. simpl. rewrite lookup_insert_eq. simpl.
  unfold Buffer.get. intros Hx. now apply lookup_replicate in Hx.
Qed.

(** C5, as the code has it: [std::make_unique<long double[]>(n * n)]
    value-initializes the array, so a new matrix of dimension [n] owns a
    buffer of [n * n] elements ([size_t] product) that are all [0.0], and
    every element that can be read from it is [0.0]. *)
Theorem new_matrix_is_zero_initialized this n σ :
  objs σ !! this = None ->
  exists σ' l,
    ctor this n σ = Some σ' /\
    objs σ' !! this = Some (Mk (Some l) n) /\
    bufs σ' !! l = Some (replicate (N.to_nat (size_mul n n)) LD.zero) /\
    (forall i j x, get this i j σ' = Some x -> x = LD.zero) /\
    (fits n -> forall i j, i < n -> j < n -> get this i j σ' = Some LD.zero).
Proof.
  intros Hnew. destruct (ctor this n σ) as [σ'|] eqn:H.
  - pose proof (ctor_inv _ _ _ _ H) as [_ E]. exists σ', (fresh (dom (bufs σ))).
    split; [reflexivity|]. split; [|split; [|split]].
    + rewrite E. simpl. apply lookup_insert_eq.
    + rewrite E. simpl. apply lookup_insert_eq.
    + intros i j x. now apply ctor_elements with (n := n) (σ := σ).
    + intros Hf i j Hi Hj. rewrite E. unfold get, buffer_of. simpl.
      rewrite lookup_insert_eq. simpl. rewrite lookup_insert_eq. simpl.
      unfold Buffer.get. apply lookup_replicate. split; [reflexivity|].
      destruct (BufferFacts.index_in_range n i j Hf Hi Hj) as [-> Hlt].
      rewrite (BufferFacts.size_mul_fits n Hf). lia.
  - exfalso. unfold ctor in H. apply is_new_spec in Hnew. rewrite Hnew in H.
    unfold make_unique in H. discriminate.
Qed.

Lemma new_matrix_is_zero_initialized_witness :
  exists σ' l,
    ctor 1 2 empty_store = Some σ' /\
    bufs σ' !! l = Some (replicate 4 LD.zero) /\
    get 1 1 1 σ' = Some LD.zero.
Proof.
  destruct (new_matrix_is_zero_initialized 1 2 empty_store)
    as (σ' & l & H1 & _ & H2 & _ & H3).
  - reflexivity.
  - exists σ', l. split; [exact H1|]. split; [exact H2|].
    apply H3; reflexivity.
Defined.

(** C5, as stated, fails: no new matrix, of any dimension, has an element
    that is not [0.0]. *)
Lemma no_new_matrix_has_a_nonzero_element :
  ~ exists this n σ σ' i j x,
      0 < n /\ ctor this n σ = Some σ' /\ get this i j σ' = Some x /\ x <> LD.zero.
Proof.
  intros (this & n & σ & σ' & i & j & x & _ & Hc & Hg & Hx).
  apply Hx. exact (ctor_elements this n σ σ' i j x Hc Hg).
Qed.

(** What the copy constructor builds from a well-formed matrix. *)
Lemma copy_ctor_spec σ M dup m buf :
  objs σ !! M = Some m -> buffer_of σ m = Some buf ->
  wf_buf (size m) buf -> objs σ !! dup = None ->
  let l := fresh (dom (bufs σ)) in
  data m <> Some l /\
  copy_ctor dup M σ =
    Some (Store (<[dup := Mk (Some l) (size m)]> (objs σ)) (<[l := buf]> (bufs σ))).
Proof.
  intros Hm Hb [Hf Hlen] Hnew l.
  assert (Hl : data m <> Some l).
  { intros E. unfold buffer_of in Hb. rewrite E in Hb.
    unfold l in Hb. rewrite fresh_unused in Hb. discriminate. }
  split; [assumption|].
  unfold copy_ctor, make_unique. apply is_new_spec in Hnew. rewrite Hnew, Hm. simpl.
  fold l. unfold std_copy. simpl.
  assert (Hsrc : match data m with
                 | Some l0 => <[l := replicate (N.to_nat (size_mul (size m) (size m)))
                                      LD.zero]> (bufs σ) !! l0
                 | None => Some []
                 end = Some buf).
  { unfold buffer_of in Hb. destruct (data m) as [l0|]; [|assumption].
    rewrite lookup_insert_ne; [assumption|congruence]. }
  rewrite Hsrc. simpl. rewrite lookup_insert_eq. simpl.
  rewrite (BufferFacts.size_mul_fits _ Hf), <- Hlen.
  rewrite decide_True by (rewrite length_replicate; lia).
  unfold set_obj. simpl. rewrite insert_insert_eq.
  rewrite take_ge by lia. rewrite drop_ge by (rewrite length_replicate; lia).
  now rewrite app_nil_r.
Qed.

(** What [calculateDeterminant] does to the store. *)
Lemma calculateDeterminant_spec σ matrix m buf :
  objs σ !! matrix = Some m -> buffer_of σ m = Some buf -> wf_buf (size m) buf ->
  exists r buf',
    Engine.calculateDeterminant (size m) buf = Some (r, buf') /\
    length buf' = length buf /\
    DeterminantCalculator.calculateDeterminant matrix σ
      = Some (r, update_buffer σ m buf').
Proof.
  intros Hm Hb Hw.
  destruct (EngineFacts.calculateDeterminant_total _ _ Hw) as (r & buf' & E & [_ Hl']).
  exists r, buf'. split; [assumption|]. split; [destruct Hw; congruence|].
  unfold DeterminantCalculator.calculateDeterminant. rewrite Hm. simpl.
  rewrite Hb. simpl. now rewrite E.
Qed.

(** A matrix [M] is copied to [dup] and the engine is run on [dup]: what
    the two calls do to the store. *)
Lemma copy_then_determinant σ M dup m buf :
  objs σ !! M = Some m -> buffer_of σ m = Some buf ->
  wf_buf (size m) buf -> objs σ !! dup = None ->
  exists σ1 l r buf' σ2,
    copy dup M σ = Some σ1 /\ copy_ctor dup M σ = Some σ1 /\
    objs σ1 !! dup = Some (Mk (Some l) (size m)) /\
    data m <> Some l /\ bufs σ1 !! l = Some buf /\
    objs σ1 !! M = Some m /\ buffer_of σ1 m = Some buf /\
    DeterminantCalculator.calculateDeterminant dup σ1 = Some (r, σ2) /\
    Engine.calculateDeterminant (size m) buf = Some (r, buf') /\
    objs σ2 !! M = Some m /\ buffer_of σ2 m = Some buf /\
    bufs σ2 !! l = Some buf'.
Proof.
  intros Hm Hb Hw Hnew.
  destruct (copy_ctor_spec σ M dup m buf Hm Hb Hw Hnew) as [Hl Hcopy].
  set (l := fresh (dom (bufs σ))) in *.
  set (σ1 := Store (<[dup := Mk (Some l) (size m)]> (objs σ)) (<[l := buf]> (bufs σ))) in *.
  assert (HM : M <> dup) by congruence.
  assert (Hd1 : objs σ1 !! dup = Some (Mk (Some l) (size m))) by apply lookup_insert_eq.
  assert (Hb1 : buffer_of σ1 (Mk (Some l) (size m)) = Some buf) by apply lookup_insert_eq.
  assert (Hkeep : forall b, buffer_of (Store (objs σ1) (<[l := b]> (bufs σ))) m = Some buf).
  { intros b. unfold buffer_of in *. simpl. destruct (data m) as [l0|]; [|assumption].
    rewrite lookup_insert_ne; [assumption|congruence]. }
  destruct (calculateDeterminant_spec σ1 dup _ buf Hd1 Hb1 Hw) as (r & buf' & E & _ & Hrun).
  exists σ1, l, r, buf', (update_buffer σ1 (Mk (Some l) (size m)) buf').
  split; [exact Hcopy|]. split; [exact Hcopy|]. split; [exact Hd1|].
  split; [exact Hl|]. split; [apply lookup_insert_eq|].
  split; [simpl; now rewrite lookup_insert_ne|]. split; [apply Hkeep|].
  split; [exact Hrun|]. split; [exact E|].
  split; [simpl; now rewrite lookup_insert_ne|]. split.
  - unfold update_buffer. simpl. rewrite insert_insert_eq. apply Hkeep.
  - unfold update_buffer. simpl. apply lookup_insert_eq.
Qed.

(** C10: a call of [calculateDeterminant] leaves every object as it was,
    so that [getSize] returns what it returned before, and leaves every
    buffer with the length it had; only the elements of the buffer of the
    matrix are written. The call returns on every well-formed matrix. *)
Theorem determinant_keeps_dimension matrix σ :
  (forall r σ',
     DeterminantCalculator.calculateDeterminant matrix σ = Some (r, σ') ->
     getSize matrix σ' = getSize matrix σ /\
     objs σ' = objs σ /\
     exists m buf buf',
       objs σ !! matrix = Some m /\
       buffer_of σ m = Some buf /\ buffer_of σ' m = Some buf' /\
       length buf' = length buf /\
       forall l, data m <> Some l -> bufs σ' !! l = bufs σ !! l) /\
  (forall m buf,
     objs σ !! matrix = Some m -> buffer_of σ m = Some buf ->
     wf_buf (size m) buf ->
     exists r σ', DeterminantCalculator.calculateDeterminant matrix σ = Some (r, σ')).
Proof.
  split.
  - intros r σ' H.
    apply calculateDeterminant_inv in H as (m & buf & buf' & Hm & Hb & _ & Hl & ->).
    assert (Hobjs : objs (update_buffer σ m buf') = objs σ).
    { unfold update_buffer. now destruct (data m). }
    split; [unfold getSize; now rewrite Hobjs|]. split; [assumption|].
    exists m, buf, buf'. split; [assumption|]. split; [assumption|].
    split; [now apply buffer_of_update with (buf := buf)|]. split; [assumption|].
    intros l Hne. unfold update_buffer. destruct (data m) as [l0|]; [simpl|reflexivity].
    apply lookup_insert_ne. congruence.
  - intros m buf Hm Hb Hw.
    destruct (calculateDeterminant_spec σ matrix m buf Hm Hb Hw) as (r & buf' & _ & _ & H).
    eauto.
Qed.

Lemma determinant_keeps_dimension_witness :
  exists r σ',
    DeterminantCalculator.calculateDeterminant 1 store22 = Some (r, σ') /\
    getSize 1 σ' = Some 2 /\ objs σ' = objs store22.
Proof.
  destruct (determinant_keeps_dimension 1 store22) as [Hframe Hruns].
  destruct (Hruns M22 m22) as (r & σ' & H).
  - reflexivity.
  - reflexivity.
  - split; reflexivity.
  - exists r, σ'. split; [exact H|].
    destruct (Hframe r σ' H) as (Hs & Ho & _). split; [|exact Ho].
    rewrite Hs. reflexivity.
Defined.

(** C2: on a matrix of dimension 0 [calculateDeterminant] returns [1.0],
    and on a matrix of dimension 1 it returns the element [(0, 0)]; in both
    cases the store is left as it was: nothing is eliminated, no rows are
    exchanged. *)
Theorem dimension_0_and_1 :
  (forall buf, Engine.calculateDeterminant 0 buf = Some (LD.one, buf)) /\
  (forall buf, Engine.calculateDeterminant 1 buf
               = x ← Buffer.get 1 buf 0 0; Some (x, buf)) /\
  (forall x, Engine.calculateDeterminant 1 [x] = Some (x, [x])) /\
  (forall σ matrix m,
     objs σ !! matrix = Some m -> is_Some (buffer_of σ m) -> size m = 0 ->
     DeterminantCalculator.calculateDeterminant matrix σ = Some (LD.one, σ)) /\
  (forall σ matrix m x,
     objs σ !! matrix = Some m -> size m = 1 -> get matrix 0 0 σ = Some x ->
     DeterminantCalculator.calculateDeterminant matrix σ = Some (x, σ)).
Proof.
  split; [reflexivity|]. split; [reflexivity|]. split; [reflexivity|]. split.
  - intros σ matrix m Hm [buf Hb] Hs.
    unfold DeterminantCalculator.calculateDeterminant. rewrite Hm. simpl.
    rewrite Hb. simpl. rewrite Hs. simpl. now rewrite (update_buffer_same σ m buf Hb).
  - intros σ matrix m x Hm Hs. unfold get. rewrite Hm. simpl.
    unfold DeterminantCalculator.calculateDeterminant. rewrite Hm. simpl.
    destruct (buffer_of σ m) as [buf|] eqn:Hb; [simpl|discriminate].
    rewrite Hs. intros Hx. unfold Engine.calculateDeterminant. simpl. rewrite Hx. simpl.
    now rewrite (update_buffer_same σ m buf Hb).
Qed.

Lemma dimension_0_and_1_witness :
  exists σ σ',
    ctor 1 0 empty_store = Some σ /\ move_ctor 2 1 σ = Some σ' /\
    DeterminantCalculator.calculateDeterminant 1 σ' = Some (LD.one, σ') /\
    DeterminantCalculator.calculateDeterminant 2 σ' = Some (LD.one, σ').
Proof.
  eexists. eexists. split; [reflexivity|]. split; [reflexivity|].
  destruct dimension_0_and_1 as (_ & _ & _ & H0 & _). split.
  - apply (H0 _ 1%positive (Mk None 0)); [reflexivity|now exists []|reflexivity].
  - eapply (H0 _ 2%positive); [reflexivity| |reflexivity]. simpl.
    unfold buffer_of. simpl. rewrite lookup_insert_eq. eauto.
Defined.

End MatrixClaims.

(** ** Exchanging rows before the call *)

Module SwapClaims.

Import Buffer BufferFacts Engine EngineSpec EngineFacts LDOrder LDFacts SwapFacts
  PivotFacts Samples.

Lemma pivot_step_opposite n k st st' :
  wf_state n st -> wf_state n st' -> k < n -> opposite st st' ->
  exists s s', pivot_step n k st = Some s /\ pivot_step n k st' = Some s' /\
    opposite s s' /\ wf_state n s /\ wf_state n s'.
Proof.
  intros Hw Hw' Hk (Hm & Hd & Hs & Hpm).
  destruct (pivot_step_total n k st Hw Hk) as (s & Hp & Hws).
  destruct (pivot_step_total n k st' Hw' Hk) as (s' & Hp' & Hws').
  exists s, s'. repeat (split; [assumption|]). split; [|split; assumption].
  unfold pivot_step in Hp, Hp'. rewrite Hm in Hp'.
  destruct (find_pivot n k (mat st)) as [[mv p]|]; [simpl in *|discriminate].
  destruct (N.eqb p k).
  - injection Hp as <-. injection Hp' as <-. repeat split; assumption.
  - destruct (swapRows n (mat st) k p) as [b|]; [simpl in *|discriminate].
    destruct (swap_pivot k p (pivot st)); [simpl in *|discriminate].
    destruct (swap_pivot k p (pivot st')); [simpl in *|discriminate].
    injection Hp as <-. injection Hp' as <-. simpl.
    repeat split; simpl; try reflexivity; try assumption; lia.
Qed.

Lemma lu_step_opposite n k st st' :
  wf_state n st -> wf_state n st' -> k < n -> opposite st st' ->
  exists o o', lu_step n k st = Some o /\ lu_step n k st' = Some o' /\
    opposite_outcome o o' /\
    wf_state n (outcome_state o) /\ wf_state n (outcome_state o').
Proof.
  intros Hw Hw' Hk Hopp.
  destruct (pivot_step_opposite n k st st' Hw Hw' Hk Hopp)
    as (s & s' & Hp & Hp' & (Hm & Hd & Hs & Hpm) & Hws & Hws').
  destruct (lu_step_total n k st Hw Hk) as (o & Ho & Hwo).
  destruct (lu_step_total n k st' Hw' Hk) as (o' & Ho' & Hwo').
  exists o, o'. repeat (split; [assumption|]). split; [|split; assumption].
  unfold lu_step in Ho, Ho'. rewrite Hp in Ho. rewrite Hp' in Ho'. simpl in Ho, Ho'.
  rewrite Hm in Ho'.
  destruct (get n (mat s) k k) as [pv|]; [simpl in *|discriminate].
  destruct (LD.lt (LD.fabsl pv) LD.eps).
  - injection Ho as <-. injection Ho' as <-. simpl. auto.
  - destruct (for_range _ _ _ _) as [b|]; [simpl in *|discriminate].
    injection Ho as <-. injection Ho' as <-. simpl.
    repeat split; simpl; try assumption; congruence.
Qed.

Lemma lu_loop_opposite count n k st st' :
  wf_state n st -> wf_state n st' -> k + N.of_nat count <= n -> opposite st st' ->
  exists o o', lu_loop count n k st = Some o /\ lu_loop count n k st' = Some o' /\
    opposite_outcome o o'.
Proof.
  revert k st st'. induction count as [|c IH]; intros k st st' Hw Hw' Hk Hopp; simpl.
  - exists (Continue st), (Continue st'). auto.
  - destruct (lu_step_opposite n k st st' Hw Hw') as (o & o' & -> & -> & Hoo & Hwo & Hwo');
      [lia|assumption|].
    destruct o as [r s|s], o' as [r' s'|s']; simpl in Hoo; try contradiction.
    + exists (Return r s), (Return r' s'). auto.
    + apply IH; [assumption..|lia|assumption].
Qed.

(** The pivot search stays on row [k] when no later row is above it. *)
Lemma find_pivot_stays n k buf x :
  wf_buf n buf -> k < n -> get n buf k k = Some x ->
  (forall r y, k < r < n -> get n buf r k = Some y ->
     LD.gt (LD.fabsl y) (LD.fabsl x) = false) ->
  find_pivot n k buf = Some (LD.fabsl x, k).
Proof.
  intros Hw Hk Hx Hmax. unfold find_pivot. rewrite Hx. simpl.
  destruct (for_range_total (find_pivot_body n k buf)
              (fun _ acc => acc = (LD.fabsl x, k)) (k + 1) n (LD.fabsl x, k))
    as (acc & Hrun & ->); [lia|reflexivity| |assumption].
  intros i acc Hi ->. unfold find_pivot_body.
  destruct (get_total n buf i k Hw) as [y Hy]; [lia..|]. rewrite Hy. simpl.
  rewrite (Hmax i y); [eauto|lia|assumption].
Qed.

Lemma binary_round_aux_opp s m e l :
  binary_round_aux LD.prec LD.emax (negb s) m e l
  = SFopp (binary_round_aux LD.prec LD.emax s m e l).
Proof.
  unfold binary_round_aux.
  destruct (shr_fexp LD.prec LD.emax m e l) as [mrs e'].
  destruct (shr_fexp LD.prec LD.emax _ e' loc_Exact) as [mrs' e''].
  destruct (shr_m mrs'); [reflexivity| |reflexivity].
  now destruct (Z.leb _ _).
Qed.

Lemma of_Z_one : LD.of_Z 1 = S754_finite false (2 ^ 63) (-63).
Proof. reflexivity. Qed.

Lemma of_Z_minus_one : LD.of_Z (-1) = S754_finite true (2 ^ 63) (-63).
Proof. reflexivity. Qed.

Lemma mul_minus_one d : LD.mul d (LD.of_Z (-1)) = LD.opp (LD.mul d (LD.of_Z 1)).
Proof.
  rewrite of_Z_one, of_Z_minus_one.
  destruct d as [[]|[]| |sd md ed]; try reflexivity.
  unfold LD.mul, LD.opp, SFmul.
  replace (xorb sd true) with (negb (xorb sd false)) by now destruct sd.
  apply binary_round_aux_opp.
Qed.

Lemma opp_involutive x : LD.opp (LD.opp x) = x.
Proof. destruct x as [[]|[]| |[] m e]; reflexivity. Qed.

Lemma mul_opposite_sign d s :
  (s = 1 \/ s = -1)%Z ->
  LD.mul d (LD.of_Z (- s)) = LD.opp (LD.mul d (LD.of_Z s)).
Proof.
  intros [-> | ->]; simpl Z.opp.
  - apply mul_minus_one.
  - now rewrite mul_minus_one, opp_involutive.
Qed.

Lemma eqb_refl x : LD.is_nan x = false -> LD.eqb x x = true.
Proof.
  unfold LD.eqb, SFeqb. destruct x as [[]|[]| |[] m e]; simpl; try reflexivity;
    try discriminate; intros _; rewrite Z.compare_refl, Pos.compare_cont_refl;
    reflexivity.
Qed.

Lemma is_nan_opp x : LD.is_nan (LD.opp x) = LD.is_nan x.
Proof. now destruct x. Qed.

Lemma lu_step_after_pivot n k st st1 :
  pivot_step n k st = Some st1 -> pivot_step n k st1 = Some st1 ->
  lu_step n k st = lu_step n k st1.
Proof. intros H H1. unfold lu_step. now rewrite H, H1. Qed.

Lemma lu_loop_after_pivot c n k st st1 :
  pivot_step n k st = Some st1 -> pivot_step n k st1 = Some st1 ->
  lu_loop (S c) n k st = lu_loop (S c) n k st1.
Proof. intros H H1. simpl. now rewrite (lu_step_after_pivot n k st st1 H H1). Qed.

Lemma calculateDeterminant_loop n buf :
  2 <= n ->
  calculateDeterminant n buf
  = result_of <$> lu_loop (N.to_nat n) n 0 (init_state n buf).
Proof.
  intros Hn. unfold calculateDeterminant, init_state.
  destruct (N.eqb_spec n 0); [lia|]. destruct (N.eqb_spec n 1); [lia|].
  now destruct (lu_loop _ _ _ _) as [[]|].
Qed.

(** X23, ties allowed: in a matrix of dimension at least 2 whose pivot
    search of column 0 selects a row [p] other than row 0, exchanging rows 0
    and [p]
    before the call makes the call skip its first exchange and do the same
    elimination: the matrix left behind is the same, and either both calls
    meet the threshold and return [0.0], or the value returned is the
    opposite. *)
Lemma swap_with_pivot_row_negates n buf mv p :
  wf_buf n buf -> 2 <= n -> find_pivot n 0 buf = Some (mv, p) -> p <> 0 ->
  exists buf' r r' b,
    swapRows n buf 0 p = Some buf' /\
    calculateDeterminant n buf = Some (r, b) /\
    calculateDeterminant n buf' = Some (r', b) /\
    ((r = LD.zero /\ r' = LD.zero) \/ r' = LD.opp r) /\
    (LD.is_nan r = false -> LD.eqb r' (LD.opp r) = true).
Proof.
  intros Hw Hn Hfind Hp0.
  destruct (find_pivot_spec n 0 buf Hw) as (mv' & p' & Hfind' & Hr & x & Hx & _ & Hmax & _);
    [lia|].
  rewrite Hfind in Hfind'. injection Hfind' as <- <-.
  destruct (swapRows_spec n buf 0 p Hw) as (buf' & Hswap & Hw' & Hget); [lia..|].
  assert (Hx' : get n buf' 0 0 = Some x).
  { rewrite Hget by lia. unfold swapped. now rewrite N.eqb_refl. }
  assert (Hstay : find_pivot n 0 buf' = Some (LD.fabsl x, 0)).
  { apply find_pivot_stays; [assumption|lia|assumption|].
    intros r y Hry Hy. rewrite Hget in Hy by lia.
    apply (Hmax (swapped 0 p r) y); [|assumption].
    unfold swapped. destruct (N.eqb r 0), (N.eqb r p); lia. }
  pose (st := init_state n buf).
  pose (st' := init_state n buf').
  destruct (swap_pivot_total 0 p (init_pivot n) n (init_pivot_length n))
    as (piv & Hpiv & Hlpiv); [lia..|].
  pose (st1 := LuState buf' piv LD.one (-1)).
  assert (H1 : pivot_step n 0 st = Some st1).
  { unfold pivot_step. simpl. rewrite Hfind. simpl.
    destruct (N.eqb_spec p 0); [contradiction|]. rewrite Hswap. simpl.
    now rewrite Hpiv. }
  assert (H2 : pivot_step n 0 st1 = Some st1).
  { unfold pivot_step. simpl. rewrite Hstay. reflexivity. }
  assert (Hwf1 : wf_state n st1) by (split; assumption).
  assert (Hwf' : wf_state n st') by (split; [assumption|apply init_pivot_length]).
  assert (Hopp : opposite st' st1).
  { repeat split; simpl; auto. }
  destruct (lu_loop_opposite (N.to_nat n) n 0 st' st1 Hwf' Hwf1 ltac:(lia) Hopp)
    as (o' & o & Ho' & Ho & Hoo).
  assert (Hrun : calculateDeterminant n buf = Some (result_of o)).
  { rewrite calculateDeterminant_loop by assumption. fold st.
    destruct (N.to_nat n) as [|c] eqn:Hc; [lia|].
    rewrite (lu_loop_after_pivot c n 0 st st1 H1 H2), Ho. reflexivity. }
  assert (Hrun' : calculateDeterminant n buf' = Some (result_of o')).
  { rewrite calculateDeterminant_loop by assumption. fold st'. now rewrite Ho'. }
  exists buf'. destruct o' as [r' s'|s'], o as [r s|s]; simpl in Hoo; try contradiction.
  - destruct Hoo as (-> & -> & Hm). exists LD.zero, LD.zero, (mat s).
    simpl in Hrun, Hrun'. rewrite <- Hm in Hrun'.
    repeat (split; [assumption|]). split; [now left|reflexivity].
  - destruct Hoo as (Hm & Hd & Hs & Hpm).
    exists (LD.mul (det s) (LD.of_Z (sign s))),
           (LD.mul (det s') (LD.of_Z (sign s'))), (mat s).
    simpl in Hrun, Hrun'. rewrite <- Hm in Hrun'.
    assert (E : LD.mul (det s') (LD.of_Z (sign s'))
                = LD.opp (LD.mul (det s) (LD.of_Z (sign s)))).
    { rewrite Hd, Hs, (mul_opposite_sign (det s') (sign s') Hpm).
      now rewrite opp_involutive. }
    repeat (split; [assumption|]).
    split; [now right|]. intros Hnan. rewrite E. apply eqb_refl.
    now rewrite is_nan_opp.
Qed.

Lemma swap_with_pivot_row_negates_witness :
  exists buf' r r' b,
    swapRows 2 m22 0 1 = Some buf' /\
    calculateDeterminant 2 m22 = Some (r, b) /\
    calculateDeterminant 2 buf' = Some (r', b) /\
    LD.eqb r' (LD.opp r) = true.
Proof.
  destruct (swap_with_pivot_row_negates 2 m22 (LD.fabsl (lit 3)) 1)
    as (buf' & r & r' & b & H1 & H2 & H3 & _ & H4).
  - split; reflexivity.
  - discriminate.
  - vm_compute. reflexivity.
  - discriminate.
  - exists buf', r, r', b. repeat (split; [assumption|]). apply H4.
    vm_compute in H2. injection H2 as <- _. reflexivity.
Defined.

(** C9, as stated, fails. A row exchanged with itself changes nothing, so
    the 1x1 matrix [[5]] gives 5 both times; and when two rows tie in the
    pivot search, exchanging them changes the order of the roundings: the
    matrix [[2,0,0],[2,3,1],[1,1,1]] gives [4 - 2^-62], and [-4] once its
    rows 0 and 1 are exchanged. *)
Lemma row_swap_does_not_always_negate :
  (swapRows 1 [lit 5] 0 0 = Some [lit 5] /\
   fst <$> calculateDeterminant 1 [lit 5] = Some (lit 5) /\
   LD.eqb (lit 5) (LD.opp (lit 5)) = false) /\
  (let M := map lit [2; 0; 0; 2; 3; 1; 1; 1; 1]%Z in
   let M' := map lit [2; 3; 1; 2; 0; 0; 1; 1; 1]%Z in
   swapRows 3 M 0 1 = Some M' /\
   fst <$> calculateDeterminant 3 M = Some (S754_finite false (2 ^ 64 - 1) (-62)) /\
   fst <$> calculateDeterminant 3 M' = Some (lit (-4)) /\
   LD.eqb (lit (-4)) (LD.opp (S754_finite false (2 ^ 64 - 1) (-62))) = false).
Proof. vm_compute. repeat split. Qed.

End SwapClaims.

(** ** The file loader *)

Module ReaderClaims.

Import MatrixReader Samples.

(** C6 at a file whose second row has one value too many: the loader
    returns the 2x2 matrix of the first two values of each row, where the
    specification (and the check of [readFromUserInput]) asks for a format
    error. *)
Theorem readFromFile_accepts_a_long_row :
  readFromFile "m.txt" (Some [nums [1; 2]; nums [3; 4; 5]]%Z)
  = Ok (2, map lit [1; 2; 3; 4]%Z).
Proof. vm_compute. reflexivity. Qed.

(** The rows that are too short are refused, and so are missing rows. *)
Example readFromFile_refuses_a_short_row :
  readFromFile "m.txt" (Some [nums [1; 2]; nums [3]]%Z)
  = Throw "Invalid matrix format: not enough columns".
Proof. vm_compute. reflexivity. Qed.

Example readFromFile_refuses_missing_rows :
  readFromFile "m.txt" (Some [nums [1; 2]]%Z)
  = Throw "Invalid matrix format: not enough rows".
Proof. vm_compute. reflexivity. Qed.

(** A row with fewer than [count] values to extract is never accepted. *)
Lemma read_row_short count size i j line buf b :
  (N.to_nat (count_values line) < count)%nat ->
  read_row count size i j line buf <> Ok b.
Proof.
  revert j line buf. induction count as [|c IH]; intros j line buf H; [lia|].
  simpl. destruct line as [|[v|] rest]; try discriminate.
  destruct (Buffer.set size buf i j v); [|discriminate].
  apply IH. simpl in H. lia.
Qed.

Lemma read_rows_short count size i lines buf b :
  (length lines < count)%nat \/
  (exists r line, (r < count)%nat /\ lines !! r = Some line /\
     count_values line < size) ->
  read_rows count size i lines buf <> Ok b.
Proof.
  revert i lines buf. induction count as [|c IH]; intros i lines buf H.
  - destruct H as [H|(r & line & H & _)]; lia.
  - simpl. destruct lines as [|line rest]; [discriminate|].
    destruct (read_row (N.to_nat size) size i 0 line buf) as [buf'| |] eqn:E;
      try discriminate.
    apply IH. destruct H as [H|(r & l & Hr & Hl & Hc)].
    + left. simpl in H. lia.
    + destruct r as [|r].
      * injection Hl as ->. exfalso.
        apply (read_row_short (N.to_nat size) size i 0 l buf buf'); [lia|assumption].
      * right. exists r, l. split; [lia|]. split; assumption.
Qed.

(** [readFromFile] returns no matrix when the file has fewer rows than the
    first line has values, or when one of these rows has fewer values. *)
Lemma readFromFile_refuses_short_input filename lines m :
  let size := count_values (hd [] lines) in
  (length lines < N.to_nat size)%nat \/
  (exists r line, (r < N.to_nat size)%nat /\ lines !! r = Some line /\
     count_values line < size) ->
  readFromFile filename (Some lines) <> Ok m.
Proof.
  intros size H. unfold readFromFile. fold size.
  destruct (read_rows _ _ _ _ _) as [buf| |] eqn:E; try discriminate.
  exfalso. revert E. now apply read_rows_short.
Qed.

(** Whatever follows the first [count] values of a row is not looked at. *)
Lemma read_row_ignores_rest count size i j line extra buf buf' :
  read_row count size i j line buf = Ok buf' ->
  read_row count size i j (line ++ extra) buf = Ok buf'.
Proof.
  revert j line buf. induction count as [|c IH]; intros j line buf; simpl; [trivial|].
  destruct line as [|[v|] rest]; simpl; try discriminate.
  destruct (Buffer.set size buf i j v); [apply IH|discriminate].
Qed.

End ReaderClaims.

(** ** Exchanging two rows when the pivot search meets no tie *)

Module NoTies.

Import Buffer BufferFacts Engine EngineSpec EngineFacts LDOrder LDFacts SwapFacts
  PivotFacts SwapClaims Samples.

Lemma buf_ext n b b' :
  wf_buf n b -> wf_buf n b' ->
  (forall r c, r < n -> c < n -> get n b' r c = get n b r c) -> b' = b.
Proof.
  intros [Hf Hl] [_ Hl'] H. apply list_eq. intros ix.
  destruct (decide (ix < length b)%nat) as [Hlt|Hge].
  - assert (Hn : n <> 0) by (intros ->; simpl in Hl; lia).
    set (q := N.of_nat ix).
    assert (Hq : q < n * n) by lia.
    assert (Hr : q / n < n) by (apply N.Div0.div_lt_upper_bound; lia).
    assert (Hc : q mod n < n) by now apply N.mod_lt.
    specialize (H (q / n) (q mod n) Hr Hc). unfold get in H.
    destruct (index_in_range n (q / n) (q mod n) Hf Hr Hc) as [E _].
    rewrite E in H.
    replace (q / n * n + q mod n) with q in H
      by (rewrite (N.div_mod q n Hn) at 1; lia).
    unfold q in H. now rewrite Nat2N.id in H.
  - rewrite !lookup_ge_None_2; [reflexivity|lia..].
Qed.

Lemma find_pivot_strict n k buf p x :
  wf_buf n buf -> k < n -> k <= p < n -> get n buf p k = Some x ->
  (forall r y, k <= r < n -> r <> p -> get n buf r k = Some y ->
     LD.gt (LD.fabsl x) (LD.fabsl y) = true) ->
  find_pivot n k buf = Some (LD.fabsl x, p).
Proof.
  intros Hw Hk Hp Hx Hstrict.
  destruct (find_pivot_spec n k buf Hw Hk)
    as (mv & p0 & Hfind & Hr & x0 & Hx0 & -> & Hmax & _).
  destruct (N.eq_dec p0 p) as [->|Hne].
  - rewrite Hx in Hx0. injection Hx0 as <-. assumption.
  - pose proof (Hstrict p0 x0 Hr Hne Hx0) as Hgt.
    rewrite (Hmax p x Hp Hx) in Hgt. discriminate.
Qed.

(** What the pivot step does, when the row that the search selects is
    known. *)
Lemma pivot_step_spec n k st mv p :
  wf_state n st -> k < n -> k <= p < n -> find_pivot n k (mat st) = Some (mv, p) ->
  exists st1, pivot_step n k st = Some st1 /\ wf_state n st1 /\
    det st1 = det st /\
    sign st1 = (if N.eqb p k then sign st else - sign st)%Z /\
    forall r c, r < n -> c < n ->
      get n (mat st1) r c = get n (mat st) (swapped k p r) c.
Proof.
  intros [Hw Hpv] Hk Hp Hfind. unfold pivot_step. rewrite Hfind. simpl.
  destruct (N.eqb_spec p k) as [->|Hne].
  - exists st. split; [reflexivity|]. split; [split; assumption|].
    split; [reflexivity|]. split; [reflexivity|].
    intros r c _ _. unfold swapped. now destruct (N.eqb_spec r k) as [->|].
  - destruct (swapRows_spec n (mat st) k p Hw) as (b & Hb & Hwb & Hget); [lia..|].
    destruct (swap_pivot_total k p (pivot st) n Hpv) as (pv & Hpiv & Hlp); [lia..|].
    rewrite Hb, Hpiv. simpl. eexists. split; [reflexivity|].
    split; [split; assumption|]. simpl. auto.
Qed.

Lemma eliminated_ext n k pv b b' r r' c :
  (N.leb r k = N.leb r' k) ->
  (forall c', c' < n -> get n b' r c' = get n b r' c') ->
  (forall c', c' < n -> get n b' k c' = get n b k c') ->
  k < n -> c < n ->
  eliminated n k pv b' r c = eliminated n k pv b r' c.
Proof.
  intros Hle Hr Hk Hkn Hc. unfold eliminated.
  now rewrite Hle, !Hr, !Hk by assumption.
Qed.

Lemma elim_cols_spec n k i f b1 :
  wf_buf n b1 -> k < n -> i < n -> i <> k ->
  exists b2, for_range (k + 1) n (elim_col n k i f) b1 = Some b2 /\ wf_buf n b2 /\
    forall r c, r < n -> c < n ->
      get n b2 r c =
        if N.eqb r i && N.ltb k c
        then y ← get n b1 r c; z ← get n b1 k c; Some (LD.sub y (LD.mul f z))
        else get n b1 r c.
Proof.
  intros Hw Hk Hi Hik.
  destruct (for_range_total (elim_col n k i f)
    (fun j b => wf_buf n b /\ forall r c, r < n -> c < n ->
       get n b r c =
         if N.eqb r i && N.ltb k c && N.ltb c j
         then y ← get n b1 r c; z ← get n b1 k c; Some (LD.sub y (LD.mul f z))
         else get n b1 r c)
    (k + 1) n b1) as (b2 & Hrun & Hw2 & Hget); [lia| | |].
  - split; [assumption|]. intros r c _ _.
    destruct (N.eqb r i), (N.ltb_spec k c), (N.ltb_spec c (k + 1)); simpl;
      try reflexivity; lia.
  - intros j t Hj [Hwt Ht]. unfold elim_col.
    assert (Hjn : j < n) by lia.
    rewrite (Ht i j Hi Hjn), (Ht k j Hk Hjn).
    replace (N.ltb j j) with false by (symmetry; apply N.ltb_irrefl).
    rewrite !andb_false_r.
    destruct (get_total n b1 i j Hw Hi Hjn) as [x Hx].
    destruct (get_total n b1 k j Hw Hk Hjn) as [y Hy]. rewrite Hx, Hy. simpl.
    destruct (set_total n t i j (LD.sub x (LD.mul f y)) Hwt Hi Hjn) as (t' & Hs & Hwt').
    exists t'. split; [assumption|]. split; [assumption|]. intros r c Hr Hc.
    rewrite (get_set n t i j _ t' r c Hwt Hi Hjn Hr Hc Hs), (Ht r c Hr Hc).
    case_decide as E.
    + destruct E as [-> ->]. rewrite N.eqb_refl.
      replace (N.ltb k j) with true by (symmetry; apply N.ltb_lt; lia).
      replace (N.ltb j (N.succ j)) with true by (symmetry; apply N.ltb_lt; lia).
      simpl. now rewrite Hx, Hy.
    + destruct (N.eqb_spec r i) as [->|]; [|reflexivity]. simpl.
      destruct (N.ltb_spec k c); [simpl|reflexivity].
      destruct (N.ltb_spec c j), (N.ltb_spec c (N.succ j)); try reflexivity; lia.
  - exists b2. split; [assumption|]. split; [assumption|]. intros r c Hr Hc.
    rewrite (Hget r c Hr Hc).
    replace (N.ltb c n) with true by (symmetry; apply N.ltb_lt; lia).
    now rewrite andb_true_r.
Qed.

Lemma elim_row_spec n k pv i b :
  wf_buf n b -> k < i < n ->
  exists b2, elim_row n k pv i b = Some b2 /\ wf_buf n b2 /\
    forall r c, r < n -> c < n ->
      get n b2 r c = if N.eqb r i then eliminated n k pv b r c else get n b r c.
Proof.
  intros Hw Hi. unfold elim_row.
  assert (Hk : k < n) by lia. assert (Hin : i < n) by lia.
  destruct (get_total n b i k Hw Hin Hk) as [x Hx]. rewrite Hx. simpl.
  destruct (set_total n b i k (LD.div x pv) Hw Hin Hk) as (b1 & Hs & Hw1).
  rewrite Hs. simpl.
  destruct (elim_cols_spec n k i (LD.div x pv) b1 Hw1 Hk Hin) as (b2 & Hrun & Hw2 & Hget);
    [lia|].
  exists b2. split; [assumption|]. split; [assumption|]. intros r c Hr Hc.
  rewrite (Hget r c Hr Hc).
  rewrite !(fun r c Hr Hc => get_set n b i k _ b1 r c Hw Hin Hk Hr Hc Hs) by assumption.
  unfold eliminated.
  destruct (N.eqb_spec r i) as [->|Hri]; simpl.
  - replace (N.leb i k) with false by (symmetry; apply N.leb_gt; lia). simpl.
    rewrite Hx. simpl.
    destruct (N.ltb_spec k c) as [Hkc|Hck].
    + replace (N.ltb c k) with false by (symmetry; apply N.ltb_ge; lia).
      replace (N.eqb c k) with false by (symmetry; apply N.eqb_neq; lia).
      rewrite !decide_False by lia. reflexivity.
    + destruct (N.eqb_spec c k) as [->|Hne].
      * rewrite decide_True by tauto.
        now replace (N.ltb k k) with false by (symmetry; apply N.ltb_irrefl).
      * rewrite decide_False by tauto.
        now replace (N.ltb c k) with true by (symmetry; apply N.ltb_lt; lia).
  - rewrite decide_False by tauto. reflexivity.
Qed.

Lemma eliminate_spec n k pv b :
  wf_buf n b -> k < n ->
  exists b2, for_range (k + 1) n (elim_row n k pv) b = Some b2 /\ wf_buf n b2 /\
    forall r c, r < n -> c < n -> get n b2 r c = eliminated n k pv b r c.
Proof.
  intros Hw Hk.
  assert (Hlow : forall r c, r <= k -> eliminated n k pv b r c = get n b r c).
  { intros r c Hr. unfold eliminated.
    now replace (N.leb r k) with true by (symmetry; apply N.leb_le; lia). }
  destruct (for_range_total (elim_row n k pv)
    (fun i t => wf_buf n t /\ forall r c, r < n -> c < n ->
       get n t r c = if N.ltb r i then eliminated n k pv b r c else get n b r c)
    (k + 1) n b) as (b2 & Hrun & Hw2 & Hget); [lia| | |].
  - split; [assumption|]. intros r c _ _.
    destruct (N.ltb_spec r (k + 1)); [|reflexivity]. symmetry. apply Hlow. lia.
  - intros i t Hi [Hwt Ht].
    destruct (elim_row_spec n k pv i t Hwt) as (t' & Hs & Hwt' & Hget); [lia|].
    exists t'. split; [assumption|]. split; [assumption|]. intros r c Hr Hc.
    rewrite (Hget r c Hr Hc).
    destruct (N.eqb_spec r i) as [->|Hri].
    + replace (N.ltb i (N.succ i)) with true by (symmetry; apply N.ltb_lt; lia).
      apply eliminated_ext; try assumption; try reflexivity.
      * intros c' Hc'. rewrite (Ht i c') by lia.
        now replace (N.ltb i i) with false by (symmetry; apply N.ltb_irrefl).
      * intros c' Hc'. rewrite (Ht k c') by lia.
        replace (N.ltb k i) with true by (symmetry; apply N.ltb_lt; lia).
        apply Hlow. lia.
    + rewrite (Ht r c Hr Hc).
      destruct (N.ltb_spec r i), (N.ltb_spec r (N.succ i)); try reflexivity; lia.
  - exists b2. split; [assumption|]. split; [assumption|]. intros r c Hr Hc.
    rewrite (Hget r c Hr Hc).
    now replace (N.ltb r n) with true by (symmetry; apply N.ltb_lt; lia).
Qed.

Ltac swapped_cases :=
  unfold swapped in *;
  repeat match goal with
  | |- context [N.eqb ?a ?b] => destruct (N.eqb_spec a b)
  | H : context [N.eqb ?a ?b] |- _ => destruct (N.eqb_spec a b)
  end;
  simpl; try reflexivity; try lia.

Lemma swapped_lt n i j r : i < n -> j < n -> r < n -> swapped i j r < n.
Proof. intros. swapped_cases. Qed.

Lemma swapped_involutive i j r : swapped i j (swapped i j r) = r.
Proof. swapped_cases. Qed.

Lemma strict_pivot_in_place n k st x :
  wf_state n st -> k < n -> get n (mat st) k k = Some x ->
  (forall r y, k <= r < n -> r <> k -> get n (mat st) r k = Some y ->
     LD.gt (LD.fabsl x) (LD.fabsl y) = true) ->
  pivot_step n k st = Some st.
Proof.
  intros [Hw _] Hk Hx Hstrict. unfold pivot_step.
  rewrite (find_pivot_strict n k (mat st) k x Hw Hk); [|lia|assumption..].
  simpl. now rewrite N.eqb_refl.
Qed.

Lemma pivot_sim n k st st' :
  sim n k st st' -> k < n -> strict_pivot n k (mat st) ->
  exists st1 st1',
    pivot_step n k st = Some st1 /\ pivot_step n k st' = Some st1' /\
    pivot_step n k st1 = Some st1 /\ pivot_step n k st1' = Some st1' /\
    wf_state n st1 /\ wf_state n st1' /\
    (opposite st1 st1' \/ sim n (k + 1) st1 st1').
Proof.
  intros (Hw & Hw' & Hd & Hs & Hpm & i & j & Hi & Hj & Hij & Hrows) Hk
         (p & x & Hp & Hx & Hstrict).
  assert (Hfind : find_pivot n k (mat st) = Some (LD.fabsl x, p)).
  { apply find_pivot_strict; try assumption. apply Hw. }
  set (p' := swapped i j p).
  assert (Hp' : k <= p' < n) by (unfold p'; swapped_cases).
  assert (Hx' : get n (mat st') p' k = Some x).
  { rewrite Hrows by lia. unfold p'. now rewrite swapped_involutive. }
  assert (Hfind' : find_pivot n k (mat st') = Some (LD.fabsl x, p')).
  { apply find_pivot_strict; try assumption; [apply Hw'|].
    intros r y Hr Hne Hy. rewrite Hrows in Hy by lia.
    apply (Hstrict (swapped i j r) y); [| |assumption].
    - clear - Hr Hi Hj. swapped_cases.
    - intros E. apply Hne. unfold p'. rewrite <- E. now rewrite swapped_involutive. }
  destruct (pivot_step_spec n k st _ p Hw Hk Hp Hfind)
    as (st1 & H1 & Hw1 & Hd1 & Hs1 & Hg1).
  destruct (pivot_step_spec n k st' _ p' Hw' Hk Hp' Hfind')
    as (st1' & H1' & Hw1' & Hd1' & Hs1' & Hg1').
  assert (Hg1'' : forall r c, r < n -> c < n ->
            get n (mat st1') r c = get n (mat st) (swapped i j (swapped k p' r)) c).
  { intros r c Hr Hc. rewrite Hg1' by assumption. apply Hrows; [|assumption].
    apply swapped_lt; lia. }
  exists st1, st1'. repeat (split; [assumption|]).
  assert (Hin : pivot_step n k st1 = Some st1).
  { apply (strict_pivot_in_place n k st1 x Hw1 Hk).
    - rewrite Hg1 by assumption. unfold swapped. now rewrite N.eqb_refl.
    - intros r y Hr Hne Hy. rewrite Hg1 in Hy by lia.
      apply (Hstrict (swapped k p r) y); [| |assumption]; clear - Hr Hne Hp; swapped_cases. }
  assert (Hin' : pivot_step n k st1' = Some st1').
  { apply (strict_pivot_in_place n k st1' x Hw1' Hk).
    - rewrite Hg1' by assumption. unfold swapped. now rewrite N.eqb_refl.
    - intros r y Hr Hne Hy. rewrite Hg1' in Hy by lia. rewrite Hrows in Hy by
        (try apply swapped_lt; lia).
      apply (Hstrict (swapped i j (swapped k p' r)) y); [| |assumption];
        unfold p' in *; clear - Hr Hne Hp Hi Hj; swapped_cases. }
  repeat (split; [assumption|]).
  assert (Hsame : forall i' j',
            (forall r, r < n ->
               swapped i j (swapped k p' r) = swapped k p (swapped i' j' r)) ->
            i' < n -> j' < n ->
            rows_swapped n i' j' (mat st1) (mat st1')).
  { intros i' j' E Hi' Hj' r c Hr Hc. rewrite Hg1'' by assumption.
    rewrite Hg1 by (try apply swapped_lt; assumption). now rewrite E. }
  assert (Hequal : (forall r, r < n -> swapped i j (swapped k p' r) = swapped k p r) ->
            mat st1' = mat st1).
  { intros E. apply (buf_ext n); [apply Hw1|apply Hw1'|].
    intros r c Hr Hc. rewrite Hg1'', Hg1 by assumption. now rewrite E. }
  assert (Hsim : forall i' j',
            (forall r, r < n ->
               swapped i j (swapped k p' r) = swapped k p (swapped i' j' r)) ->
            k + 1 <= i' < n -> k + 1 <= j' < n -> i' <> j' ->
            N.eqb p' k = N.eqb p k ->
            sim n (k + 1) st1 st1').
  { intros i' j' E Hi' Hj' Hne Hpk. split; [assumption|]. split; [assumption|].
    split; [congruence|]. split; [rewrite Hs1, Hs1', Hpk, Hs; reflexivity|].
    split; [rewrite Hs1; destruct (N.eqb p k); lia|].
    exists i', j'. repeat (split; [lia || assumption|]). apply Hsame; [assumption|lia..]. }
  assert (Hopp : (forall r, r < n -> swapped i j (swapped k p' r) = swapped k p r) ->
            N.eqb p' k = negb (N.eqb p k) -> opposite st1 st1').
  { intros E Hpk. split; [now apply Hequal|]. split; [congruence|].
    rewrite Hs1, Hs1', Hpk, Hs. destruct (N.eqb p k); simpl; split; lia. }
  unfold p' in *. clear p'.
  destruct (N.eq_dec p i) as [Epi|Npi]; [|destruct (N.eq_dec p j) as [Epj|Npj]].
  - destruct (N.eq_dec k i) as [Eki|Nki]; [|destruct (N.eq_dec k j) as [Ekj|Nkj]].
    + left. apply Hopp; [intros r Hr|]; clear - Epi Eki Hij; swapped_cases.
    + left. apply Hopp; [intros r Hr|]; clear - Epi Ekj Hij; swapped_cases.
    + right. apply (Hsim i j); try lia; [intros r Hr|];
        clear - Epi Nki Nkj Hij; swapped_cases.
  - destruct (N.eq_dec k j) as [Ekj|Nkj]; [|destruct (N.eq_dec k i) as [Eki|Nki]].
    + left. apply Hopp; [intros r Hr|]; clear - Epj Ekj Hij; swapped_cases.
    + left. apply Hopp; [intros r Hr|]; clear - Epj Eki Hij; swapped_cases.
    + right. apply (Hsim i j); try lia; [intros r Hr|];
        clear - Epj Nki Nkj Hij; swapped_cases.
  - destruct (N.eq_dec k i) as [Eki|Nki]; [|destruct (N.eq_dec k j) as [Ekj|Nkj]].
    + right. apply (Hsim p j); try lia; [intros r Hr|];
        clear - Npi Npj Eki Hij; swapped_cases.
    + right. apply (Hsim i p); try lia; [intros r Hr|];
        clear - Npi Npj Ekj Hij; swapped_cases.
    + right. apply (Hsim i j); try lia; [intros r Hr|];
        clear - Npi Npj Nki Nkj Hij; swapped_cases.
Qed.

(** With the pivot row in place in both runs, the rest of the iteration
    keeps the two matrices related by the same exchange of rows. *)
Lemma elim_sim n k st1 st1' :
  sim n (k + 1) st1 st1' -> k < n ->
  pivot_step n k st1 = Some st1 -> pivot_step n k st1' = Some st1' ->
  exists o o', lu_step n k st1 = Some o /\ lu_step n k st1' = Some o' /\
    match o, o' with
    | Return r _, Return r' _ => r = LD.zero /\ r' = LD.zero
    | Continue s, Continue s' => sim n (k + 1) s s'
    | _, _ => False
    end.
Proof.
  intros ([Hw Hp] & [Hw' Hp'] & Hd & Hs & Hpm & i & j & Hi & Hj & Hij & Hrows) Hk Hin Hin'.
  unfold lu_step. rewrite Hin, Hin'. simpl.
  assert (Hfix : forall r, r <= k -> swapped i j r = r) by (intros r Hr; swapped_cases).
  assert (Hrow_k : forall c, c < n -> get n (mat st1') k c = get n (mat st1) k c).
  { intros c Hc. rewrite Hrows by assumption. rewrite Hfix by lia. reflexivity. }
  rewrite (Hrow_k k Hk).
  destruct (get_total n (mat st1) k k Hw Hk Hk) as [pv ->]. simpl.
  destruct (LD.lt (LD.fabsl pv) LD.eps).
  - eexists _, _. split; [reflexivity|]. split; [reflexivity|]. split; reflexivity.
  - destruct (eliminate_spec n k pv (mat st1) Hw Hk) as (b & -> & Hwb & Hgb).
    destruct (eliminate_spec n k pv (mat st1') Hw' Hk) as (b' & -> & Hwb' & Hgb').
    simpl. eexists _, _. split; [reflexivity|]. split; [reflexivity|].
    split; [split; assumption|]. split; [split; assumption|]. simpl.
    split; [congruence|]. split; [assumption|]. split; [assumption|].
    exists i, j. repeat (split; [assumption|]). intros r c Hr Hc.
    rewrite Hgb' by assumption. rewrite Hgb by (try apply swapped_lt; lia).
    apply eliminated_ext; try assumption.
    + clear - Hi Hj. unfold swapped.
      destruct (N.eqb_spec r i), (N.eqb_spec r j), (N.leb_spec r k), (N.leb_spec i k),
        (N.leb_spec j k); try reflexivity; lia.
    + intros c' Hc'. now apply Hrows.
Qed.

Lemma lu_step_sim n k st st' :
  sim n k st st' -> k < n -> strict_pivot n k (mat st) ->
  exists o o', lu_step n k st = Some o /\ lu_step n k st' = Some o' /\
    match o, o' with
    | Return r _, Return r' _ => r = LD.zero /\ r' = LD.zero
    | Continue s, Continue s' =>
        (wf_state n s /\ wf_state n s' /\ opposite s s') \/ sim n (k + 1) s s'
    | _, _ => False
    end.
Proof.
  intros Hsim Hk Hstrict.
  destruct (pivot_sim n k st st' Hsim Hk Hstrict)
    as (st1 & st1' & H1 & H1' & Hin & Hin' & Hw1 & Hw1' & [Hopp|Hsim1]).
  - destruct (lu_step_opposite n k st1 st1' Hw1 Hw1' Hk Hopp)
      as (o & o' & Ho & Ho' & Hoo & Hwo & Hwo').
    exists o, o'.
    rewrite (lu_step_after_pivot n k st st1 H1 Hin), Ho.
    rewrite (lu_step_after_pivot n k st' st1' H1' Hin'), Ho'.
    split; [reflexivity|]. split; [reflexivity|].
    destruct o, o'; simpl in *; try contradiction; [tauto|left; auto].
  - destruct (elim_sim n k st1 st1' Hsim1 Hk Hin Hin') as (o & o' & Ho & Ho' & Hoo).
    exists o, o'.
    rewrite (lu_step_after_pivot n k st st1 H1 Hin), Ho.
    rewrite (lu_step_after_pivot n k st' st1' H1' Hin'), Ho'.
    split; [reflexivity|]. split; [reflexivity|].
    destruct o, o'; simpl in *; try contradiction; [tauto|right; auto].
Qed.

Lemma opposite_negated o o' : opposite_outcome o o' -> negated_outcome o o'.
Proof.
  destruct o, o'; simpl; try tauto. unfold opposite. tauto.
Qed.

Lemma lu_loop_sim count n k st st' :
  sim n k st st' -> k + N.of_nat count = n -> no_ties_from count n k st ->
  exists o o', lu_loop count n k st = Some o /\ lu_loop count n k st' = Some o' /\
    negated_outcome o o'.
Proof.
  revert k st st'. induction count as [|c IH]; intros k st st' Hsim Hk Hties.
  - exfalso. destruct Hsim as (_ & _ & _ & _ & _ & i & j & Hi & _). lia.
  - destruct Hties as [Hstrict Hrest]. simpl.
    destruct (lu_step_sim n k st st' Hsim) as (o & o' & Ho & Ho' & Hoo);
      [lia|assumption|].
    rewrite Ho in Hrest. rewrite Ho, Ho'.
    destruct o as [r s|s], o' as [r' s'|s']; try contradiction.
    + exists (Return r s), (Return r' s'). auto.
    + destruct Hoo as [(Hw & Hw' & Hopp)|Hsim'].
      * destruct (lu_loop_opposite c n (N.succ k) s s' Hw Hw' ltac:(lia) Hopp)
          as (o & o' & H & H' & Hoo).
        exists o, o'. repeat (split; [assumption|]). now apply opposite_negated.
      * apply IH; [|lia|assumption].
        now replace (N.succ k) with (k + 1) by lia.
Qed.

(** C9, as the code has it: when the pivot search never meets a tie in
    the run on [M] (in every column reached, one row is strictly above the
    others, which also excludes a NaN among them), exchanging two distinct
    rows of [M] before the call makes both calls meet the threshold and
    return [0.0], or makes the second return the opposite of the first;
    [det(swap(M)) == -det(M)] holds whenever the value is not a NaN. *)
Theorem swap_rows_negates_without_ties n buf i j :
  wf_buf n buf -> i < n -> j < n -> i <> j -> no_ties n buf ->
  exists buf' r r' b b',
    swapRows n buf i j = Some buf' /\
    calculateDeterminant n buf = Some (r, b) /\
    calculateDeterminant n buf' = Some (r', b') /\
    ((r = LD.zero /\ r' = LD.zero) \/ r' = LD.opp r) /\
    (LD.is_nan r = false -> LD.eqb r' (LD.opp r) = true).
Proof.
  intros Hw Hi Hj Hij Hties.
  assert (Hn : 2 <= n) by lia.
  destruct (swapRows_spec n buf i j Hw Hi Hj) as (buf' & Hswap & Hw' & Hget).
  pose (st := init_state n buf).
  pose (st' := init_state n buf').
  assert (Hsim : sim n 0 st st').
  { split; [split; [assumption|apply init_pivot_length]|].
    split; [split; [assumption|apply init_pivot_length]|].
    split; [reflexivity|]. split; [reflexivity|]. split; [now left|].
    exists i, j. repeat (split; [lia || assumption|]). exact Hget. }
  destruct (lu_loop_sim (N.to_nat n) n 0 st st' Hsim ltac:(lia) Hties)
    as (o & o' & Ho & Ho' & Hoo).
  exists buf', (fst (result_of o)), (fst (result_of o')),
         (snd (result_of o)), (snd (result_of o')).
  split; [assumption|].
  split; [rewrite calculateDeterminant_loop by assumption; fold st; rewrite Ho;
          simpl; now destruct (result_of o)|].
  split; [rewrite calculateDeterminant_loop by assumption; fold st'; rewrite Ho';
          simpl; now destruct (result_of o')|].
  destruct o as [r s|s], o' as [r' s'|s']; simpl in Hoo; try contradiction; simpl.
  - destruct Hoo as [-> ->]. split; [now left|reflexivity].
  - destruct Hoo as (Hd & Hs & Hpm).
    assert (E : LD.mul (det s') (LD.of_Z (sign s'))
                = LD.opp (LD.mul (det s) (LD.of_Z (sign s)))).
    { rewrite Hd, Hs. now apply mul_opposite_sign. }
    split; [now right|]. intros Hnan. rewrite E. apply eqb_refl.
    now rewrite is_nan_opp.
Qed.

Lemma swap_rows_negates_without_ties_witness :
  exists buf' r r' b b',
    swapRows 2 m22 0 1 = Some buf' /\
    calculateDeterminant 2 m22 = Some (r, b) /\
    calculateDeterminant 2 buf' = Some (r', b') /\
    LD.eqb r' (LD.opp r) = true.
Proof.
  destruct (swap_rows_negates_without_ties 2 m22 0 1)
    as (buf' & r & r' & b & b' & H1 & H2 & H3 & _ & H4).
  - split; reflexivity.
  - reflexivity.
  - reflexivity.
  - discriminate.
  - unfold no_ties. change (N.to_nat 2) with 2%nat. cbn [no_ties_from]. split.
    + exists 1, (lit 3). split; [lia|]. split; [vm_compute; reflexivity|].
      intros r y Hr Hne Hy. assert (r = 0) as -> by lia.
      vm_compute in Hy. injection Hy as <-. vm_compute. reflexivity.
    + destruct (lu_step 2 0 (init_state 2 m22)) as [[r s|s]|] eqn:E; try exact I.
      vm_compute in E. injection E as <-. split.
      * exists 1, (S754_finite false 12297829382473034410 (-64)).
        split; [lia|]. split; [vm_compute; reflexivity|]. intros r y Hr Hne. lia.
      * now destruct (lu_step _ _ _) as [[]|].
  - exists buf', r, r', b, b'. repeat (split; [assumption|]). apply H4.
    vm_compute in H2. now injection H2 as <- _.
Defined.

End NoTies.

(** * Further properties of the code *)

(** ** Indexing and row exchange *)

Module BufferMore.

Import Buffer BufferFacts EngineSpec SwapFacts NoTies Samples.

(** X1: when [n * n] does not wrap around, [Matrix::index] is the
    row-major position [i * n + j], it lies inside the buffer, and two
    different elements never share a position. *)
Theorem index_is_row_major n i j :
  fits n -> i < n -> j < n ->
  index n i j = i * n + j /\ index n i j < n * n /\
  forall i' j', i' < n -> j' < n -> index n i j = index n i' j' -> i = i' /\ j = j'.
Proof.
  intros Hf Hi Hj. destruct (index_in_range n i j Hf Hi Hj) as [E Hlt].
  split; [assumption|]. split; [now rewrite E|].
  intros i' j' Hi' Hj'. now apply index_inj.
Qed.

Lemma index_is_row_major_witness :
  index 3 2 1 = 7 /\ index 3 2 1 < 9.
Proof.
  destruct (index_is_row_major 3 2 1) as (H1 & H2 & _); try reflexivity.
  split; [exact H1|exact H2].
Defined.

(** X2: writing the element [(i, j)] of a well-formed matrix is defined,
    keeps the length of the buffer, makes [(i, j)] read as the value
    written, and changes no other element. *)
Theorem write_then_read n buf i j v :
  wf_buf n buf -> i < n -> j < n ->
  exists buf',
    set n buf i j v = Some buf' /\ wf_buf n buf' /\
    get n buf' i j = Some v /\
    forall r c, r < n -> c < n -> (r <> i \/ c <> j) -> get n buf' r c = get n buf r c.
Proof.
  intros Hw Hi Hj. destruct (set_total n buf i j v Hw Hi Hj) as (buf' & Hs & Hw').
  exists buf'. split; [assumption|]. split; [assumption|]. split.
  - rewrite (get_set n buf i j v buf' i j Hw Hi Hj Hi Hj Hs).
    now rewrite decide_True.
  - intros r c Hr Hc Hne. rewrite (get_set n buf i j v buf' r c Hw Hi Hj Hr Hc Hs).
    rewrite decide_False; [reflexivity|tauto].
Qed.

Lemma write_then_read_witness :
  exists buf', set 2 m22 1 0 (lit 7) = Some buf' /\ get 2 buf' 1 0 = Some (lit 7).
Proof.
  destruct (write_then_read 2 m22 1 0 (lit 7)) as (buf' & H1 & _ & H2 & _).
  - split; reflexivity.
  - reflexivity.
  - reflexivity.
  - exists buf'. split; assumption.
Defined.

(** X3: [swapRows(i, j)] on a well-formed matrix is defined and exchanges
    the two rows element by element; every other row is left as it was. *)
Theorem swapRows_exchanges_rows n buf i j :
  wf_buf n buf -> i < n -> j < n ->
  exists buf',
    swapRows n buf i j = Some buf' /\ wf_buf n buf' /\
    forall c, c < n ->
      get n buf' i c = get n buf j c /\
      get n buf' j c = get n buf i c /\
      forall r, r < n -> r <> i -> r <> j -> get n buf' r c = get n buf r c.
Proof.
  intros Hw Hi Hj. destruct (swapRows_spec n buf i j Hw Hi Hj) as (buf' & Hs & Hw' & Hget).
  exists buf'. split; [assumption|]. split; [assumption|]. intros c Hc.
  split; [|split].
  - rewrite (Hget i c Hi Hc). unfold swapped. now rewrite N.eqb_refl.
  - rewrite (Hget j c Hj Hc). unfold swapped. rewrite N.eqb_refl.
    now destruct (N.eqb_spec j i) as [->|].
  - intros r Hr Hri Hrj. rewrite (Hget r c Hr Hc). unfold swapped.
    destruct (N.eqb_spec r i); [contradiction|].
    now destruct (N.eqb_spec r j).
Qed.

Lemma swapRows_exchanges_rows_witness :
  exists buf', swapRows 2 m22 0 1 = Some buf' /\ get 2 buf' 0 1 = Some (lit 4).
Proof.
  destruct (swapRows_exchanges_rows 2 m22 0 1) as (buf' & H1 & _ & H2).
  - split; reflexivity.
  - reflexivity.
  - reflexivity.
  - exists buf'. split; [assumption|].
    destruct (H2 1) as (E & _); [reflexivity|]. rewrite E. reflexivity.
Defined.

(** X4: exchanging the same two rows twice gives the matrix back, and the
    order of the two row indices does not matter. *)
Theorem swapRows_twice n buf i j :
  wf_buf n buf -> i < n -> j < n ->
  exists buf',
    swapRows n buf i j = Some buf' /\ swapRows n buf' i j = Some buf /\
    swapRows n buf j i = Some buf'.
Proof.
  intros Hw Hi Hj.
  destruct (swapRows_spec n buf i j Hw Hi Hj) as (b1 & H1 & Hw1 & Hg1).
  destruct (swapRows_spec n b1 i j Hw1 Hi Hj) as (b2 & H2 & Hw2 & Hg2).
  destruct (swapRows_spec n buf j i Hw Hj Hi) as (b3 & H3 & Hw3 & Hg3).
  exists b1. split; [assumption|]. split.
  - rewrite H2. f_equal. apply (buf_ext n); try assumption.
    intros r c Hr Hc. rewrite (Hg2 r c Hr Hc).
    rewrite Hg1 by (try apply swapped_lt; assumption).
    now rewrite swapped_involutive.
  - rewrite H3. f_equal. apply (buf_ext n); try assumption.
    intros r c Hr Hc. rewrite (Hg3 r c Hr Hc), (Hg1 r c Hr Hc).
    f_equal. clear. unfold swapped.
    destruct (N.eqb_spec r j), (N.eqb_spec r i); congruence.
Qed.

Lemma swapRows_twice_witness :
  exists buf', swapRows 2 m22 0 1 = Some buf' /\ swapRows 2 buf' 0 1 = Some m22.
Proof.
  destruct (swapRows_twice 2 m22 0 1) as (buf' & H1 & H2 & _).
  - split; reflexivity.
  - reflexivity.
  - reflexivity.
  - exists buf'. split; assumption.
Defined.

End BufferMore.

(** ** The main loop *)

Module EngineMore.

Import Buffer BufferFacts Engine EngineSpec EngineFacts LDOrder LDFacts SwapFacts
  PivotFacts SwapClaims NoTies MoreSpec Samples.

Lemma pivot_step_record n k st st1 :
  pivot_step n k st = Some st1 ->
  pivot st1 ≡ₚ pivot st /\ (sign st1 = sign st \/ sign st1 = (- sign st)%Z).
Proof.
  unfold pivot_step. destruct (find_pivot n k (mat st)) as [[mv p]|]; [simpl|discriminate].
  destruct (N.eqb p k); [intros [= <-]; auto|].
  destruct (swapRows n (mat st) k p) as [b|]; [simpl|discriminate].
  destruct (swap_pivot k p (pivot st)) as [piv|] eqn:E; [simpl|discriminate].
  intros [= <-]. simpl. split; [|now right].
  unfold swap_pivot in E.
  destruct (pivot st !! N.to_nat k) as [a|] eqn:Ha; [simpl in E|discriminate].
  destruct (pivot st !! N.to_nat p) as [c|] eqn:Hc; [simpl in E|discriminate].
  injection E as <-. now apply Permutation_insert_swap.
Qed.

Lemma lu_step_record n k st o :
  lu_step n k st = Some o ->
  pivot (outcome_state o) ≡ₚ pivot st /\
  (sign (outcome_state o) = sign st \/ sign (outcome_state o) = (- sign st)%Z).
Proof.
  unfold lu_step. destruct (pivot_step n k st) as [st1|] eqn:E; [simpl|discriminate].
  apply pivot_step_record in E.
  destruct (get n (mat st1) k k) as [pv|]; [simpl|discriminate].
  destruct (LD.lt _ _); [now intros [= <-]|].
  destruct (for_range _ _ _ _) as [b|]; [simpl|discriminate].
  now intros [= <-].
Qed.

Lemma lu_loop_record count n k st o :
  lu_loop count n k st = Some o ->
  pivot (outcome_state o) ≡ₚ pivot st /\
  (sign (outcome_state o) = sign st \/ sign (outcome_state o) = (- sign st)%Z).
Proof.
  revert k st. induction count as [|c IH]; intros k st H; simpl in H.
  - injection H as <-. auto.
  - destruct (lu_step n k st) as [[r st1|st1]|] eqn:E; [| |discriminate].
    + injection H as <-. now apply lu_step_record in E.
    + apply lu_step_record in E as [Hp Hs]. apply IH in H as [Hp' Hs'].
      simpl in Hp, Hs. split; [now rewrite Hp'|]. lia.
Qed.

(** X5: however far the main loop gets, and whether it ends at the
    threshold or not, the permutation record [pivot] is a rearrangement of
    [0, 1, ..., n-1] without repetition, and [sign] is [+1] or [-1], so that
    [sign = -sign] never overflows. *)
Theorem pivot_record_is_a_permutation count n buf o :
  lu_loop count n 0 (init_state n buf) = Some o ->
  pivot (outcome_state o) ≡ₚ map N.of_nat (seq 0 (N.to_nat n)) /\
  NoDup (pivot (outcome_state o)) /\
  (sign (outcome_state o) = 1 \/ sign (outcome_state o) = -1)%Z.
Proof.
  intros H. apply lu_loop_record in H as [Hp Hs]. simpl in Hp, Hs.
  split; [exact Hp|]. split; [|lia].
  rewrite Hp. apply NoDup_fmap_2; [intros a b E; lia|apply NoDup_seq].
Qed.

Lemma pivot_record_is_a_permutation_witness :
  pivot st22 ≡ₚ [0; 1] /\ (sign st22 = 1 \/ sign st22 = -1)%Z.
Proof.
  destruct (pivot_record_is_a_permutation 2 2 m22 (Continue st22)) as (H1 & _ & H2).
  - vm_compute. reflexivity.
  - split; [exact H1|exact H2].
Defined.

(** X6: an iteration of the main loop that goes on to column [k + 1]
    multiplies [det] by the pivot and rewrites the matrix in place: rows up
    to [k] and columns before [k] stay as the pivot step left them, the
    element [(i, k)] of a row below the pivot holds the multiplier
    [m(i,k) / pivot], and the element [(i, j)], [i, j > k], holds
    [m(i,j) - multiplier * m(k,j)]. *)
Theorem iteration_stores_the_factors n k st st' :
  wf_state n st -> k < n -> lu_step n k st = Some (Continue st') ->
  exists st1 pv,
    pivot_step n k st = Some st1 /\ get n (mat st1) k k = Some pv /\
    det st' = LD.mul (det st1) pv /\ wf_state n st' /\
    (forall r c, r < n -> c < n -> r <= k \/ c < k ->
       get n (mat st') r c = get n (mat st1) r c) /\
    (forall r, k < r < n ->
       exists x, get n (mat st1) r k = Some x /\
         get n (mat st') r k = Some (LD.div x pv)) /\
    (forall r c, k < r < n -> k < c < n ->
       exists x y z,
         get n (mat st1) r k = Some x /\ get n (mat st1) r c = Some y /\
         get n (mat st1) k c = Some z /\
         get n (mat st') r c = Some (LD.sub y (LD.mul (LD.div x pv) z))).
Proof.
  intros Hw Hk. unfold lu_step.
  destruct (pivot_step_total n k st Hw Hk) as (st1 & -> & [Hw1 Hp1]). simpl.
  destruct (get_total n (mat st1) k k Hw1 Hk Hk) as [pv Hpv]. rewrite Hpv. simpl.
  destruct (LD.lt _ _); [discriminate|].
  destruct (eliminate_spec n k pv (mat st1) Hw1 Hk) as (b & -> & Hwb & Hget).
  simpl. intros [= <-]. exists st1, pv. simpl.
  split; [reflexivity|]. split; [assumption|]. split; [reflexivity|].
  split; [split; assumption|]. split; [|split].
  - intros r c Hr Hc Hrc. rewrite (Hget r c Hr Hc). unfold eliminated.
    destruct (N.leb_spec r k), (N.ltb_spec c k); simpl; try reflexivity; lia.
  - intros r Hr. destruct (get_total n (mat st1) r k Hw1) as [x Hx]; [lia..|].
    exists x. split; [assumption|]. rewrite Hget by lia. unfold eliminated.
    replace (N.leb r k) with false by (symmetry; apply N.leb_gt; lia).
    replace (N.ltb k k) with false by (symmetry; apply N.ltb_irrefl).
    simpl. rewrite Hx. simpl. now rewrite N.eqb_refl.
  - intros r c Hr Hc.
    destruct (get_total n (mat st1) r k Hw1) as [x Hx]; [lia..|].
    destruct (get_total n (mat st1) r c Hw1) as [y Hy]; [lia..|].
    destruct (get_total n (mat st1) k c Hw1) as [z Hz]; [lia..|].
    exists x, y, z. repeat (split; [assumption|]).
    rewrite Hget by lia. unfold eliminated.
    replace (N.leb r k) with false by (symmetry; apply N.leb_gt; lia).
    replace (N.ltb c k) with false by (symmetry; apply N.ltb_ge; lia).
    replace (N.eqb c k) with false by (symmetry; apply N.eqb_neq; lia).
    simpl. rewrite Hx. simpl. now rewrite Hy, Hz.
Qed.

Lemma iteration_stores_the_factors_witness :
  exists st', lu_step 2 0 (init_state 2 m22) = Some (Continue st') /\
    get 2 (mat st') 1 0 = Some (LD.div (lit 1) (lit 3)).
Proof.
  destruct (lu_step 2 0 (init_state 2 m22)) as [[r st'|st']|] eqn:E;
    try (vm_compute in E; discriminate).
  destruct (iteration_stores_the_factors 2 0 (init_state 2 m22) st')
    as (st1 & pv & H1 & H2 & _ & _ & _ & H3 & _).
  - split; [split; reflexivity|reflexivity].
  - reflexivity.
  - exact E.
  - exists st'. split; [reflexivity|].
    destruct (H3 1) as (x & Hx & ->); [lia|].
    vm_compute in H1. injection H1 as <-.
    vm_compute in H2. injection H2 as <-.
    vm_compute in Hx. injection Hx as <-. reflexivity.
Defined.

(** X7: when every element of column 0 is below the threshold in
    magnitude, [calculateDeterminant] returns [0.0] from its first
    iteration, whatever the rest of the matrix holds; the matrix is left
    with at most two rows exchanged. *)
Theorem small_first_column_gives_zero n buf :
  wf_buf n buf -> 2 <= n ->
  (forall r y, r < n -> get n buf r 0 = Some y -> LD.lt (LD.fabsl y) LD.eps = true) ->
  exists p buf',
    p < n /\ swapRows n buf 0 p = Some buf' /\
    calculateDeterminant n buf = Some (LD.zero, buf').
Proof.
  intros Hw Hn Hsmall.
  destruct (find_pivot_spec n 0 buf Hw) as (mv & p & Hfind & Hr & x & Hx & _); [lia|].
  assert (Hws : wf_state n (init_state n buf))
    by (split; [assumption|apply init_pivot_length]).
  destruct (pivot_step_spec n 0 (init_state n buf) mv p Hws) as (st1 & H1 & _ & _ & _ & Hg);
    [lia|lia|assumption|].
  destruct (swapRows_spec n buf 0 p Hw) as (buf' & Hswap & Hw' & Hget); [lia..|].
  assert (Hmat : mat st1 = buf').
  { apply (buf_ext n); [assumption| |].
    - destruct (pivot_step_total n 0 (init_state n buf) Hws) as (s & Hs & [Hws1 _]); [lia|].
      rewrite H1 in Hs. now injection Hs as ->.
    - intros r c Hr' Hc. now rewrite Hg, Hget. }
  exists p, buf'. split; [lia|]. split; [assumption|].
  rewrite calculateDeterminant_loop by assumption.
  destruct (N.to_nat n) as [|c] eqn:Hc; [lia|]. simpl. unfold lu_step.
  rewrite H1. simpl. rewrite Hmat, (Hget 0 0) by lia.
  unfold swapped. rewrite N.eqb_refl, Hx. simpl.
  rewrite (Hsmall p x); [simpl|lia|assumption]. now rewrite Hmat.
Qed.

Lemma small_first_column_gives_zero_witness :
  fst <$> calculateDeterminant 2 (map lit [0; 1; 0; 2]%Z) = Some LD.zero.
Proof.
  destruct (small_first_column_gives_zero 2 (map lit [0; 1; 0; 2]%Z))
    as (p & buf' & _ & _ & ->).
  - split; reflexivity.
  - discriminate.
  - intros r y Hr Hy.
    assert (r = 0 \/ r = 1) as [-> | ->] by lia;
      vm_compute in Hy; injection Hy as <-; reflexivity.
  - reflexivity.
Defined.

End EngineMore.

(** ** Triangular matrices *)

Module TriangularMore.

Import Buffer BufferFacts Engine EngineSpec EngineFacts LDOrder LDFacts SwapFacts
  PivotFacts SwapClaims NoTies MoreSpec Samples.

Section Triangular.

Variables L U Q : long_double -> Prop.

Hypothesis below_pivot : forall z d, L z -> Q d -> LD.gt (LD.fabsl z) (LD.fabsl d) = false.
Hypothesis above_threshold : forall d, Q d -> LD.lt (LD.fabsl d) LD.eps = false.
Hypothesis factor_low : forall z d, L z -> Q d -> L (LD.div z d).
Hypothesis update_low :
  forall a b c d, L a -> L b -> U c -> Q d -> L (LD.sub a (LD.mul (LD.div b d) c)).
Hypothesis update_up :
  forall a b c d, U a -> L b -> U c -> Q d -> U (LD.sub a (LD.mul (LD.div b d) c)).
Hypothesis update_diag :
  forall y b c d, Q y -> L b -> U c -> Q d -> LD.sub y (LD.mul (LD.div b d) c) = y.

Lemma below_diagonal n buf r c x :
  triangular_shape L U Q n buf -> r < n -> c < r -> get n buf r c = Some x -> L x.
Proof.
  intros H Hr Hc Hx. specialize (H r c x Hr ltac:(lia) Hx).
  destruct (N.eqb_spec r c); [lia|]. now destruct (N.ltb_spec c r); [|lia].
Qed.

Lemma above_diagonal n buf r c x :
  triangular_shape L U Q n buf -> c < n -> r < c -> get n buf r c = Some x -> U x.
Proof.
  intros H Hc Hr Hx. specialize (H r c x ltac:(lia) Hc Hx).
  destruct (N.eqb_spec r c); [lia|]. now destruct (N.ltb_spec c r); [lia|].
Qed.

Lemma on_diagonal n buf r x :
  triangular_shape L U Q n buf -> r < n -> get n buf r r = Some x -> Q x.
Proof.
  intros H Hr Hx. specialize (H r r x Hr Hr Hx). now rewrite N.eqb_refl in H.
Qed.

Lemma triangular_step n k st :
  wf_state n st -> k < n -> triangular_shape L U Q n (mat st) ->
  exists d st',
    get n (mat st) k k = Some d /\ lu_step n k st = Some (Continue st') /\
    wf_state n st' /\ triangular_shape L U Q n (mat st') /\
    (forall r, r < n -> get n (mat st') r r = get n (mat st) r r) /\
    det st' = LD.mul (det st) d /\ sign st' = sign st.
Proof.
  intros [Hw Hp] Hk Hshape.
  destruct (get_total n (mat st) k k Hw Hk Hk) as [d Hd].
  assert (HQ : Q d) by exact (on_diagonal n _ k d Hshape Hk Hd).
  assert (Hstay : pivot_step n k st = Some st).
  { unfold pivot_step. rewrite (find_pivot_stays n k (mat st) d Hw Hk Hd).
    - simpl. now rewrite N.eqb_refl.
    - intros r y Hr Hy. apply below_pivot; [|assumption].
      apply (below_diagonal n (mat st) r k y Hshape); [lia|lia|assumption]. }
  destruct (eliminate_spec n k d (mat st) Hw Hk) as (b & Hb & Hwb & Hget).
  assert (Hval : forall r c, r < n -> c < n ->
            get n b r c = Some
              match get n (mat st) r c with Some x => x | None => d end
            \/ (r <> c /\ exists x, get n b r c = Some x /\
                  if N.ltb c r then L x else U x)).
  { intros r c Hr Hc. rewrite (Hget r c Hr Hc). unfold eliminated.
    destruct (get_total n (mat st) r c Hw Hr Hc) as [y Hy].
    destruct (N.leb_spec r k) as [Hrk|Hrk]; simpl; [left; now rewrite Hy|].
    destruct (N.ltb_spec c k) as [Hck|Hck]; simpl; [left; now rewrite Hy|].
    destruct (get_total n (mat st) r k Hw Hr Hk) as [x0 Hx0]. rewrite Hx0. simpl.
    assert (HL0 : L x0)
      by (apply (below_diagonal n (mat st) r k x0 Hshape); [lia..|assumption]).
    destruct (N.eqb_spec c k) as [->|Hne].
    - right. split; [lia|]. eexists. split; [reflexivity|].
      destruct (N.ltb_spec k r); [|lia]. now apply factor_low.
    - destruct (get_total n (mat st) k c Hw Hk Hc) as [z Hz]. rewrite Hy, Hz. simpl.
      assert (HUz : U z)
        by (apply (above_diagonal n (mat st) k c z Hshape); [lia..|assumption]).
      destruct (N.eq_dec r c) as [->|Hrc].
      + left. rewrite update_diag; try assumption; [reflexivity|].
        exact (on_diagonal n _ c y Hshape Hc Hy).
      + right. split; [assumption|]. eexists. split; [reflexivity|].
        destruct (N.ltb_spec c r).
        * apply update_low; try assumption.
          apply (below_diagonal n (mat st) r c y Hshape); assumption.
        * apply update_up; try assumption.
          apply (above_diagonal n (mat st) r c y Hshape); [assumption|lia|assumption]. }
  exists d, (LuState b (pivot st) (LD.mul (det st) d) (sign st)).
  split; [assumption|]. split.
  { unfold lu_step. rewrite Hstay. simpl. rewrite Hd. simpl.
    rewrite (above_threshold d HQ). now rewrite Hb. }
  split; [split; assumption|]. simpl. split; [|split; [|split; reflexivity]].
  - intros r c x Hr Hc Hx.
    destruct (Hval r c Hr Hc) as [E|(Hne & x' & E & HP)]; rewrite E in Hx;
      injection Hx as <-.
    + destruct (get_total n (mat st) r c Hw Hr Hc) as [y Hy]. rewrite Hy.
      exact (Hshape r c y Hr Hc Hy).
    + now destruct (N.eqb_spec r c).
  - intros r Hr. destruct (Hval r r Hr Hr) as [E|(Hne & _)]; [|contradiction].
    rewrite E. now destruct (get_total n (mat st) r r Hw Hr Hr) as [y ->].
Qed.

Lemma diag_from_ext count n k b b' :
  (forall r, r < n -> get n b' r r = get n b r r) -> k + N.of_nat count <= n ->
  diag_from count n k b' = diag_from count n k b.
Proof.
  intros H. revert k. induction count as [|c IH]; intros k Hk; simpl; [reflexivity|].
  rewrite H by lia. destruct (get n b k k); [|reflexivity].
  f_equal. apply IH. lia.
Qed.

Lemma triangular_loop count n k st :
  wf_state n st -> k + N.of_nat count <= n -> triangular_shape L U Q n (mat st) ->
  exists st',
    lu_loop count n k st = Some (Continue st') /\
    wf_state n st' /\ triangular_shape L U Q n (mat st') /\
    (forall r, r < n -> get n (mat st') r r = get n (mat st) r r) /\
    det st' = fold_left LD.mul (diag_from count n k (mat st)) (det st) /\
    sign st' = sign st.
Proof.
  revert k st. induction count as [|c IH]; intros k st Hw Hk Hshape.
  - exists st. simpl. split; [reflexivity|]. split; [assumption|].
    split; [assumption|]. split; [reflexivity|]. split; reflexivity.
  - destruct (triangular_step n k st Hw ltac:(lia) Hshape)
      as (d & st1 & Hd & Hstep & Hw1 & Hs1 & Hdiag1 & Hdet1 & Hsign1).
    destruct (IH (N.succ k) st1 Hw1 ltac:(lia) Hs1)
      as (st' & Hrun & Hw' & Hs' & Hdiag' & Hdet' & Hsign').
    exists st'. simpl. rewrite Hstep, Hd. simpl.
    split; [assumption|]. split; [assumption|]. split; [assumption|].
    split; [intros r Hr; now rewrite Hdiag', Hdiag1|].
    split; [|congruence].
    rewrite Hdet', Hdet1. f_equal. apply diag_from_ext; [assumption|lia].
Qed.

End Triangular.

Lemma zero_below_threshold s : LD.lt (LD.fabsl (S754_zero s)) LD.eps = true.
Proof. destruct s; vm_compute; reflexivity. Qed.

Lemma one_above_threshold : LD.lt (LD.fabsl LD.one) LD.eps = false.
Proof. vm_compute. reflexivity. Qed.

Lemma accepted_number d : accepted d -> number d.
Proof.
  intros [Hnan Hlt]. destruct d as [s|s| |s m e]; try exact I.
  - now rewrite zero_below_threshold in Hlt.
  - discriminate.
Qed.

Lemma div_zero_number z d : is_zero z = true -> number d -> is_zero (LD.div z d) = true.
Proof. destruct z, d; simpl; try discriminate; try contradiction; reflexivity. Qed.

Lemma factor_times_row b c d :
  is_zero b = true -> finite_or_zero c -> number d ->
  is_zero (LD.mul (LD.div b d) c) = true.
Proof.
  destruct b as [sb| | |]; try discriminate.
  destruct c as [sc|sc| |sc mc ec]; try contradiction;
    destruct d as [sd|sd| |sd md ed]; try contradiction; reflexivity.
Qed.

Lemma sub_zero_low a z :
  is_zero a = true -> is_zero z = true -> is_zero (LD.sub a z) = true.
Proof.
  destruct a as [sa| | |], z as [sz| | |]; try discriminate.
  intros _ _. now destruct sa, sz.
Qed.

Lemma sub_zero_up a z :
  finite_or_zero a -> is_zero z = true -> finite_or_zero (LD.sub a z).
Proof.
  destruct z as [sz| | |]; try discriminate.
  destruct a as [sa|sa| |sa ma ea]; try contradiction; intros _ _;
    [now destruct sa, sz|exact I].
Qed.

Lemma sub_zero_number y z : number y -> is_zero z = true -> LD.sub y z = y.
Proof.
  destruct z as [sz| | |]; try discriminate.
  now destruct y as [sy|sy| |sy my ey].
Qed.

Lemma zero_not_above z d : is_zero z = true -> LD.gt (LD.fabsl z) (LD.fabsl d) = false.
Proof. destruct z; try discriminate. intros _. now destruct d. Qed.

(** X8: on an upper triangular matrix (a diagonal matrix is one) whose
    elements below the diagonal are zeros, whose elements above it are
    finite, and whose diagonal elements are not NaN and not below the
    threshold, no rows are exchanged and the value returned is the product
    of the diagonal elements, multiplied in order into [1.0], times the sign
    [+1]; the matrix left behind is upper triangular, with the same
    diagonal. *)
Theorem triangular_matrix_gives_product n buf :
  wf_buf n buf -> 2 <= n ->
  triangular_shape (fun z => is_zero z = true) finite_or_zero accepted n buf ->
  exists buf',
    calculateDeterminant n buf
    = Some (LD.mul (fold_left LD.mul (diag_from (N.to_nat n) n 0 buf) LD.one)
              (LD.of_Z 1), buf') /\
    wf_buf n buf' /\
    triangular_shape (fun z => is_zero z = true) finite_or_zero accepted n buf' /\
    forall r, r < n -> get n buf' r r = get n buf r r.
Proof.
  intros Hw Hn Hshape.
  destruct (triangular_loop (fun z => is_zero z = true) finite_or_zero accepted) with
    (count := N.to_nat n) (n := n) (k := 0) (st := init_state n buf)
    as (st' & Hrun & [Hw' _] & Hs' & Hdiag & Hdet & Hsign).
  - intros z d Hz _. now apply zero_not_above.
  - intros d [_ H]. exact H.
  - intros z d Hz Hd. apply div_zero_number; [assumption|now apply accepted_number].
  - intros a b c d Ha Hb Hc Hd. apply sub_zero_low; [assumption|].
    apply factor_times_row; try assumption. now apply accepted_number.
  - intros a b c d Ha Hb Hc Hd. apply sub_zero_up; [assumption|].
    apply factor_times_row; try assumption. now apply accepted_number.
  - intros y b c d Hy Hb Hc Hd. apply sub_zero_number; [now apply accepted_number|].
    apply factor_times_row; try assumption. now apply accepted_number.
  - split; [assumption|apply init_pivot_length].
  - lia.
  - exact Hshape.
  - exists (mat st'). rewrite calculateDeterminant_loop by assumption.
    rewrite Hrun. simpl. rewrite Hdet, Hsign. simpl.
    split; [reflexivity|]. split; [assumption|]. split; assumption.
Qed.

Lemma triangular_matrix_gives_product_witness :
  fst <$> calculateDeterminant 3 (map lit [2; 5; 7; 0; 3; 1; 0; 0; 4]%Z)
  = Some (lit 24).
Proof.
  destruct (triangular_matrix_gives_product 3 (map lit [2; 5; 7; 0; 3; 1; 0; 0; 4]%Z))
    as (buf' & -> & _).
  - split; reflexivity.
  - discriminate.
  - intros r c x Hr Hc Hx.
    assert (r = 0 \/ r = 1 \/ r = 2) as [-> | [-> | ->]] by lia;
    assert (c = 0 \/ c = 1 \/ c = 2) as [-> | [-> | ->]] by lia;
    vm_compute in Hx; injection Hx as <-; vm_compute; auto.
  - vm_compute. reflexivity.
Defined.

Lemma fold_ones l : Forall (fun d => d = LD.one) l -> fold_left LD.mul l LD.one = LD.one.
Proof.
  induction 1 as [|d l -> _ IH]; [reflexivity|]. simpl.
  change (LD.mul LD.one LD.one) with LD.one. exact IH.
Qed.

Lemma diag_from_ones count n k buf :
  (forall r x, r < n -> get n buf r r = Some x -> x = LD.one) ->
  k + N.of_nat count <= n ->
  Forall (fun d => d = LD.one) (diag_from count n k buf).
Proof.
  intros H. revert k. induction count as [|c IH]; intros k Hk; simpl; [constructor|].
  destruct (get n buf k k) as [d|] eqn:E; [|constructor].
  constructor; [apply (H k); [lia|assumption]|apply IH; lia].
Qed.

(** X9: on the identity matrix of any dimension [calculateDeterminant]
    returns exactly [1.0] and leaves the matrix as it was. *)
Theorem identity_gives_one n buf :
  wf_buf n buf ->
  (forall r c, r < n -> c < n ->
     get n buf r c = Some (if N.eqb r c then LD.one else LD.zero)) ->
  calculateDeterminant n buf = Some (LD.one, buf).
Proof.
  intros Hw Hid.
  destruct (N.eq_dec n 0) as [->|H0]; [reflexivity|].
  destruct (N.eq_dec n 1) as [->|H1].
  { unfold calculateDeterminant. simpl. now rewrite (Hid 0 0). }
  assert (Hshape : triangular_shape (fun z => z = LD.zero) (fun z => z = LD.zero)
                     (fun d => d = LD.one) n buf).
  { intros r c x Hr Hc Hx. rewrite (Hid r c Hr Hc) in Hx. injection Hx as <-.
    destruct (N.eqb r c); [reflexivity|]. now destruct (N.ltb c r). }
  destruct (triangular_loop (fun z => z = LD.zero) (fun z => z = LD.zero)
              (fun d => d = LD.one)) with
    (count := N.to_nat n) (n := n) (k := 0) (st := init_state n buf)
    as (st' & Hrun & [Hw' _] & Hs' & Hdiag & Hdet & Hsign).
  - intros z d -> ->. reflexivity.
  - intros d ->. exact one_above_threshold.
  - intros z d -> ->. reflexivity.
  - intros a b c d -> -> -> ->. reflexivity.
  - intros a b c d -> -> -> ->. reflexivity.
  - intros y b c d -> -> -> ->. reflexivity.
  - split; [assumption|apply init_pivot_length].
  - lia.
  - exact Hshape.
  - rewrite calculateDeterminant_loop by lia. rewrite Hrun. simpl.
    rewrite Hdet, Hsign. simpl. rewrite fold_ones.
    + f_equal. f_equal. apply (buf_ext n); try assumption.
      intros r c Hr Hc. rewrite (Hid r c Hr Hc).
      destruct (get_total n (mat st') r c Hw' Hr Hc) as [x Hx]. rewrite Hx.
      specialize (Hs' r c x Hr Hc Hx). simpl in Hs'.
      destruct (N.eqb r c); [now rewrite Hs'|].
      destruct (N.ltb c r); now rewrite Hs'.
    + apply diag_from_ones; [|lia]. intros r x Hr Hx.
      rewrite (Hid r r Hr Hr), N.eqb_refl in Hx. now injection Hx as <-.
Qed.

Lemma identity_gives_one_witness :
  calculateDeterminant 2 (map lit [1; 0; 0; 1]%Z)
  = Some (LD.one, map lit [1; 0; 0; 1]%Z).
Proof.
  apply (identity_gives_one 2 (map lit [1; 0; 0; 1]%Z)).
  - split; reflexivity.
  - intros r c Hr Hc.
    assert (r = 0 \/ r = 1) as [-> | ->] by lia;
    assert (c = 0 \/ c = 1) as [-> | ->] by lia; reflexivity.
Defined.

End TriangularMore.

(** ** Ownership of the buffers *)

Module MatrixMore.

Import Matrix StoreSpec MatrixFacts MatrixClaims MoreSpec Samples.

Lemma objs_release p σ : objs (release p σ) = objs σ.
Proof. now destruct p. Qed.

Lemma no_leak_update σ a m buf' :
  no_leak σ -> objs σ !! a = Some m -> no_leak (update_buffer σ m buf').
Proof.
  intros Hn Ha. unfold update_buffer. destruct (data m) as [l|] eqn:Hl; [|assumption].
  intros l' b. simpl. rewrite lookup_insert. case_decide as E.
  - subst. intros _. now exists a, m.
  - apply Hn.
Qed.

Lemma same_matrix_update σ a m buf' b :
  invariant σ -> objs σ !! a = Some m -> b <> a ->
  same_matrix b σ (update_buffer σ m buf').
Proof.
  intros [_ Huniq] Ha Hne. unfold update_buffer.
  destruct (data m) as [l|] eqn:Hl; [|split; reflexivity].
  split; [reflexivity|]. intros mb Hb. unfold buffer_of. simpl.
  destruct (data mb) as [lb|] eqn:Hlb; [|reflexivity].
  apply lookup_insert_ne. intros <-. apply Hne.
  exact (Huniq b a mb m l Hb Ha Hlb Hl).
Qed.

(** What a successful call of each operation is made of. *)
Lemma copy_ctor_inv this other σ σ' :
  copy_ctor this other σ = Some σ' ->
  exists o sb,
    objs σ !! this = None /\ objs σ !! other = Some o /\
    σ' = Store (<[this := Mk (Some (fresh (dom (bufs σ)))) (size o)]> (objs σ))
           (<[fresh (dom (bufs σ)) := sb]> (bufs σ)).
Proof.
  unfold copy_ctor, make_unique.
  destruct (is_new this σ) eqn:Hnew; [|discriminate]. apply is_new_spec in Hnew.
  destruct (objs σ !! other) as [o|] eqn:Ho; [simpl|discriminate].
  destruct (std_copy _ _ _ _) as [σ2|] eqn:Hc; [simpl|discriminate].
  intros [= <-]. apply std_copy_inv in Hc as (sb & db & _ & _ & _ & _ & ->).
  simpl. eexists o, _. split; [assumption|]. split; [reflexivity|].
  unfold set_obj. simpl. now rewrite insert_insert_eq.
Qed.

Lemma copy_assign_inv this other σ σ' :
  copy_assign this other σ = Some σ' -> this <> other ->
  exists m o sb,
    objs σ !! this = Some m /\ objs σ !! other = Some o /\
    data m <> Some (fresh (dom (bufs σ))) /\
    σ' = Store (<[this := Mk (Some (fresh (dom (bufs σ)))) (size o)]> (objs σ))
           (<[fresh (dom (bufs σ)) := sb]> (bufs (release (data m) σ))).
Proof.
  unfold copy_assign, make_unique. intros H Hne.
  destruct (objs σ !! this) as [m|] eqn:Hm; [simpl in H|discriminate].
  destruct (objs σ !! other) as [o|] eqn:Ho; [simpl in H|discriminate].
  case_decide; [contradiction|].
  destruct (std_copy _ _ _ _) as [σ3|] eqn:Hc; [simpl in H|discriminate].
  injection H as <-. apply std_copy_inv in Hc as (sb & db & _ & Hdb & _ & _ & ->).
  assert (Hfresh : data m <> Some (fresh (dom (bufs σ)))).
  { intros E. rewrite E in Hdb. simpl in Hdb. now rewrite lookup_delete_eq in Hdb. }
  exists m, o, (take (N.to_nat (size_mul (size o) (size o))) sb ++
                drop (N.to_nat (size_mul (size o) (size o))) db).
  split; [reflexivity|]. split; [reflexivity|]. split; [assumption|].
  unfold set_obj. rewrite objs_release. simpl. f_equal.
  destruct (data m) as [lm|]; simpl; [|now rewrite insert_insert_eq].
  rewrite delete_insert_ne by congruence. now rewrite insert_insert_eq.
Qed.

(** X10: no operation of [Matrix] leaks a buffer: when every buffer of the
    store has an owner before a call of a constructor, an assignment, the
    destructor, an element write, [swapRows] or [calculateDeterminant], every
    buffer has an owner after it. *)
Theorem matrix_operations_do_not_leak σ :
  no_leak σ ->
  (forall this n σ', ctor this n σ = Some σ' -> no_leak σ') /\
  (forall this other σ', copy_ctor this other σ = Some σ' -> no_leak σ') /\
  (forall this other σ', move_ctor this other σ = Some σ' -> no_leak σ') /\
  (forall this other σ', copy_assign this other σ = Some σ' -> no_leak σ') /\
  (forall this other σ', move_assign this other σ = Some σ' -> no_leak σ') /\
  (forall this σ', dtor this σ = Some σ' -> no_leak σ') /\
  (forall this i j v σ', set this i j v σ = Some σ' -> no_leak σ') /\
  (forall this i j σ', swapRows this i j σ = Some σ' -> no_leak σ') /\
  (forall matrix r σ',
     DeterminantCalculator.calculateDeterminant matrix σ = Some (r, σ') -> no_leak σ').
Proof.
  intros Hn. repeat split.
  - intros this n σ' H. apply ctor_inv in H as [Hnew ->].
    intros l b. simpl. rewrite lookup_insert. case_decide as E.
    + intros _. subst. eexists this, _. now rewrite lookup_insert_eq.
    + intros Hl. destruct (Hn l b Hl) as (a & m & Ha & Hd). exists a, m.
      split; [|assumption]. rewrite lookup_insert_ne; [assumption|congruence].
  - intros this other σ' H. apply copy_ctor_inv in H as (o & sb & Hnew & Ho & ->).
    intros l b. simpl. rewrite lookup_insert. case_decide as E.
    + intros _. subst. eexists this, _. now rewrite lookup_insert_eq.
    + intros Hl. destruct (Hn l b Hl) as (a & m & Ha & Hd). exists a, m.
      split; [|assumption]. rewrite lookup_insert_ne; [assumption|congruence].
  - intros this other σ'. unfold move_ctor.
    destruct (is_new this σ) eqn:Hnew; [|discriminate]. apply is_new_spec in Hnew.
    destruct (objs σ !! other) as [o|] eqn:Ho; [simpl|discriminate].
    intros [= <-] l b Hl. simpl in Hl. destruct (Hn l b Hl) as (a & m & Ha & Hd).
    destruct (decide (a = other)) as [->|Hne].
    + exists this, (Mk (data o) (size o)). simpl.
      rewrite lookup_insert_ne by congruence. rewrite lookup_insert_eq.
      split; [reflexivity|simpl; congruence].
    + exists a, m. simpl. rewrite !lookup_insert_ne by congruence. now split.
  - intros this other σ' H. destruct (decide (this = other)) as [->|Hne].
    + unfold copy_assign in H.
      destruct (objs σ !! other) as [o|] eqn:Ho; [simpl in H|discriminate].
      rewrite decide_True in H by reflexivity. now injection H as <-.
    + apply copy_assign_inv in H as (m & o & sb & Hm & Ho & Hf & ->); [|assumption].
      intros l b. simpl. rewrite lookup_insert. case_decide as E.
      * intros _. subst. eexists this, _. now rewrite lookup_insert_eq.
      * intros Hl. destruct (data m) as [lm|] eqn:Hlm; simpl in Hl.
        -- rewrite lookup_delete in Hl. case_decide as E'; [discriminate|].
           destruct (Hn l b Hl) as (a & ma & Ha & Hd). exists a, ma.
           split; [|assumption]. rewrite lookup_insert_ne; [assumption|].
           intros <-. congruence.
        -- destruct (Hn l b Hl) as (a & ma & Ha & Hd). exists a, ma.
           split; [|assumption]. rewrite lookup_insert_ne; [assumption|].
           intros <-. congruence.
  - intros this other σ'. unfold move_assign.
    destruct (objs σ !! this) as [m|] eqn:Hm; [simpl|discriminate].
    destruct (objs σ !! other) as [o|] eqn:Ho; [simpl|discriminate].
    case_decide as E; intros [= <-]; [assumption|].
    intros l b Hl. simpl in Hl.
    assert (Hl' : bufs σ !! l = Some b /\ data m <> Some l).
    { destruct (data m) as [lm|]; simpl in Hl; [|now split].
      rewrite lookup_delete in Hl. case_decide; [discriminate|]. split; congruence. }
    destruct Hl' as [Hl' Hml]. destruct (Hn l b Hl') as (a & ma & Ha & Hd).
    simpl. rewrite objs_release.
    destruct (decide (a = other)) as [->|Hne].
    + exists this, (Mk (data o) (size o)).
      rewrite lookup_insert_ne by congruence. rewrite lookup_insert_eq.
      split; [reflexivity|simpl; congruence].
    + exists a, ma. rewrite !lookup_insert_ne; [now split|congruence|congruence].
  - intros this σ'. unfold dtor.
    destruct (objs σ !! this) as [m|] eqn:Hm; [simpl|discriminate].
    intros [= <-] l b Hl. simpl in Hl.
    assert (Hl' : bufs σ !! l = Some b /\ data m <> Some l).
    { destruct (data m) as [lm|]; simpl in Hl; [|now split].
      rewrite lookup_delete in Hl. case_decide; [discriminate|]. split; congruence. }
    destruct Hl' as [Hl' Hml]. destruct (Hn l b Hl') as (a & ma & Ha & Hd).
    exists a, ma. simpl. rewrite lookup_delete_ne; [now split|congruence].
  - intros this i j v σ'. unfold set.
    destruct (objs σ !! this) as [m|] eqn:Hm; [simpl|discriminate].
    destruct (buffer_of σ m) as [buf|]; [simpl|discriminate].
    destruct (Buffer.set _ _ _ _ _) as [buf'|]; [simpl|discriminate].
    intros [= <-]. now apply (no_leak_update σ this).
  - intros this i j σ'. unfold swapRows.
    destruct (objs σ !! this) as [m|] eqn:Hm; [simpl|discriminate].
    destruct (buffer_of σ m) as [buf|]; [simpl|discriminate].
    destruct (Buffer.swapRows _ _ _ _) as [buf'|]; [simpl|discriminate].
    intros [= <-]. now apply (no_leak_update σ this).
  - intros matrix r σ' H.
    apply calculateDeterminant_inv in H as (m & buf & buf' & Hm & _ & _ & _ & ->).
    now apply (no_leak_update σ matrix).
Qed.

Lemma matrix_operations_do_not_leak_witness :
  exists σ', copy_ctor 2 1 store22 = Some σ' /\ no_leak σ'.
Proof.
  destruct (copy_ctor 2 1 store22) as [σ'|] eqn:E; [|vm_compute in E; discriminate].
  exists σ'. split; [reflexivity|].
  destruct (matrix_operations_do_not_leak store22) as (_ & H & _).
  - intros l b Hl. exists 1%positive, M22.
    destruct (decide (l = 1%positive)) as [->|Hne]; [split; reflexivity|].
    unfold store22 in Hl. simpl in Hl. now rewrite lookup_singleton_ne in Hl.
  - exact (H 2%positive 1%positive σ' E).
Defined.

Lemma same_matrix_get b σ σ' i j :
  same_matrix b σ σ' -> get b i j σ' = get b i j σ.
Proof.
  intros [Ho Hb]. unfold get. rewrite Ho.
  destruct (objs σ !! b) as [m|] eqn:Hm; [simpl|reflexivity].
  now rewrite (Hb m).
Qed.

Lemma same_matrix_refl b σ : same_matrix b σ σ.
Proof. now split. Qed.

Lemma buffer_of_alloc σ b mb sb :
  invariant σ -> objs σ !! b = Some mb ->
  buffer_of (Store (objs σ) (<[fresh (dom (bufs σ)) := sb]> (bufs σ))) mb
  = buffer_of σ mb.
Proof.
  intros Hinv Hb. unfold buffer_of. simpl.
  destruct (data mb) as [lb|] eqn:Hlb; [|reflexivity].
  apply lookup_insert_ne. intros E.
  apply (owned_not_fresh σ b mb Hinv Hb). congruence.
Qed.

Lemma buffer_of_release σ a b m mb :
  invariant σ -> objs σ !! a = Some m -> objs σ !! b = Some mb -> b <> a ->
  buffer_of (release (data m) σ) mb = buffer_of σ mb.
Proof.
  intros [_ Huniq] Ha Hb Hne. unfold buffer_of.
  destruct (data mb) as [lb|] eqn:Hlb; [|reflexivity].
  apply bufs_release_other. intros Hml. apply Hne.
  exact (Huniq b a mb m lb Hb Ha Hlb Hml).
Qed.

Lemma buffer_of_objs o o' bs m : buffer_of (Store o bs) m = buffer_of (Store o' bs) m.
Proof. reflexivity. Qed.

Lemma set_same_matrix σ this i j v σ' b :
  invariant σ -> set this i j v σ = Some σ' -> b <> this -> same_matrix b σ σ'.
Proof.
  intros Hinv H Hne. revert H. unfold set.
  destruct (objs σ !! this) as [m|] eqn:Hm; [simpl|discriminate].
  destruct (buffer_of σ m) as [buf|]; [simpl|discriminate].
  destruct (Buffer.set _ _ _ _ _) as [buf'|]; [simpl|discriminate].
  intros [= <-]. now apply (same_matrix_update σ this).
Qed.

(** X11: an operation called on one matrix leaves every other matrix of
    the store alone: its members and the elements it reaches are the same
    after the call. For a copy this includes the matrix copied from; a move
    changes its source and nothing else. *)
Theorem operations_leave_other_matrices_alone σ b :
  invariant σ ->
  (forall this n σ', ctor this n σ = Some σ' -> b <> this -> same_matrix b σ σ') /\
  (forall this other σ', copy_ctor this other σ = Some σ' -> b <> this ->
     same_matrix b σ σ') /\
  (forall this other σ', move_ctor this other σ = Some σ' -> b <> this -> b <> other ->
     same_matrix b σ σ') /\
  (forall this other σ', copy_assign this other σ = Some σ' -> b <> this ->
     same_matrix b σ σ') /\
  (forall this other σ', move_assign this other σ = Some σ' -> b <> this -> b <> other ->
     same_matrix b σ σ') /\
  (forall this σ', dtor this σ = Some σ' -> b <> this -> same_matrix b σ σ') /\
  (forall this i j v σ', set this i j v σ = Some σ' -> b <> this -> same_matrix b σ σ') /\
  (forall this i j σ', swapRows this i j σ = Some σ' -> b <> this -> same_matrix b σ σ') /\
  (forall matrix r σ',
     DeterminantCalculator.calculateDeterminant matrix σ = Some (r, σ') ->
     b <> matrix -> same_matrix b σ σ').
Proof.
  intros Hinv. repeat split.
  - apply ctor_inv in H as [Hnew ->]. simpl. now apply lookup_insert_ne.
  - intros mb Hb. apply ctor_inv in H as [Hnew ->].
    rewrite (buffer_of_objs _ (objs σ)). now apply (buffer_of_alloc σ b).
  - apply copy_ctor_inv in H as (o & sb & Hnew & Ho & ->). simpl.
    now apply lookup_insert_ne.
  - intros mb Hb. apply copy_ctor_inv in H as (o & sb & Hnew & Ho & ->).
    rewrite (buffer_of_objs _ (objs σ)). now apply (buffer_of_alloc σ b).
  - revert H. unfold move_ctor. destruct (is_new this σ); [|discriminate].
    destruct (objs σ !! other) as [o|]; [simpl|discriminate].
    intros [= <-]. simpl. now rewrite !lookup_insert_ne by congruence.
  - revert H. unfold move_ctor. destruct (is_new this σ); [|discriminate].
    destruct (objs σ !! other) as [o|]; [simpl|discriminate].
    now intros [= <-].
  - destruct (decide (this = other)) as [->|Hne].
    + revert H. unfold copy_assign.
      destruct (objs σ !! other) as [o|]; [simpl|discriminate].
      rewrite decide_True by reflexivity. now intros [= <-].
    + apply copy_assign_inv in H as (m & o & sb & Hm & Ho & Hf & ->); [|assumption].
      simpl. now apply lookup_insert_ne.
  - intros mb Hb. destruct (decide (this = other)) as [->|Hne].
    + revert H. unfold copy_assign.
      destruct (objs σ !! other) as [o|]; [simpl|discriminate].
      rewrite decide_True by reflexivity. now intros [= <-].
    + apply copy_assign_inv in H as (m & o & sb & Hm & Ho & Hf & ->); [|assumption].
      rewrite <- (buffer_of_release σ this b m mb Hinv Hm Hb H0).
      unfold buffer_of. simpl. destruct (data mb) as [lb|] eqn:Hlb; [|reflexivity].
      apply lookup_insert_ne. intros E.
      apply (owned_not_fresh σ b mb Hinv Hb). congruence.
  - revert H. unfold move_assign.
    destruct (objs σ !! this) as [m|]; [simpl|discriminate].
    destruct (objs σ !! other) as [o|]; [simpl|discriminate].
    case_decide; intros [= <-]; [reflexivity|]. simpl.
    rewrite objs_release. now rewrite !lookup_insert_ne by congruence.
  - intros mb Hb. revert H. unfold move_assign.
    destruct (objs σ !! this) as [m|] eqn:Hm; [simpl|discriminate].
    destruct (objs σ !! other) as [o|]; [simpl|discriminate].
    case_decide; intros [= <-]; [reflexivity|].
    rewrite <- (buffer_of_release σ this b m mb Hinv Hm Hb H0). reflexivity.
  - revert H. unfold dtor.
    destruct (objs σ !! this) as [m|]; [simpl|discriminate].
    intros [= <-]. simpl. now apply lookup_delete_ne.
  - intros mb Hb. revert H. unfold dtor.
    destruct (objs σ !! this) as [m|] eqn:Hm; [simpl|discriminate].
    intros [= <-].
    rewrite <- (buffer_of_release σ this b m mb Hinv Hm Hb H0). reflexivity.
  - now apply (set_same_matrix σ this i j v σ' b).
  - now apply (set_same_matrix σ this i j v σ' b).
  - revert H. unfold swapRows.
    destruct (objs σ !! this) as [m|] eqn:Hm; [simpl|discriminate].
    destruct (buffer_of σ m) as [buf|]; [simpl|discriminate].
    destruct (Buffer.swapRows _ _ _ _) as [buf'|]; [simpl|discriminate].
    intros [= <-]. now apply (same_matrix_update σ this).
  - revert H. unfold swapRows.
    destruct (objs σ !! this) as [m|] eqn:Hm; [simpl|discriminate].
    destruct (buffer_of σ m) as [buf|]; [simpl|discriminate].
    destruct (Buffer.swapRows _ _ _ _) as [buf'|]; [simpl|discriminate].
    intros [= <-]. now apply (same_matrix_update σ this).
  - apply calculateDeterminant_inv in H as (m & buf & buf' & Hm & _ & _ & _ & ->).
    now apply (same_matrix_update σ matrix).
  - apply calculateDeterminant_inv in H as (m & buf & buf' & Hm & _ & _ & _ & ->).
    now apply (same_matrix_update σ matrix).
Qed.

Ltac lookup_cases H :=
  apply lookup_insert_Some in H as [[<- <-]|[_ H]];
    [|apply lookup_singleton_Some in H as [<- <-]].

Ltac store_two_invariant :=
  split;
  [ intros a m Ha; unfold store_two in Ha; cbn [objs] in Ha;
    lookup_cases Ha; eexists; split; reflexivity
  | intros a b ma mb l Ha Hb Hla Hlb;
    unfold store_two in Ha, Hb; cbn [objs] in Ha, Hb;
    lookup_cases Ha; lookup_cases Hb; simpl in *; congruence ].

Lemma operations_leave_other_matrices_alone_witness :
  exists σ', swapRows 1 0 1 store_two = Some σ' /\ get 2 0 0 σ' = Some (lit 5).
Proof.
  destruct (swapRows 1 0 1 store_two) as [σ'|] eqn:E; [|vm_compute in E; discriminate].
  exists σ'. split; [reflexivity|].
  destruct (operations_leave_other_matrices_alone store_two 2)
    as (_ & _ & _ & _ & _ & _ & _ & Hswap & _).
  - store_two_invariant.
  - rewrite (same_matrix_get 2 store_two σ' 0 0); [reflexivity|].
    apply (Hswap 1%positive 0 1); [assumption|discriminate].
Defined.

(** X12: copy assignment between two different matrices of a consistent
    store is defined and makes a deep copy: [this] gets the size and the
    elements of [other], [other] is left as it was, the buffer that [this]
    owned is freed, and a later write through [this] does not show in
    [other]. Assigning a matrix to itself changes nothing. *)
Theorem copy_assign_makes_a_deep_copy σ this other m o :
  invariant σ -> objs σ !! this = Some m -> objs σ !! other = Some o ->
  (this = other -> copy_assign this other σ = Some σ) /\
  (this <> other ->
   exists σ',
     copy_assign this other σ = Some σ' /\
     getSize this σ' = Some (size o) /\
     (forall i j, get this i j σ' = get other i j σ) /\
     same_matrix other σ σ' /\
     (forall l, data m = Some l -> bufs σ' !! l = None) /\
     (forall i j v σ'', set this i j v σ' = Some σ'' ->
        forall i' j', get other i' j' σ'' = get other i' j' σ)).
Proof.
  intros Hinv Hm Ho. split.
  { intros <-. unfold copy_assign. rewrite Hm. simpl. now rewrite decide_True. }
  intros Hne.
  assert (Hsb : exists sb, buffer_of σ o = Some sb /\
                  N.of_nat (length sb) = size_mul (size o) (size o)).
  { destruct Hinv as [Hok _]. specialize (Hok other o Ho). unfold buffer_ok in Hok.
    unfold buffer_of. destruct (data o) as [lo|]; [assumption|].
    exists []. rewrite Hok. split; reflexivity. }
  destruct Hsb as (sb & Hsb & Hlen).
  set (l := fresh (dom (bufs σ))).
  set (c := size_mul (size o) (size o)) in *.
  assert (Hml : data m <> Some l) by exact (owned_not_fresh σ this m Hinv Hm).
  assert (Hrun : copy_assign this other σ
                 = Some (Store (<[this := Mk (Some l) (size o)]> (objs σ))
                           (<[l := sb]> (bufs (release (data m) σ))))).
  { unfold copy_assign, make_unique. rewrite Hm, Ho. simpl.
    rewrite decide_False by assumption. fold l c.
    unfold std_copy.
    assert (Hsrc : match data o with
                   | Some lo =>
                       bufs (release (data m)
                               (Store (objs σ)
                                  (<[l := replicate (N.to_nat c) LD.zero]> (bufs σ)))) !! lo
                   | None => Some []
                   end = Some sb).
    { unfold buffer_of in Hsb. destruct (data o) as [lo|] eqn:Hlo; [|assumption].
      rewrite bufs_release_other.
      - simpl. rewrite lookup_insert_ne; [assumption|]. intros <-.
        now apply (owned_not_fresh σ other o Hinv Ho).
      - intros E. apply Hne. destruct Hinv as [_ Huniq].
        exact (Huniq this other m o lo Hm Ho E Hlo). }
    rewrite Hsrc. simpl.
    rewrite bufs_release_other by assumption. simpl. rewrite lookup_insert_eq. simpl.
    rewrite decide_True by (rewrite length_replicate; lia).
    simpl. unfold set_obj. rewrite objs_release. simpl. do 2 f_equal.
    rewrite take_ge by lia. rewrite drop_ge by (rewrite length_replicate; lia).
    rewrite app_nil_r.
    destruct (data m) as [lm|]; simpl; [|now rewrite insert_insert_eq].
    rewrite delete_insert_ne by congruence. now rewrite insert_insert_eq. }
  assert (Hother : same_matrix other σ
                     (Store (<[this := Mk (Some l) (size o)]> (objs σ))
                        (<[l := sb]> (bufs (release (data m) σ))))).
  { split; simpl; [now apply lookup_insert_ne|].
    intros mo Hmo. rewrite <- (buffer_of_release σ this other m mo Hinv Hm Hmo) by auto.
    unfold buffer_of. simpl. destruct (data mo) as [lo|] eqn:Hlo; [|reflexivity].
    apply lookup_insert_ne. intros E.
    apply (owned_not_fresh σ other mo Hinv Hmo). rewrite Hlo, <- E. reflexivity. }
  eexists. split; [exact Hrun|].
  split; [unfold getSize; simpl; now rewrite lookup_insert_eq|].
  split; [|split; [exact Hother|split]].
  - intros i j. unfold get. simpl. rewrite lookup_insert_eq, Ho. simpl.
    unfold buffer_of at 1. simpl. rewrite lookup_insert_eq. simpl. now rewrite Hsb.
  - intros lm Hlm. simpl. rewrite lookup_insert_ne by congruence.
    rewrite Hlm. simpl. apply lookup_delete_eq.
  - intros i j v σ'' Hset i' j'.
    pose proof (copy_assign_invariant this other σ _ Hinv Hrun) as Hinv'.
    pose proof (set_same_matrix _ this i j v σ'' other Hinv' Hset) as Hframe.
    rewrite (same_matrix_get other _ σ'' i' j') by (apply Hframe; congruence).
    now apply same_matrix_get.
Qed.

Lemma copy_assign_makes_a_deep_copy_witness :
  exists σ',
    copy_assign 2 1 store_two = Some σ' /\ getSize 2 σ' = Some 2 /\
    get 2 1 0 σ' = Some (lit 3).
Proof.
  destruct (copy_assign_makes_a_deep_copy store_two 2 1 M11 M22) as [_ H].
  - store_two_invariant.
  - reflexivity.
  - reflexivity.
  - destruct H as (σ' & H1 & H2 & H3 & _); [discriminate|].
    exists σ'. split; [exact H1|]. split; [exact H2|]. rewrite H3.
    vm_compute. reflexivity.
Defined.

Lemma handed_over_intro σ this other o bs :
  this <> other -> objs σ !! other = Some o ->
  buffer_of (Store (objs σ) bs) o = buffer_of σ o ->
  handed_over this other σ
    (set_obj other (Mk None 0) (set_obj this (Mk (data o) (size o)) (Store (objs σ) bs))).
Proof.
  intros Hne Ho Hb. unfold handed_over, getSize, get, set_obj. simpl.
  rewrite lookup_insert_ne by congruence. rewrite !lookup_insert_eq, Ho. simpl.
  split; [reflexivity|]. split; [|split; [reflexivity|]].
  - intros i j. unfold buffer_of in *. simpl in *. now rewrite Hb.
  - intros i j. unfold Buffer.get. apply lookup_nil.
Qed.

(** X13: a move between two different matrices of a consistent store, by
    the move constructor or by move assignment, is defined and hands the
    matrix over: [this] gets the size and the elements that [other] had,
    [other] is left with the size 0 and no element that can be read, and the
    buffer that [this] owned before a move assignment is freed. *)
Theorem move_hands_the_matrix_over σ this other o :
  invariant σ -> this <> other -> objs σ !! other = Some o ->
  (objs σ !! this = None ->
   exists σ', move_ctor this other σ = Some σ' /\ handed_over this other σ σ') /\
  (forall m, objs σ !! this = Some m ->
   exists σ',
     move_assign this other σ = Some σ' /\ handed_over this other σ σ' /\
     forall l, data m = Some l -> bufs σ' !! l = None).
Proof.
  intros Hinv Hne Ho. split.
  - intros Hnew. unfold move_ctor.
    rewrite (proj2 (is_new_spec this σ) Hnew), Ho. simpl.
    eexists. split; [reflexivity|].
    pose proof (handed_over_intro σ this other o (bufs σ) Hne Ho eq_refl) as H.
    now destruct σ.
  - intros m Hm. unfold move_assign. rewrite Hm, Ho. simpl.
    rewrite decide_False by assumption.
    eexists. split; [reflexivity|]. split.
    + pose proof (handed_over_intro σ this other o (bufs (release (data m) σ)) Hne Ho)
        as H.
      replace (Store (objs σ) (bufs (release (data m) σ))) with (release (data m) σ) in H
        by (destruct (data m), σ; reflexivity).
      apply H. apply (buffer_of_release σ this other m o Hinv Hm Ho). congruence.
    + intros l Hl. simpl. rewrite Hl. simpl. apply lookup_delete_eq.
Qed.

Lemma move_hands_the_matrix_over_witness :
  exists σ',
    move_assign 2 1 store_two = Some σ' /\ getSize 2 σ' = Some 2 /\
    get 2 1 0 σ' = Some (lit 3) /\ getSize 1 σ' = Some 0 /\
    bufs σ' !! 2%positive = None.
Proof.
  destruct (move_hands_the_matrix_over store_two 2 1 M22) as [_ H].
  - store_two_invariant.
  - discriminate.
  - reflexivity.
  - destruct (H M11) as (σ' & H1 & (H2 & H3 & H4 & _) & H5); [reflexivity|].
    exists σ'. split; [exact H1|]. split; [exact H2|].
    split; [rewrite H3; vm_compute; reflexivity|]. split; [exact H4|].
    now apply H5.
Defined.

(** X14: a temporary leaves no trace: a matrix that is constructed, by
    [Matrix(n)] or as a copy ([Matrix(other)], [copy()]), and then destroyed
    leaves the store exactly as it was before the construction. *)
Theorem temporary_leaves_no_trace σ this :
  (forall n σ1, ctor this n σ = Some σ1 -> dtor this σ1 = Some σ) /\
  (forall other σ1, copy_ctor this other σ = Some σ1 -> dtor this σ1 = Some σ) /\
  (forall other σ1, copy this other σ = Some σ1 -> dtor this σ1 = Some σ).
Proof.
  assert (Hback : forall x sb, objs σ !! this = None ->
            dtor this (Store (<[this := Mk (Some (fresh (dom (bufs σ)))) x]> (objs σ))
                         (<[fresh (dom (bufs σ)) := sb]> (bufs σ))) = Some σ).
  { intros x sb Hnew. unfold dtor. simpl. rewrite lookup_insert_eq. simpl.
    rewrite delete_insert_id by assumption.
    rewrite delete_insert_id by apply fresh_unused. now destruct σ. }
  split; [|split].
  - intros n σ1 H. apply ctor_inv in H as [Hnew ->]. now apply Hback.
  - intros other σ1 H. apply copy_ctor_inv in H as (o & sb & Hnew & _ & ->).
    now apply Hback.
  - intros other σ1 H. apply copy_ctor_inv in H as (o & sb & Hnew & _ & ->).
    now apply Hback.
Qed.

Lemma temporary_leaves_no_trace_witness :
  exists σ1, copy 3 1 store_two = Some σ1 /\ dtor 3 σ1 = Some store_two.
Proof.
  destruct (copy 3 1 store_two) as [σ1|] eqn:E; [|vm_compute in E; discriminate].
  exists σ1. split; [reflexivity|].
  now apply (proj2 (proj2 (temporary_leaves_no_trace store_two 3)) 1%positive).
Defined.

End MatrixMore.

(** ** The loader of files *)

Module ReaderMore.

Import Buffer BufferFacts MatrixReader MoreSpec Samples.

Lemma count_values_prefix vs rest :
  N.of_nat (length vs) <= count_values (map Num vs ++ rest).
Proof. induction vs as [|v vs IH]; simpl; lia. Qed.

Lemma count_values_exact vs rest :
  match rest with Num _ :: _ => False | _ => True end ->
  count_values (map Num vs ++ rest) = N.of_nat (length vs).
Proof.
  intros H. induction vs as [|v vs IH]; simpl.
  - now destruct rest as [|[] ?].
  - rewrite IH. lia.
Qed.

Lemma to_nat_index n i j :
  fits n -> i < n -> j < n -> N.to_nat (index n i j) = N.to_nat (i * n + j).
Proof. intros Hf Hi Hj. now destruct (index_in_range n i j Hf Hi Hj) as [-> _]. Qed.

Lemma set_middle n i j v pre o old :
  fits n -> i < n -> j < n -> length pre = N.to_nat (i * n + j) ->
  set n (pre ++ o :: old) i j v = Some ((pre ++ [v]) ++ old).
Proof.
  intros Hf Hi Hj Hpre. unfold set. rewrite (to_nat_index n i j Hf Hi Hj), <- Hpre.
  rewrite decide_True by (rewrite length_app; simpl; lia).
  f_equal. replace (length pre) with (length pre + 0)%nat by lia.
  rewrite insert_app_r. simpl. now rewrite <- app_assoc.
Qed.

(** A row that holds the values [vs] fills the elements from [(i, j)] on. *)
Lemma read_row_run vs : forall n i j rest pre old post,
  fits n -> i < n -> j + N.of_nat (length vs) <= n ->
  length pre = N.to_nat (i * n + j) -> length old = length vs ->
  read_row (length vs) n i j (map Num vs ++ rest) (pre ++ old ++ post)
  = Ok (pre ++ vs ++ post).
Proof.
  induction vs as [|v vs IH]; intros n i j rest pre old post Hf Hi Hj Hpre Hold.
  - now destruct old.
  - destruct old as [|o old]; [discriminate|]. simpl in Hj, Hold. simpl.
    rewrite (set_middle n i j v pre o (old ++ post)) by (try assumption; lia).
    rewrite IH; try assumption.
    + now rewrite <- app_assoc.
    + lia.
    + rewrite length_app. simpl. lia.
    + lia.
Qed.

(** A row with too few values is refused, with the same message wherever
    the values stop. *)
Lemma read_row_stops count : forall n i j line pre old post,
  fits n -> i < n -> j + N.of_nat count <= n ->
  length pre = N.to_nat (i * n + j) -> length old = count ->
  (N.to_nat (count_values line) < count)%nat ->
  read_row count n i j line (pre ++ old ++ post)
  = Throw "Invalid matrix format: not enough columns".
Proof.
  induction count as [|c IH]; intros n i j line pre old post Hf Hi Hj Hpre Hold Hc;
    [lia|].
  destruct old as [|o old]; [discriminate|]. simpl in Hold. simpl.
  destruct line as [|[v|] rest]; try reflexivity.
  rewrite (set_middle n i j v pre o (old ++ post)) by (try assumption; lia).
  apply IH; try assumption; try lia.
  - rewrite length_app. simpl. lia.
  - simpl in Hc. lia.
Qed.

Lemma split_old (old : list long_double) (a b : nat) :
  length old = (a + b)%nat ->
  exists o1 o2, old = o1 ++ o2 /\ length o1 = a /\ length o2 = b.
Proof.
  intros H. exists (take a old), (drop a old).
  rewrite take_drop, length_take, length_drop. repeat split; lia.
Qed.

(** The rows that are well formed are read into the buffer one after the
    other, and the loop goes on with the lines that follow them. *)
Lemma read_rows_run rows : forall c n i head rest pre old post,
  fits n -> i + N.of_nat (length rows + c) <= n ->
  Forall (fun r => length r = N.to_nat n) rows ->
  Forall2 row_prefix rows head ->
  length pre = N.to_nat (i * n) -> length old = (length rows * N.to_nat n)%nat ->
  read_rows (length rows + c) n i (head ++ rest) (pre ++ old ++ post)
  = read_rows c n (i + N.of_nat (length rows)) rest ((pre ++ concat rows) ++ post).
Proof.
  induction rows as [|row rows IH];
    intros c n i head rest pre old post Hf Hi Hsq Hpref Hpre Hold.
  - apply Forall2_nil_inv_l in Hpref as ->. destruct old; [|discriminate].
    simpl. rewrite N.add_0_r. now rewrite app_nil_r.
  - apply Forall2_cons_inv_l in Hpref as (line & head' & (more & ->) & Hpref & ->).
    apply Forall_cons in Hsq as [Hrow Hsq]. simpl in Hi, Hold.
    destruct (split_old old _ _ Hold) as (o1 & o2 & -> & Ho1 & Ho2).
    simpl. rewrite <- Hrow. rewrite <- (app_assoc o1 o2 post).
    rewrite (read_row_run row n i 0 more pre o1 (o2 ++ post)); try assumption; try lia.
    rewrite (app_assoc pre row (o2 ++ post)).
    rewrite (IH c n (N.succ i) head' rest (pre ++ row) o2 post); try assumption.
    + replace (i + N.of_nat (S (length rows))) with (N.succ i + N.of_nat (length rows))
        by lia.
      now rewrite <- (app_assoc pre row).
    + lia.
    + rewrite length_app. lia.
Qed.

Lemma zeros_room n :
  fits n ->
  length (replicate (N.to_nat (size_mul n n)) LD.zero) = (N.to_nat n * N.to_nat n)%nat.
Proof.
  intros Hf. rewrite length_replicate. unfold size_mul.
  rewrite N.mod_small by exact Hf. lia.
Qed.

Lemma length_concat_square n (rows : list (list long_double)) :
  Forall (fun r => length r = n) rows -> length (concat rows) = (length rows * n)%nat.
Proof.
  induction 1 as [|r rows Hr _ IH]; simpl; [reflexivity|].
  rewrite length_app. lia.
Qed.

Lemma read_rows_all n rows head more :
  fits n -> square n rows -> Forall2 row_prefix rows head ->
  read_rows (N.to_nat n) n 0 (head ++ more) (replicate (N.to_nat (size_mul n n)) LD.zero)
  = Ok (concat rows).
Proof.
  intros Hf [Hlen Hsq] Hpref.
  pose proof (read_rows_run rows 0 n 0 head more []
                (replicate (N.to_nat (size_mul n n)) LD.zero) [] Hf) as H.
  rewrite Nat.add_0_r, Hlen, app_nil_r in H. simpl in H. rewrite H; try assumption.
  - now rewrite app_nil_r.
  - lia.
  - reflexivity.
  - now rewrite zeros_room.
Qed.

(** X15: a file whose first line holds exactly [n] numbers before anything
    else, and whose first [n] lines each start with the [n] values of a row,
    is read as the matrix of these rows, in row-major order; what follows
    the [n] values on a line, and the lines after the first [n], are not
    looked at. *)
Theorem readFromFile_reads_the_rows filename n rows head more :
  fits n -> square n rows -> Forall2 row_prefix rows head ->
  count_values (hd [] (head ++ more)) = n ->
  readFromFile filename (Some (head ++ more)) = Ok (n, concat rows).
Proof.
  intros Hf Hsq Hpref Hfirst. unfold readFromFile. rewrite Hfirst.
  now rewrite (read_rows_all n rows head more).
Qed.

Lemma readFromFile_reads_the_rows_witness :
  readFromFile "m.txt" (Some ([nums [1; 2] ++ [Junk]; nums [3; 4; 5]]%Z ++ [nums [6]%Z]))
  = Ok (2, concat [map lit [1; 2]; map lit [3; 4]]%Z).
Proof.
  apply (readFromFile_reads_the_rows "m.txt" 2 [map lit [1; 2]; map lit [3; 4]]%Z).
  - reflexivity.
  - split; [reflexivity|]. repeat constructor.
  - constructor; [now exists [Junk]|]. constructor; [|constructor].
    now exists (nums [5]%Z).
  - reflexivity.
Defined.

Lemma read_row_inv count : forall n i j line buf b,
  read_row count n i j line buf = Ok b ->
  exists vs rest, line = map Num vs ++ rest /\ length vs = count.
Proof.
  induction count as [|c IH]; intros n i j line buf b H.
  - now exists [], line.
  - simpl in H. destruct line as [|[v|] line]; try discriminate.
    destruct (set n buf i j v) as [buf'|]; [|discriminate].
    apply IH in H as (vs & rest & -> & <-). now exists (v :: vs), rest.
Qed.

Lemma read_rows_inv count : forall n i lines buf b,
  read_rows count n i lines buf = Ok b ->
  exists rows head more,
    lines = head ++ more /\ length rows = count /\
    Forall (fun r => length r = N.to_nat n) rows /\ Forall2 row_prefix rows head.
Proof.
  induction count as [|c IH]; intros n i lines buf b H.
  - exists [], [], lines. repeat split; constructor.
  - simpl in H. destruct lines as [|line lines]; [discriminate|].
    destruct (read_row _ _ _ _ _ _) as [buf'| |] eqn:E; try discriminate.
    apply read_row_inv in E as (vs & rest & -> & Hvs).
    apply IH in H as (rows & head & more & -> & <- & Hsq & Hpref).
    exists (vs :: rows), ((map Num vs ++ rest) :: head), more.
    split; [reflexivity|]. split; [reflexivity|].
    split; constructor; try assumption. now exists rest.
Qed.

(** X16: the matrix that [readFromFile] returns is the one written in the
    file: its dimension [n] is the number of values that the first line
    starts with, the file has at least [n] lines, each of the first [n]
    lines starts with [n] values, and the elements are these values, row by
    row. *)
Theorem readFromFile_returns_what_the_file_holds filename lines n buf :
  fits (count_values (hd [] lines)) ->
  readFromFile filename (Some lines) = Ok (n, buf) ->
  n = count_values (hd [] lines) /\ wf_buf n buf /\
  exists rows head more,
    lines = head ++ more /\ square n rows /\ Forall2 row_prefix rows head /\
    buf = concat rows.
Proof.
  intros Hf H. unfold readFromFile in H.
  set (size := count_values (hd [] lines)) in *.
  destruct (read_rows _ _ _ _ _) as [b| |] eqn:E; try discriminate.
  injection H as <- <-. split; [reflexivity|].
  pose proof E as Hinv.
  apply read_rows_inv in Hinv as (rows & head & more & Hlines & Hlen & Hsq & Hpref).
  assert (Hb : b = concat rows).
  { rewrite Hlines, (read_rows_all size rows head more) in E;
      [now injection E as <-|assumption|split; [lia|assumption]|assumption]. }
  split.
  - split; [assumption|]. rewrite Hb, (length_concat_square (N.to_nat size)), Hlen by assumption.
    lia.
  - exists rows, head, more. repeat split; assumption.
Qed.

Lemma readFromFile_returns_what_the_file_holds_witness :
  exists rows head more,
    [nums [1; 2]; nums [3; 4; 5]]%Z = head ++ more /\
    Forall2 row_prefix rows head /\ map lit [1; 2; 3; 4]%Z = concat rows.
Proof.
  destruct (readFromFile_returns_what_the_file_holds "m.txt"
              [nums [1; 2]; nums [3; 4; 5]]%Z 2 (map lit [1; 2; 3; 4]%Z))
    as (_ & _ & rows & head & more & H1 & _ & H2 & H3).
  - reflexivity.
  - vm_compute. reflexivity.
  - exists rows, head, more. repeat split; assumption.
Defined.

(** X17: a file that does not hold a whole matrix is refused with the
    message of what is missing. When the first lines are well-formed rows
    but fewer than the first line has values, the line that follows them
    decides: if there is none, the message is "not enough rows"; if it holds
    fewer values than the first line, "not enough columns". *)
Theorem readFromFile_says_what_is_missing filename n rows head rest :
  fits n -> count_values (hd [] (head ++ rest)) = n ->
  Forall (fun r => length r = N.to_nat n) rows -> Forall2 row_prefix rows head ->
  N.of_nat (length rows) < n ->
  (rest = [] ->
   readFromFile filename (Some (head ++ rest))
   = Throw "Invalid matrix format: not enough rows") /\
  (forall line more, rest = line :: more -> short_row n line ->
   readFromFile filename (Some (head ++ rest))
   = Throw "Invalid matrix format: not enough columns").
Proof.
  intros Hf Hfirst Hsq Hpref Hlt. unfold readFromFile. rewrite Hfirst.
  destruct (split_old (replicate (N.to_nat (size_mul n n)) LD.zero)
              (length rows * N.to_nat n)
              (N.to_nat n + (N.to_nat n - S (length rows)) * N.to_nat n))
    as (old & post & -> & Hold & Hpost).
  { rewrite zeros_room by assumption. nia. }
  destruct (split_old post _ _ Hpost) as (o1 & o2 & -> & Ho1 & Ho2).
  set (k := (N.to_nat n - S (length rows))%nat) in *.
  assert (Hrun : read_rows (N.to_nat n) n 0 (head ++ rest) (old ++ o1 ++ o2)
                 = read_rows (S k) n (N.of_nat (length rows)) rest
                     (concat rows ++ o1 ++ o2)).
  { pose proof (read_rows_run rows (S k) n 0 head rest [] old (o1 ++ o2) Hf) as H.
    replace (length rows + S k)%nat with (N.to_nat n) in H by lia.
    apply H; try assumption; [lia|reflexivity]. }
  rewrite Hrun. split.
  - intros ->. reflexivity.
  - intros line more -> Hshort. simpl.
    rewrite (read_row_stops (N.to_nat n) n (N.of_nat (length rows)) 0 line
               (concat rows) o1 o2); try assumption; try reflexivity; try lia.
    + rewrite (length_concat_square (N.to_nat n)) by assumption. lia.
    + unfold short_row in Hshort. lia.
Qed.

Lemma readFromFile_says_what_is_missing_witness :
  readFromFile "m.txt" (Some ([nums [1; 2]%Z] ++ [nums [3]%Z]))
  = Throw "Invalid matrix format: not enough columns".
Proof.
  destruct (readFromFile_says_what_is_missing "m.txt" 2 [map lit [1; 2]%Z]
              [nums [1; 2]%Z] [nums [3]%Z]) as [_ H].
  - reflexivity.
  - reflexivity.
  - repeat constructor.
  - constructor; [now exists []|constructor].
  - reflexivity.
  - apply (H (nums [3]%Z) []); reflexivity.
Defined.

Lemma read_row_outcome count : forall n i j line pre old post,
  fits n -> i < n -> j + N.of_nat count <= n ->
  length pre = N.to_nat (i * n + j) -> length old = count ->
  (exists new, length new = count /\
     read_row count n i j line (pre ++ old ++ post) = Ok (pre ++ new ++ post)) \/
  read_row count n i j line (pre ++ old ++ post)
  = Throw "Invalid matrix format: not enough columns".
Proof.
  induction count as [|c IH]; intros n i j line pre old post Hf Hi Hj Hpre Hold.
  - left. exists []. destruct old; [|discriminate]. now split.
  - destruct old as [|o old]; [discriminate|]. simpl in Hold. simpl.
    destruct line as [|[v|] rest]; try (right; reflexivity).
    rewrite (set_middle n i j v pre o (old ++ post)) by (try assumption; lia).
    destruct (IH n i (N.succ j) rest (pre ++ [v]) old post) as [(new & Hn & ->)| ->];
      try assumption; try lia.
    + rewrite length_app. simpl. lia.
    + left. exists (v :: new). split; [simpl; lia|]. now rewrite <- app_assoc.
    + now right.
Qed.

Lemma read_rows_outcome count : forall n i lines pre old post,
  fits n -> i + N.of_nat count <= n ->
  length pre = N.to_nat (i * n) -> length old = (count * N.to_nat n)%nat ->
  (exists new, length new = length old /\
     read_rows count n i lines (pre ++ old ++ post) = Ok (pre ++ new ++ post)) \/
  read_rows count n i lines (pre ++ old ++ post)
  = Throw "Invalid matrix format: not enough rows" \/
  read_rows count n i lines (pre ++ old ++ post)
  = Throw "Invalid matrix format: not enough columns".
Proof.
  induction count as [|c IH]; intros n i lines pre old post Hf Hi Hpre Hold.
  - left. exists []. destruct old; [|discriminate]. now split.
  - simpl in Hold. destruct (split_old old _ _ Hold) as (o1 & o2 & -> & Ho1 & Ho2).
    simpl. destruct lines as [|line lines]; [right; now left|].
    rewrite <- (app_assoc o1 o2 post).
    destruct (read_row_outcome (N.to_nat n) n i 0 line pre o1 (o2 ++ post))
      as [(new & Hn & ->)| ->]; try assumption; try lia; [|right; now right].
    rewrite (app_assoc pre new (o2 ++ post)).
    destruct (IH n (N.succ i) lines (pre ++ new) o2 post) as [(new' & Hn' & ->)|[->| ->]];
      try assumption; try lia.
    + rewrite length_app. lia.
    + left. exists (new ++ new'). split; [rewrite !length_app; lia|].
      now rewrite <- !app_assoc.
    + right. now left.
    + right. now right.
Qed.

(** X18: when the square of the number of values on the first line fits
    in a [size_t], [readFromFile] never writes outside the matrix it
    allocated: it returns a matrix whose dimension is that number and whose
    buffer has dimension times dimension elements, or it throws one of its
    two format errors. *)
Theorem readFromFile_stays_inside_the_matrix filename lines :
  fits (count_values (hd [] lines)) ->
  (exists buf,
     readFromFile filename (Some lines) = Ok (count_values (hd [] lines), buf) /\
     wf_buf (count_values (hd [] lines)) buf) \/
  readFromFile filename (Some lines) = Throw "Invalid matrix format: not enough rows" \/
  readFromFile filename (Some lines) = Throw "Invalid matrix format: not enough columns".
Proof.
  intros Hf. unfold readFromFile. set (n := count_values (hd [] lines)) in *.
  pose proof (read_rows_outcome (N.to_nat n) n 0 lines []
                (replicate (N.to_nat (size_mul n n)) LD.zero) [] Hf) as H.
  rewrite app_nil_r in H. simpl in H.
  destruct H as [(new & Hn & ->)|[->| ->]]; try lia; try reflexivity.
  - now rewrite zeros_room.
  - left. exists (new ++ []). split; [reflexivity|]. split; [assumption|].
    rewrite app_nil_r, Hn, zeros_room by assumption. lia.
  - right. now left.
  - right. now right.
Qed.

Lemma readFromFile_stays_inside_the_matrix_witness :
  exists buf,
    readFromFile "m.txt" (Some [nums [1; 2]; nums [3; 4; 5]]%Z) = Ok (2, buf) /\
    wf_buf 2 buf.
Proof.
  destruct (readFromFile_stays_inside_the_matrix "m.txt" [nums [1; 2]; nums [3; 4; 5]]%Z)
    as [(buf & H & Hw)|[H|H]].
  - reflexivity.
  - exists buf. split; assumption.
  - vm_compute in H. discriminate.
  - vm_compute in H. discriminate.
Defined.

(** X19: a file whose first line does not start with a number (an empty
    file, a line of text) is not refused: whatever else it holds, it is read
    as the matrix of dimension 0, for which [calculateDeterminant] returns
    [1.0]. *)
Theorem file_without_a_number_gives_one filename lines :
  count_values (hd [] lines) = 0 ->
  readFromFile filename (Some lines) = Ok (0, []) /\
  Engine.calculateDeterminant 0 [] = Some (LD.one, []).
Proof.
  intros H. unfold readFromFile. rewrite H. split; reflexivity.
Qed.

Lemma file_without_a_number_gives_one_witness :
  readFromFile "m.txt" (Some [[Junk; Num (lit 1)]; nums [3; 4]%Z]) = Ok (0, []).
Proof.
  now apply (file_without_a_number_gives_one "m.txt" [[Junk; Num (lit 1)]; nums [3; 4]%Z]).
Defined.

End ReaderMore.

(** ** The interactive reader *)

Module UserInputMore.

Import Buffer BufferFacts MatrixReader MoreSpec Samples ReaderMore.

Lemma row_number n i : fits n -> i < n -> size_add i 1 = i + 1.
Proof.
  intros Hf Hi. unfold size_add. apply N.mod_small.
  unfold fits in Hf. nia.
Qed.

Lemma read_values_run vs : forall n i j rest pre old post,
  fits n -> i < n -> j + N.of_nat (length vs) <= n ->
  length pre = N.to_nat (i * n + j) -> length old = length vs ->
  UserInput.read_values (length vs) n i j (map Num vs ++ rest) (pre ++ old ++ post)
  = Ok (pre ++ vs ++ post, rest).
Proof.
  induction vs as [|v vs IH]; intros n i j rest pre old post Hf Hi Hj Hpre Hold.
  - now destruct old.
  - destruct old as [|o old]; [discriminate|]. simpl in Hj, Hold. simpl.
    rewrite (set_middle n i j v pre o (old ++ post)) by (try assumption; lia).
    rewrite IH; try assumption.
    + now rewrite <- app_assoc.
    + lia.
    + rewrite length_app. simpl. lia.
    + lia.
Qed.

Lemma read_values_stops count : forall n i j line pre old post,
  fits n -> i < n -> j + N.of_nat count <= n ->
  length pre = N.to_nat (i * n + j) -> length old = count ->
  (N.to_nat (count_values line) < count)%nat ->
  UserInput.read_values count n i j line (pre ++ old ++ post)
  = Throw (String.append "Invalid input: not enough numbers in row "
             (UserInput.to_string (i + 1))).
Proof.
  induction count as [|c IH]; intros n i j line pre old post Hf Hi Hj Hpre Hold Hc;
    [lia|].
  destruct old as [|o old]; [discriminate|]. simpl in Hold. simpl.
  destruct line as [|[v|] rest]; try (now rewrite (row_number n i)).
  rewrite (set_middle n i j v pre o (old ++ post)) by (try assumption; lia).
  apply IH; try assumption; try lia.
  - rewrite length_app. simpl. lia.
  - simpl in Hc. lia.
Qed.

(** What the code does with one line, by the number of values on it. *)
Lemma user_row_exact n i row line pre old post :
  fits n -> i < n -> length row = N.to_nat n -> exact_row row line ->
  length pre = N.to_nat (i * n) -> length old = N.to_nat n ->
  UserInput.read_row n i line (pre ++ old ++ post) = Ok (pre ++ row ++ post).
Proof.
  intros Hf Hi Hrow (rest & -> & Hrest) Hpre Hold. unfold UserInput.read_row.
  rewrite <- Hrow. rewrite read_values_run; try assumption; try lia.
  now destruct rest as [|[] ?].
Qed.

Lemma user_row_short n i line pre old post :
  fits n -> i < n -> short_row n line ->
  length pre = N.to_nat (i * n) -> length old = N.to_nat n ->
  UserInput.read_row n i line (pre ++ old ++ post)
  = Throw (String.append "Invalid input: not enough numbers in row "
             (UserInput.to_string (i + 1))).
Proof.
  intros Hf Hi Hshort Hpre Hold. unfold UserInput.read_row.
  rewrite (read_values_stops (N.to_nat n) n i 0 line pre old post);
    try assumption; try reflexivity; try lia.
  unfold short_row in Hshort. lia.
Qed.

Lemma long_row_split n line :
  long_row n line ->
  exists vs v rest, line = map Num vs ++ Num v :: rest /\ length vs = N.to_nat n.
Proof.
  unfold long_row. revert line. induction n as [|n IH] using N.peano_ind; intros line H.
  - destruct line as [|[v|] rest]; simpl in H; try lia. now exists [], v, rest.
  - destruct line as [|[v|] line]; simpl in H; try lia.
    destruct (IH line) as (vs & w & rest & -> & Hvs); [lia|].
    exists (v :: vs), w, rest. split; [reflexivity|]. simpl. lia.
Qed.

Lemma user_row_long n i line pre old post :
  fits n -> i < n -> long_row n line ->
  length pre = N.to_nat (i * n) -> length old = N.to_nat n ->
  UserInput.read_row n i line (pre ++ old ++ post)
  = Throw (String.append "Invalid input: too many numbers in row "
             (UserInput.to_string (i + 1))).
Proof.
  intros Hf Hi Hlong Hpre Hold. unfold UserInput.read_row.
  destruct (long_row_split n line Hlong) as (vs & v & rest & -> & Hvs).
  rewrite <- Hvs. rewrite read_values_run; try assumption; try lia.
  now rewrite (row_number n i).
Qed.

Lemma user_read_rows_run rows : forall c n i head rest pre old post out,
  fits n -> i + N.of_nat (length rows + c) <= n ->
  Forall (fun r => length r = N.to_nat n) rows ->
  Forall2 exact_row rows head ->
  length pre = N.to_nat (i * n) -> length old = (length rows * N.to_nat n)%nat ->
  UserInput.read_rows (length rows + c) n i (head ++ rest) (pre ++ old ++ post) out
  = UserInput.read_rows c n (i + N.of_nat (length rows)) rest
      ((pre ++ concat rows) ++ post)
      (out ++ map (fun k => row_prompt (N.of_nat k)) (seq (N.to_nat i) (length rows))).
Proof.
  induction rows as [|row rows IH];
    intros c n i head rest pre old post out Hf Hi Hsq Hpref Hpre Hold.
  - apply Forall2_nil_inv_l in Hpref as ->. destruct old; [|discriminate].
    simpl. rewrite N.add_0_r. now rewrite !app_nil_r.
  - apply Forall2_cons_inv_l in Hpref as (line & head' & Hline & Hpref & ->).
    apply Forall_cons in Hsq as [Hrow Hsq]. simpl in Hi, Hold.
    destruct (split_old old _ _ Hold) as (o1 & o2 & -> & Ho1 & Ho2).
    simpl. rewrite <- (app_assoc o1 o2 post).
    rewrite (user_row_exact n i row line pre o1 (o2 ++ post)); try assumption; try lia.
    rewrite (app_assoc pre row (o2 ++ post)).
    rewrite (IH c n (N.succ i) head' rest (pre ++ row) o2 post); try assumption.
    + replace (i + N.of_nat (S (length rows))) with (N.succ i + N.of_nat (length rows))
        by lia.
      rewrite <- (app_assoc pre row). rewrite <- (app_assoc out).
      rewrite (row_number n i) by (try assumption; lia).
      unfold row_prompt at 2. rewrite N2Nat.id.
      replace (N.to_nat (N.succ i)) with (S (N.to_nat i)) by lia. reflexivity.
    + lia.
    + rewrite length_app. lia.
Qed.

(** X20: when the dimension typed is [n], not 0, and each of the next [n]
    lines holds exactly the [n] values of a row, followed at most by text
    that is not a number, [readFromUserInput] returns the matrix of these
    rows, and what it has written is the two opening prompts and one prompt
    for each row, numbered from 1. *)
Theorem readFromUserInput_reads_the_rows n rows head more :
  n <> 0 -> fits n -> square n rows -> Forall2 exact_row rows head ->
  UserInput.readFromUserInput n (head ++ more) = (prompts n, Ok (n, concat rows)).
Proof.
  intros Hn Hf [Hlen Hsq] Hpref. unfold UserInput.readFromUserInput.
  destruct (N.eqb_spec n 0); [contradiction|].
  pose proof (user_read_rows_run rows 0 n 0 head more []
                (replicate (N.to_nat (size_mul n n)) LD.zero) []) as H.
  rewrite Nat.add_0_r, Hlen, app_nil_r in H. simpl in H. rewrite H; try assumption.
  - simpl. now rewrite app_nil_r.
  - lia.
  - reflexivity.
  - now rewrite zeros_room.
Qed.

Lemma readFromUserInput_reads_the_rows_witness :
  UserInput.readFromUserInput 2 ([nums [1; 2]%Z ++ [Junk]; nums [3; 4]%Z] ++ [nums [5]%Z])
  = (prompts 2, Ok (2, concat [map lit [1; 2]; map lit [3; 4]]%Z)).
Proof.
  apply (readFromUserInput_reads_the_rows 2 [map lit [1; 2]; map lit [3; 4]]%Z).
  - discriminate.
  - reflexivity.
  - split; [reflexivity|]. repeat constructor.
  - constructor; [now exists [Junk]|]. constructor; [|constructor]. now exists [].
Defined.

(** X21: [readFromUserInput] refuses the first line that is not a row of
    exactly [n] values, and names it: after some well-formed rows, a line
    with fewer than [n] values (or the end of the input) gives "not enough
    numbers in row k" and a line with more than [n] values gives "too many
    numbers in row k", where [k] counts the rows from 1. *)
Theorem readFromUserInput_names_the_bad_row n rows head rest :
  fits n -> Forall (fun r => length r = N.to_nat n) rows -> Forall2 exact_row rows head ->
  N.of_nat (length rows) < n ->
  (short_row n (hd [] rest) ->
   snd (UserInput.readFromUserInput n (head ++ rest))
   = Throw (String.append "Invalid input: not enough numbers in row "
              (UserInput.to_string (N.of_nat (length rows) + 1)))) /\
  (long_row n (hd [] rest) ->
   snd (UserInput.readFromUserInput n (head ++ rest))
   = Throw (String.append "Invalid input: too many numbers in row "
              (UserInput.to_string (N.of_nat (length rows) + 1)))).
Proof.
  intros Hf Hsq Hpref Hlt. unfold UserInput.readFromUserInput.
  destruct (N.eqb_spec n 0); [lia|].
  destruct (split_old (replicate (N.to_nat (size_mul n n)) LD.zero)
              (length rows * N.to_nat n)
              (N.to_nat n + (N.to_nat n - S (length rows)) * N.to_nat n))
    as (old & post & -> & Hold & Hpost).
  { rewrite zeros_room by assumption. nia. }
  destruct (split_old post _ _ Hpost) as (o1 & o2 & -> & Ho1 & Ho2).
  set (k := (N.to_nat n - S (length rows))%nat) in *.
  set (out := ["Enter matrix size N: "] ++ _).
  assert (Hrun : UserInput.read_rows (N.to_nat n) n 0 (head ++ rest) (old ++ o1 ++ o2) out
                 = UserInput.read_rows (S k) n (N.of_nat (length rows)) rest
                     (concat rows ++ o1 ++ o2)
                     (out ++ map (fun k => row_prompt (N.of_nat k)) (seq 0 (length rows)))).
  { pose proof (user_read_rows_run rows (S k) n 0 head rest [] old (o1 ++ o2) out Hf) as H.
    replace (length rows + S k)%nat with (N.to_nat n) in H by lia.
    apply H; try assumption; [lia|reflexivity]. }
  rewrite Hrun.
  assert (Hpre : length (concat rows) = N.to_nat (N.of_nat (length rows) * n)).
  { rewrite (length_concat_square (N.to_nat n)) by assumption. lia. }
  split; intros Hbad; simpl.
  - now rewrite (user_row_short n _ (hd [] rest) (concat rows) o1 o2).
  - now rewrite (user_row_long n _ (hd [] rest) (concat rows) o1 o2).
Qed.

Lemma readFromUserInput_names_the_bad_row_witness :
  snd (UserInput.readFromUserInput 2 ([nums [1; 2]%Z] ++ [nums [3; 4; 5]%Z]))
  = Throw "Invalid input: too many numbers in row 2".
Proof.
  destruct (readFromUserInput_names_the_bad_row 2 [map lit [1; 2]%Z]
              [nums [1; 2]%Z] [nums [3; 4; 5]%Z]) as [_ H].
  - reflexivity.
  - repeat constructor.
  - constructor; [now exists []|constructor].
  - reflexivity.
  - apply H. reflexivity.
Defined.

Lemma values_then_row count : forall n i j line buf b rest,
  UserInput.read_values count n i j line buf = Ok (b, rest) ->
  read_row count n i j line buf = Ok b /\
  exists vs, line = map Num vs ++ rest /\ length vs = count.
Proof.
  induction count as [|c IH]; intros n i j line buf b rest H; simpl in H.
  - injection H as <- <-. split; [reflexivity|]. now exists [].
  - simpl. destruct line as [|[v|] line]; try discriminate.
    destruct (set n buf i j v) as [buf'|]; [|discriminate].
    apply IH in H as (H & vs & -> & <-). split; [assumption|]. now exists (v :: vs).
Qed.

Lemma user_row_then_row n i line buf b :
  UserInput.read_row n i line buf = Ok b ->
  read_row (N.to_nat n) n i 0 line buf = Ok b /\ count_values line = n.
Proof.
  unfold UserInput.read_row.
  destruct (UserInput.read_values _ _ _ _ _ _) as [[b' rest]| |] eqn:E; try discriminate.
  apply values_then_row in E as (E & vs & -> & Hvs).
  destruct rest as [|[v|] rest]; try discriminate; intros [= <-];
    (split; [assumption|]); rewrite count_values_exact by exact I; lia.
Qed.

Lemma user_rows_then_rows count : forall n i lines buf out o b,
  n <> 0 -> UserInput.read_rows count n i lines buf out = (o, Ok b) ->
  read_rows count n i lines buf = Ok b /\
  (count <> 0%nat -> count_values (hd [] lines) = n).
Proof.
  induction count as [|c IH]; intros n i lines buf out o b Hn H; simpl in H.
  - injection H as <- <-. now split.
  - destruct (UserInput.read_row n i (hd [] lines) buf) as [buf'| |] eqn:E;
      try discriminate.
    apply user_row_then_row in E as [E Hc].
    destruct lines as [|line lines]; [simpl in Hc; congruence|]. simpl in *.
    rewrite E. apply IH in H as [H _]; [|assumption]. now split.
Qed.

(** X22: the loader of files accepts whatever the interactive reader
    accepts: when [readFromUserInput] returns a matrix of a dimension other
    than 0 from some lines, [readFromFile] returns the same matrix from a
    file made of these lines. (The converse fails: a row that is too long is
    refused only by the interactive reader.) *)
Theorem file_loader_accepts_what_the_prompt_accepts filename n lines out m :
  n <> 0 -> UserInput.readFromUserInput n lines = (out, Ok m) ->
  readFromFile filename (Some lines) = Ok m.
Proof.
  intros Hn. unfold UserInput.readFromUserInput, readFromFile.
  destruct (N.eqb_spec n 0); [contradiction|].
  destruct (UserInput.read_rows _ _ _ _ _ _) as [o [b| |]] eqn:E; try discriminate.
  intros [= <- <-]. apply user_rows_then_rows in E as [E Hc]; [|assumption].
  rewrite Hc by lia. now rewrite E.
Qed.

Lemma file_loader_accepts_what_the_prompt_accepts_witness :
  readFromFile "m.txt" (Some [nums [1; 2]%Z ++ [Junk]; nums [3; 4]%Z; nums [5]%Z])
  = Ok (2, map lit [1; 2; 3; 4]%Z).
Proof.
  apply (file_loader_accepts_what_the_prompt_accepts "m.txt" 2
           [nums [1; 2]%Z ++ [Junk]; nums [3; 4]%Z; nums [5]%Z] (prompts 2)).
  - discriminate.
  - vm_compute. reflexivity.
Defined.

End UserInputMore.

(** ** A copy and the engine *)

Module CopyClaims.

Import Matrix StoreSpec MatrixFacts MatrixClaims MoreSpec Samples.
Import Buffer BufferFacts Engine EngineSpec EngineFacts LDFacts PivotFacts SwapClaims
  NoTies EngineClaims.

(** An iteration at column [k] leaves the rows above row [k] as they are. *)
Lemma lu_step_keeps_rows_above n k st o r c :
  wf_state n st -> k < n -> r < k -> c < n -> lu_step n k st = Some o ->
  get n (outcome_mat o) r c = get n (mat st) r c.
Proof.
  intros Hwf Hk Hr Hc Hstep. assert (Hw := proj1 Hwf).
  destruct (find_pivot_spec n k (mat st) Hw Hk) as (mv & p & Hfind & Hp & _).
  destruct (pivot_step_spec n k st mv p Hwf Hk Hp Hfind)
    as (st1 & Hpiv & [Hw1 _] & _ & _ & Hget).
  assert (Hrow : get n (mat st1) r c = get n (mat st) r c).
  { rewrite Hget by lia. unfold swapped.
    destruct (N.eqb_spec r k); [lia|]. now destruct (N.eqb_spec r p); [lia|]. }
  unfold lu_step in Hstep. rewrite Hpiv in Hstep. simpl in Hstep.
  destruct (get_total n (mat st1) k k Hw1 Hk Hk) as [pv Hpv].
  rewrite Hpv in Hstep. simpl in Hstep.
  destruct (LD.lt (LD.fabsl pv) LD.eps); [now injection Hstep as <-|].
  destruct (eliminate_spec n k pv (mat st1) Hw1 Hk) as (b & Hb & _ & Hel).
  rewrite Hb in Hstep. simpl in Hstep. injection Hstep as <-. simpl.
  rewrite Hel by lia. unfold eliminated.
  now destruct (N.leb_spec r k); [|lia].
Qed.

Lemma lu_loop_keeps_rows_above count : forall n k st o r c,
  wf_state n st -> k + N.of_nat count <= n -> r < k -> c < n ->
  lu_loop count n k st = Some o ->
  get n (outcome_mat o) r c = get n (mat st) r c.
Proof.
  induction count as [|cnt IH]; intros n k st o r c Hwf Hk Hr Hc Hrun; simpl in Hrun.
  - now injection Hrun as <-.
  - destruct (lu_step_total n k st Hwf ltac:(lia)) as (o1 & Ho1 & Hwf1).
    rewrite Ho1 in Hrun.
    pose proof (lu_step_keeps_rows_above n k st o1 r c Hwf ltac:(lia) Hr Hc Ho1) as H1.
    destruct o1 as [r1 s1|st1]; [now injection Hrun as <-|].
    simpl in H1, Hwf1. rewrite <- H1.
    apply (IH n (N.succ k) st1 o r c); try assumption; lia.
Qed.

(** When the first iteration exchanges two rows, the element [(0, 0)] that
    the call leaves is not the one it found. *)
Lemma exchange_in_column_0_shows n buf mv p r buf' :
  wf_buf n buf -> 2 <= n -> find_pivot n 0 buf = Some (mv, p) -> p <> 0 ->
  calculateDeterminant n buf = Some (r, buf') -> buf' <> buf.
Proof.
  intros Hw Hn Hfind Hp Hrun.
  pose (st := init_state n buf).
  assert (Hwf : wf_state n st) by (split; [assumption|apply init_pivot_length]).
  destruct (get_total n buf 0 0 Hw) as [y Hy]; [lia..|].
  destruct (find_pivot_spec n 0 buf Hw) as (mv' & p' & Hfind' & Hr & x & Hx & Hmv & _);
    [lia|].
  rewrite Hfind in Hfind'. injection Hfind' as <- <-.
  destruct (find_pivot_above_first n 0 buf mv p y Hw) as (x' & E & Hgt);
    [lia|assumption..|].
  assert (Hxy : LD.gt (LD.fabsl x) (LD.fabsl y) = true) by (rewrite <- Hmv, E; exact Hgt).
  assert (Hnew : get n buf' 0 0 = Some x).
  { rewrite calculateDeterminant_loop in Hrun by assumption. fold st in Hrun.
    destruct (lu_loop (N.to_nat n) n 0 st) as [o|] eqn:Hloop; [|discriminate].
    assert (Hmat : buf' = outcome_mat o) by (destruct o; now injection Hrun as _ <-).
    subst buf'.
    destruct (N.to_nat n) as [|cnt] eqn:Hcnt; [lia|]. simpl in Hloop.
    destruct (lu_step_total n 0 st Hwf) as (o1 & Ho1 & Hwf1); [lia|].
    rewrite Ho1 in Hloop.
    assert (H1 : get n (outcome_mat o1) 0 0 = Some x).
    { destruct (pivot_step_spec n 0 st mv p Hwf) as (st1 & Hpiv & [Hw1 _] & _ & _ & Hget);
        [lia|lia|assumption|].
      assert (Hrow : get n (mat st1) 0 0 = Some x).
      { rewrite Hget by lia. unfold swapped. now rewrite N.eqb_refl. }
      unfold lu_step in Ho1. rewrite Hpiv in Ho1. simpl in Ho1.
      rewrite Hrow in Ho1. simpl in Ho1.
      destruct (LD.lt (LD.fabsl x) LD.eps); [now injection Ho1 as <-|].
      destruct (eliminate_spec n 0 x (mat st1) Hw1) as (b & Hb & _ & Hel); [lia|].
      rewrite Hb in Ho1. simpl in Ho1. injection Ho1 as <-. simpl.
      rewrite Hel by lia. unfold eliminated. simpl. exact Hrow. }
    destruct o1 as [r1 s1|st1]; [now injection Hloop as <-|].
    rewrite <- H1.
    apply (lu_loop_keeps_rows_above cnt n (N.succ 0) st1 o 0 0); try assumption; lia. }
  intros ->. rewrite Hy in Hnew. injection Hnew as ->.
  now rewrite gt_irrefl in Hxy.
Qed.

(** C7, as the code has it: a matrix [M] is copied to [dup] (by [copy] or
    the copy constructor) and the engine is run on [dup]. The copy owns a
    buffer of its own, with the elements of [M]; after the call the object
    [M] and every element of its buffer are what they were, and the buffer
    of [dup] holds what the engine left. The duplicate is not always
    changed by the call: in dimension 0 and 1 it is left as it was; it is
    changed whenever the pivot search of column 0 selects a row other than
    row 0. *)
Theorem copy_leaves_original_unmodified σ M dup m buf :
  objs σ !! M = Some m -> buffer_of σ m = Some buf ->
  wf_buf (size m) buf -> objs σ !! dup = None ->
  exists σ1 l r buf' σ2,
    copy dup M σ = Some σ1 /\ copy_ctor dup M σ = Some σ1 /\
    objs σ1 !! dup = Some (Mk (Some l) (size m)) /\
    data m <> Some l /\ bufs σ1 !! l = Some buf /\
    objs σ1 !! M = Some m /\ buffer_of σ1 m = Some buf /\
    DeterminantCalculator.calculateDeterminant dup σ1 = Some (r, σ2) /\
    Engine.calculateDeterminant (size m) buf = Some (r, buf') /\
    objs σ2 !! M = Some m /\ buffer_of σ2 m = Some buf /\
    bufs σ2 !! l = Some buf' /\
    (size m <= 1 -> buf' = buf) /\
    (forall mv p, 2 <= size m -> find_pivot (size m) 0 buf = Some (mv, p) -> p <> 0 ->
       buf' <> buf).
Proof.
  intros Hm Hb Hw Hnew.
  destruct (copy_then_determinant σ M dup m buf Hm Hb Hw Hnew)
    as (σ1 & l & r & buf' & σ2 & H1 & H2 & H3 & H4 & H5 & H6 & H7 & H8 & H9 & H10 &
        H11 & H12).
  exists σ1, l, r, buf', σ2. repeat (split; [assumption|]). split.
  - intros Hsz. revert H9. unfold calculateDeterminant.
    destruct (N.eqb_spec (size m) 0); [now intros [= _ <-]|].
    destruct (N.eqb_spec (size m) 1); [|lia].
    destruct (get (size m) buf 0 0); [simpl|discriminate]. now intros [= _ <-].
  - intros mv p Hn Hfind Hp.
    exact (exchange_in_column_0_shows (size m) buf mv p r buf' Hw Hn Hfind Hp H9).
Qed.

Lemma copy_leaves_original_unmodified_witness :
  exists σ1 σ2 r l b,
    copy 2 1 store22 = Some σ1 /\
    DeterminantCalculator.calculateDeterminant 2 σ1 = Some (r, σ2) /\
    objs σ2 !! 1%positive = Some M22 /\
    buffer_of σ2 M22 = Some m22 /\
    bufs σ2 !! l = Some b /\ b <> m22.
Proof.
  destruct (copy_leaves_original_unmodified store22 1 2 M22 m22)
    as (σ1 & l & r & b & σ2 & H1 & _ & _ & _ & _ & _ & _ & H2 & H3 & H4 & H5 & H6 & _ & H7).
  - reflexivity.
  - reflexivity.
  - split; reflexivity.
  - reflexivity.
  - exists σ1, σ2, r, l, b. repeat (split; [assumption|]).
    apply (H7 (LD.fabsl (lit 3)) 1); [discriminate|vm_compute; reflexivity|discriminate].
Defined.

(** C7, as stated, fails for the part "the duplicate is mutated": the
    duplicate of the 2x2 identity matrix holds the same elements after the
    call as before. *)
Lemma duplicate_of_identity_is_not_mutated :
  exists σ1 σ2 r l,
    copy 2 1 store_identity = Some σ1 /\
    objs σ1 !! 2%positive = Some (Mk (Some l) 2) /\
    bufs σ1 !! l = Some identity22 /\
    DeterminantCalculator.calculateDeterminant 2 σ1 = Some (r, σ2) /\
    objs σ2 !! 2%positive = Some (Mk (Some l) 2) /\
    bufs σ2 !! l = Some identity22.
Proof.
  do 4 eexists. split; [vm_compute; reflexivity|].
  split; [vm_compute; reflexivity|]. split; [vm_compute; reflexivity|].
  split; [vm_compute; reflexivity|]. split; vm_compute; reflexivity.
Qed.

End CopyClaims.

(** ** The invariant of the specification *)

Module InvariantClaims.

Import Matrix StoreSpec MatrixFacts MatrixClaims MoreSpec Samples MatrixMore.








End InvariantClaims.
